(* ===================================================================== *)
(*  kms-integrations: handle registry, token object store, login state,  *)
(*  and the CNG provider bridge, embedded shallowly and verified.        *)
(*                                                                       *)
(*  Sources embedded:                                                    *)
(*    kmsp11/util/handle_map.h   (HandleMap<T>)                          *)
(*    kmsp11/token.cc            (ObjectStoreBuilder, LoadState,         *)
(*                                LoadObjects, Token::Login/Logout,      *)
(*                                Token::FindObjects)                    *)
(*    kmscng/main/bridge.cc      (provider bridge entry points)          *)
(* ===================================================================== *)

From Stdlib Require Import ZArith NArith Strings.String Strings.Ascii.
From Stdlib Require Import Strings.HexString Numbers.DecimalString.
From stdpp Require Import gmap strings list fin_maps sorting.

Local Open Scope string_scope.
Local Open Scope list_scope.

(* --------------------------------------------------------------------- *)
(*  absl::Status / absl::StatusOr                                        *)
(* --------------------------------------------------------------------- *)

(** The canonical codes of absl::StatusCode. *)
Inductive StatusCode : Type :=
| kOk | kCancelled | kUnknown | kInvalidArgument | kDeadlineExceeded
| kNotFound | kAlreadyExists | kPermissionDenied | kResourceExhausted
| kFailedPrecondition | kAborted | kOutOfRange | kUnimplemented
| kInternal | kUnavailable | kDataLoss | kUnauthenticated.

#[global] Instance StatusCode_eq_dec : EqDecision StatusCode.
Proof. solve_decision. Defined.

(** A non-OK status: the canonical code, the provider return value that
    the error helpers attach to it (a CK_RV for the PKCS #11 library, a
    SECURITY_STATUS for the CNG provider), and the message. *)
Record ErrorInfo : Type := mkError {
  code : StatusCode;
  rv : N;
  message : string
}.

#[global] Instance ErrorInfo_eq_dec : EqDecision ErrorInfo.
Proof. solve_decision. Defined.

(** absl::StatusOr<A>; absl::Status is StatusOr<unit>. *)
Inductive StatusOr (A : Type) : Type :=
| Ok (a : A)
| Err (e : ErrorInfo).
Arguments Ok {A} a.
Arguments Err {A} e.

Abbreviation Status := (StatusOr unit).
Abbreviation OkStatus := (Ok tt).

(** ASSIGN_OR_RETURN and RETURN_IF_ERROR: the first error is returned. *)
#[global] Instance StatusOr_ret : MRet StatusOr := @Ok.
#[global] Instance StatusOr_bind : MBind StatusOr := λ A B k s,
  match s with Ok a => k a | Err e => Err e end.

Definition ok {A} (s : StatusOr A) : bool :=
  match s with Ok _ => true | Err _ => false end.

(** The values of a range of StatusOr that are not errors, in order. *)
Fixpoint oks {A} (l : list (StatusOr A)) : list A :=
  match l with
  | [] => []
  | Ok a :: l' => a :: oks l'
  | Err _ :: l' => oks l'
  end.

(** absl::StrFormat directives used by the sources. *)
Definition fmt_hex (n : N) : string :=          (* %#x *)
  if (n =? 0)%N then "0" else HexString.of_N n.
Definition fmt_u (n : N) : string :=            (* %u *)
  NilZero.string_of_uint (N.to_uint n).


(* ===================================================================== *)
Module kms_v1.
(* ===================================================================== *)
(** The fields of the Cloud KMS v1 messages that the sources read. *)

Inductive ProtectionLevel : Type :=
| PROTECTION_LEVEL_UNSPECIFIED | SOFTWARE | HSM | EXTERNAL | EXTERNAL_VPC.

Inductive CryptoKeyPurpose : Type :=
| CRYPTO_KEY_PURPOSE_UNSPECIFIED | ENCRYPT_DECRYPT | ASYMMETRIC_SIGN
| ASYMMETRIC_DECRYPT | RAW_ENCRYPT_DECRYPT | MAC.

Inductive CryptoKeyVersionState : Type :=
| CRYPTO_KEY_VERSION_STATE_UNSPECIFIED | PENDING_GENERATION | ENABLED
| DISABLED | DESTROYED | DESTROY_SCHEDULED | PENDING_IMPORT | IMPORT_FAILED.

(** CryptoKeyVersion.CryptoKeyVersionAlgorithm, by its enum number. *)
Abbreviation CryptoKeyVersionAlgorithm := N.
Definition RSA_SIGN_RAW_PKCS1_2048 : CryptoKeyVersionAlgorithm := 28.
Definition EC_SIGN_P256_SHA256 : CryptoKeyVersionAlgorithm := 12.
Definition EC_SIGN_P384_SHA384 : CryptoKeyVersionAlgorithm := 13.

#[global] Instance ProtectionLevel_eq_dec : EqDecision ProtectionLevel.
Proof. solve_decision. Defined.
#[global] Instance CryptoKeyPurpose_eq_dec : EqDecision CryptoKeyPurpose.
Proof. solve_decision. Defined.
#[global] Instance CryptoKeyVersionState_eq_dec : EqDecision CryptoKeyVersionState.
Proof. solve_decision. Defined.

Record CryptoKeyVersion : Type := mkCryptoKeyVersion {
  ckv_name : string;
  ckv_state : CryptoKeyVersionState;
  ckv_algorithm : CryptoKeyVersionAlgorithm;
  ckv_protection_level : ProtectionLevel
}.

(** CryptoKey with version_template().protection_level() flattened. *)
Record CryptoKey : Type := mkCryptoKey {
  ck_name : string;
  ck_purpose : CryptoKeyPurpose;
  ck_protection_level : ProtectionLevel
}.

Record PublicKey : Type := mkPublicKey { pem : string }.

#[global] Instance CryptoKeyVersion_eq_dec : EqDecision CryptoKeyVersion.
Proof. solve_decision. Defined.
#[global] Instance CryptoKey_eq_dec : EqDecision CryptoKey.
Proof. solve_decision. Defined.

End kms_v1.
(* ===================================================================== *)
Module kmsp11.
(* ===================================================================== *)

(** cryptoki.h: CK_ULONG and the types derived from it. *)
Abbreviation CK_ULONG := N.
Abbreviation CK_RV := N.
Abbreviation CK_OBJECT_HANDLE := N.
Abbreviation CK_USER_TYPE := N.
Abbreviation CK_OBJECT_CLASS := N.

(** PKCS #11 v2.40 constants used by the sources below. *)
Definition CKR_GENERAL_ERROR : CK_RV := 0x5.
Definition CKR_OBJECT_HANDLE_INVALID : CK_RV := 0x82.
Definition CKR_OPERATION_NOT_INITIALIZED : CK_RV := 0x91.
Definition CKR_PIN_LOCKED : CK_RV := 0xA4.
Definition CKR_USER_ALREADY_LOGGED_IN : CK_RV := 0x100.
Definition CKR_USER_NOT_LOGGED_IN : CK_RV := 0x101.
Definition CKR_USER_TYPE_INVALID : CK_RV := 0x103.

Definition CKU_SO : CK_USER_TYPE := 0.
Definition CKU_USER : CK_USER_TYPE := 1.
Definition CKU_CONTEXT_SPECIFIC : CK_USER_TYPE := 2.

Definition CKO_CERTIFICATE : CK_OBJECT_CLASS := 1.
Definition CKO_PUBLIC_KEY : CK_OBJECT_CLASS := 2.
Definition CKO_PRIVATE_KEY : CK_OBJECT_CLASS := 3.

(** kmsp11/util/errors.h: every helper builds a status of the code its
  name says, carrying the CK_RV it is given; NewInternalError carries
  CKR_GENERAL_ERROR. *)
Definition NewError (c : StatusCode) (msg : string) (ckr : CK_RV) : ErrorInfo :=
mkError c ckr msg.
Definition NewInternalError (msg : string) : ErrorInfo :=
NewError kInternal msg CKR_GENERAL_ERROR.
Definition NewInvalidArgumentError (msg : string) (ckr : CK_RV) : ErrorInfo :=
NewError kInvalidArgument msg ckr.
Definition FailedPreconditionError (msg : string) (ckr : CK_RV) : ErrorInfo :=
NewError kFailedPrecondition msg ckr.
Definition HandleNotFoundError (handle : CK_ULONG) (ckr : CK_RV) : ErrorInfo :=
NewError kNotFound ("handle not found: " ++ fmt_hex handle)%string ckr.

(* --------------------------------------------------------------------- *)
(*  kmsp11/util/handle_map.h                                             *)
(* --------------------------------------------------------------------- *)

(** A HandleMap contains a set of items with assigned CK_ULONG handles.
  [items_] is the absl::flat_hash_map; the mutex is not modelled, every
  operation below is one critical section. *)
Record HandleMap (T : Type) : Type := mkHandleMap {
not_found_rv_ : CK_RV;
items_ : gmap CK_ULONG T
}.
Arguments mkHandleMap {T} _ _.
Arguments not_found_rv_ {T} _.
Arguments items_ {T} _.

Section HandleMap.
Context {T : Type}.

(** HandleMap(CK_RV not_found_rv) *)
Definition new_HandleMap (not_found_rv : CK_RV) : HandleMap T :=
  mkHandleMap not_found_rv ∅.

Definition contains (items : gmap CK_ULONG T) (handle : CK_ULONG) : bool :=
  match items !! handle with Some _ => true | None => false end.

(** flat_hash_map::try_emplace: inserts only when the key is absent. *)
Definition try_emplace (items : gmap CK_ULONG T) (handle : CK_ULONG) (item : T)
  : gmap CK_ULONG T :=
  match items !! handle with Some _ => items | None => <[handle := item]> items end.

(** The do-while of Add.  [draws] is the sequence of values the next
    calls of RandomHandle() return; the loop takes the first one that
    is not a key of the map and hands back the draws it did not use.
    [None]: the loop has not left within the given draws. *)
Fixpoint Add_loop (items : gmap CK_ULONG T) (draws : list CK_ULONG)
  : option (CK_ULONG * list CK_ULONG) :=
  match draws with
  | [] => None
  | handle :: rest =>
      if contains items handle then Add_loop items rest else Some (handle, rest)
  end.

(** Adds item to the map and returns its handle. *)
Definition Add (item : T) (draws : list CK_ULONG) (m : HandleMap T)
  : option (CK_ULONG * HandleMap T * list CK_ULONG) :=
  match Add_loop (items_ m) draws with
  | None => None
  | Some (handle, rest) =>
      Some (handle,
            mkHandleMap (not_found_rv_ m) (try_emplace (items_ m) handle item),
            rest)
  end.

(** Adds an item to the map using the provided handle. Returns
    absl::InternalError if the provided handle is already in use. *)
Definition AddDirect (handle : CK_ULONG) (item : T) (m : HandleMap T)
  : Status * HandleMap T :=
  match items_ m !! handle with
  | Some _ =>
      (Err (NewInternalError ("handle " ++ fmt_hex handle ++ " is already in use")%string), m)
  | None =>
      (OkStatus, mkHandleMap (not_found_rv_ m) (<[handle := item]> (items_ m)))
  end.

(** Gets the map element with the provided handle. *)
Definition Get (handle : CK_ULONG) (m : HandleMap T) : StatusOr T :=
  match items_ m !! handle with
  | None => Err (HandleNotFoundError handle (not_found_rv_ m))
  | Some item => Ok item
  end.

(** Removes the map element with the provided handle. *)
Definition Remove (handle : CK_ULONG) (m : HandleMap T) : Status * HandleMap T :=
  match items_ m !! handle with
  | None => (Err (HandleNotFoundError handle (not_found_rv_ m)), m)
  | Some _ => (OkStatus, mkHandleMap (not_found_rv_ m) (delete handle (items_ m)))
  end.

(** std::sort(first, last, comp): the order it leaves between elements
    that [comp] does not separate is unspecified; this insertion sort is
    one such order.  [comp a b] reads "a goes before b". *)
Fixpoint sort_insert {A} (comp : A → A → bool) (x : A) (l : list A) : list A :=
  match l with
  | [] => [x]
  | y :: l' => if comp x y then x :: y :: l' else y :: sort_insert comp x l'
  end.

Definition std_sort {A} (comp : A → A → bool) (l : list A) : list A :=
  foldr (sort_insert comp) [] l.

(** The comparator Find hands to std::sort: sort_compare on the items the
    two handles stand for.  items_.at throws on a missing key; every
    handle in [results] is a key of the map, so that case does not arise
    (see [Find_handles_live]). *)
Definition Find_compare (items : gmap CK_ULONG T) (sort_compare : T → T → bool)
  (h1 h2 : CK_ULONG) : bool :=
  match items !! h1, items !! h2 with
  | Some o1, Some o2 => sort_compare o1 o2
  | _, _ => false
  end.

(** Finds all keys in the map whose value matches the provided predicate.
    If sort_compare is provided, the results are sorted before being
    returned.  The iteration order of the hash map is unspecified;
    [map_to_list] is one such order. *)
Definition Find (predicate : T → bool) (sort_compare : option (T → T → bool))
  (m : HandleMap T) : list CK_ULONG :=
  let results :=
    (filter (λ it : CK_ULONG * T, predicate it.2 = true) (map_to_list (items_ m))).*1 in
  match sort_compare with
  | None => results
  | Some cmp => std_sort (Find_compare (items_ m) cmp) results
  end.

End HandleMap.


(* --------------------------------------------------------------------- *)
(*  kmsp11/token.cc                                                      *)
(* --------------------------------------------------------------------- *)
Import kms_v1.

Abbreviation bytes := (list Byte.byte).

(** What token.cc calls into and is not part of it: the algorithm table,
    the key and certificate codecs, the certificate authority, and the
    Object class with the two accessors FindObjects reads. *)
Class Collaborators : Type := {
  EVP_PKEY : Type;
  X509 : Type;
  CertAuthority : Type;
  AlgorithmDetails : Type;
  Object : Type;
  kms_key_name : Object → string;
  object_class : Object → CK_OBJECT_CLASS;
  GetDetails : CryptoKeyVersionAlgorithm → StatusOr AlgorithmDetails;
  ParseX509PublicKeyPem : string → StatusOr EVP_PKEY;
  MarshalX509PublicKeyDer : EVP_PKEY → StatusOr bytes;
  ParseX509PublicKeyDer : bytes → StatusOr EVP_PKEY;
  CertAuthority_New : StatusOr CertAuthority;
  GenerateCert : CertAuthority → CryptoKeyVersion → EVP_PKEY → StatusOr X509;
  MarshalX509CertificateDer : X509 → StatusOr bytes;
  ParseX509CertificateDer : bytes → StatusOr X509;
  NewKeyPair : CryptoKeyVersion → EVP_PKEY → StatusOr (Object * Object);
  NewCertificate : CryptoKeyVersion → X509 → StatusOr Object
}.

(** KeyPair: the public and the private object of one key version. *)
Definition public_key `{Collaborators} (kp : Object * Object) : Object := kp.1.
Definition private_key `{Collaborators} (kp : Object * Object) : Object := kp.2.

(** kmsp11/object_store_state.proto *)
Record Certificate : Type := mkCertificate {
  x509_der : bytes;
  handle : CK_OBJECT_HANDLE
}.

Record AsymmetricKey : Type := mkAsymmetricKey {
  crypto_key_version : CryptoKeyVersion;
  public_key_handle : CK_OBJECT_HANDLE;
  private_key_handle : CK_OBJECT_HANDLE;
  public_key_der : bytes;
  certificate : option Certificate
}.

Record ObjectStoreState : Type := mkObjectStoreState {
  asymmetric_keys : list AsymmetricKey
}.

(** The KmsClient calls LoadState makes.  A range yields StatusOr items. *)
Record KmsClient : Type := mkKmsClient {
  ListCryptoKeys : string → list (StatusOr CryptoKey);
  ListCryptoKeyVersions : string → list (StatusOr CryptoKeyVersion);
  GetPublicKey : string → StatusOr PublicKey
}.

(** The LOG(INFO) lines of the loader, by what they report. *)
Inductive LogLine : Type :=
| SkipVersionState (name : string) (state : CryptoKeyVersionState)
| SkipVersionAlgorithm (name : string) (algorithm : CryptoKeyVersionAlgorithm)
| SkipKeyProtectionLevel (name : string) (level : ProtectionLevel)
| SkipKeyPurpose (name : string) (purpose : CryptoKeyPurpose).

(** The process state the loader acts on besides its own variables: the
    log, and the values the coming calls of RandomHandle() return. *)
Record World : Type := mkWorld {
  log_ : list LogLine;
  draws_ : list CK_ULONG
}.

(** Loader computations: they read and write the World, return a value or
    an error status, or ([None]) are still inside a NewHandle retry loop
    when the draws run out. *)
Definition M (A : Type) : Type := World → option (StatusOr A * World).

Definition ret {A} (a : A) : M A := λ w, Some (Ok a, w).

Definition bind {A B} (c : M A) (k : A → M B) : M B := λ w,
  match c w with
  | None => None
  | Some (Err e, w') => Some (Err e, w')
  | Some (Ok a, w') => k a w'
  end.

(** ASSIGN_OR_RETURN / RETURN_IF_ERROR on a StatusOr already computed. *)
Definition lift {A} (s : StatusOr A) : M A := λ w, Some (s, w).

Definition LOG (l : LogLine) : M unit := λ w,
  Some (OkStatus, mkWorld (log_ w ++ [l]) (draws_ w)).

#[global] Instance M_ret : MRet M := @ret.
#[global] Instance M_bind : MBind M := λ A B k c, bind c k.

Section Loader.
Context `{Collaborators}.

(** class ObjectStoreBuilder *)
Record ObjectStoreBuilder : Type := mkObjectStoreBuilder {
  state_ : ObjectStoreState;
  cert_authority_ : option CertAuthority;
  allocated_handles_ : gset CK_OBJECT_HANDLE
}.

(** ObjectStoreBuilder::New *)
Definition ObjectStoreBuilder_New (generate_certs : bool) : M ObjectStoreBuilder :=
  let builder := mkObjectStoreBuilder (mkObjectStoreState []) None ∅ in
  if generate_certs then
    ca ← lift CertAuthority_New;
    mret (mkObjectStoreBuilder (state_ builder) (Some ca) (allocated_handles_ builder))
  else mret builder.

(** The do-while of ObjectStoreBuilder::NewHandle over the coming draws. *)
Fixpoint NewHandle_loop (allocated : gset CK_OBJECT_HANDLE) (draws : list CK_ULONG)
  : option (CK_OBJECT_HANDLE * list CK_ULONG) :=
  match draws with
  | [] => None
  | handle :: rest =>
      if bool_decide (handle ∈ allocated) then NewHandle_loop allocated rest
      else Some (handle, rest)
  end.

(** ObjectStoreBuilder::NewHandle; the builder it leaves is returned with
    the handle. *)
Definition NewHandle (b : ObjectStoreBuilder) : M (CK_OBJECT_HANDLE * ObjectStoreBuilder) :=
  λ w,
  match NewHandle_loop (allocated_handles_ b) (draws_ w) with
  | None => None
  | Some (handle, rest) =>
      Some (Ok (handle,
                mkObjectStoreBuilder (state_ b) (cert_authority_ b)
                  ({[handle]} ∪ allocated_handles_ b)),
            mkWorld (log_ w) rest)
  end.

(** *state_.add_asymmetric_keys() = key *)
Definition add_asymmetric_keys (key : AsymmetricKey) (b : ObjectStoreBuilder)
  : ObjectStoreBuilder :=
  mkObjectStoreBuilder
    (mkObjectStoreState (asymmetric_keys (state_ b) ++ [key]))
    (cert_authority_ b) (allocated_handles_ b).

(** ObjectStoreBuilder::AddAsymmetricKey *)
Definition AddAsymmetricKey (ckv : CryptoKeyVersion) (public_key : PublicKey)
  (b : ObjectStoreBuilder) : M ObjectStoreBuilder :=
  pub ← lift (ParseX509PublicKeyPem (pem public_key));
  '(private_handle, b) ← NewHandle b;
  '(public_handle, b) ← NewHandle b;
  der ← lift (MarshalX509PublicKeyDer pub);
  match cert_authority_ b with
  | Some ca =>
      x509 ← lift (GenerateCert ca ckv pub);
      cert_der ← lift (MarshalX509CertificateDer x509);
      '(cert_handle, b) ← NewHandle b;
      mret (add_asymmetric_keys
              (mkAsymmetricKey ckv public_handle private_handle der
                 (Some (mkCertificate cert_der cert_handle))) b)
  | None =>
      mret (add_asymmetric_keys
              (mkAsymmetricKey ckv public_handle private_handle der None) b)
  end.

(** The for loop of LoadVersions over the range [v]. *)
Fixpoint LoadVersions_loop (client : KmsClient) (v : list (StatusOr CryptoKeyVersion))
  (b : ObjectStoreBuilder) : M ObjectStoreBuilder :=
  match v with
  | [] => mret b
  | it :: v' =>
      ckv ← lift it;
      if bool_decide (ckv_state ckv ≠ ENABLED) then
        LOG (SkipVersionState (ckv_name ckv) (ckv_state ckv));;
        LoadVersions_loop client v' b
      else if negb (ok (GetDetails (ckv_algorithm ckv))) then
        LOG (SkipVersionAlgorithm (ckv_name ckv) (ckv_algorithm ckv));;
        LoadVersions_loop client v' b
      else
        pub ← lift (GetPublicKey client (ckv_name ckv));
        b ← AddAsymmetricKey ckv pub b;
        LoadVersions_loop client v' b
  end.

Definition LoadVersions (client : KmsClient) (key : CryptoKey) (b : ObjectStoreBuilder)
  : M ObjectStoreBuilder :=
  LoadVersions_loop client (ListCryptoKeyVersions client (ck_name key)) b.

(** The for loop of LoadState over the range [keys]. *)
Fixpoint LoadState_loop (client : KmsClient) (keys : list (StatusOr CryptoKey))
  (b : ObjectStoreBuilder) : M ObjectStoreBuilder :=
  match keys with
  | [] => mret b
  | it :: keys' =>
      key ← lift it;
      if bool_decide (ck_protection_level key ≠ HSM) then
        LOG (SkipKeyProtectionLevel (ck_name key) (ck_protection_level key));;
        LoadState_loop client keys' b
      else
        match ck_purpose key with
        | ASYMMETRIC_DECRYPT | ASYMMETRIC_SIGN =>
            b ← LoadVersions client key b;
            LoadState_loop client keys' b
        | _ =>
            LOG (SkipKeyPurpose (ck_name key) (ck_purpose key));;
            LoadState_loop client keys' b
        end
  end.

Definition LoadState (client : KmsClient) (key_ring_name : string)
  (generate_certs : bool) : M ObjectStoreState :=
  builder ← ObjectStoreBuilder_New generate_certs;
  builder ← LoadState_loop client (ListCryptoKeys client key_ring_name) builder;
  mret (state_ builder).

(** RETURN_IF_ERROR on a call that acts on an object passed by pointer:
    the object as the call left it, or the call's error. *)
Definition RETURN_IF_ERROR {S} (r : Status * S) : StatusOr S :=
  match r with
  | (Ok _, s) => Ok s
  | (Err e, _) => Err e
  end.

(** The body of the for loop of LoadObjects. *)
Definition LoadObjects_key (key : AsymmetricKey) (objects : HandleMap Object)
  : StatusOr (HandleMap Object) :=
  pub ← ParseX509PublicKeyDer (public_key_der key);
  key_pair ← NewKeyPair (crypto_key_version key) pub;
  objects ← RETURN_IF_ERROR
    (AddDirect (public_key_handle key) (public_key key_pair) objects);
  objects ← RETURN_IF_ERROR
    (AddDirect (private_key_handle key) (private_key key_pair) objects);
  match certificate key with
  | Some c =>
      x509 ← ParseX509CertificateDer (x509_der c);
      cert ← NewCertificate (crypto_key_version key) x509;
      RETURN_IF_ERROR (AddDirect (handle c) cert objects)
  | None => Ok objects
  end.

Fixpoint LoadObjects_loop (keys : list AsymmetricKey) (objects : HandleMap Object)
  : StatusOr (HandleMap Object) :=
  match keys with
  | [] => Ok objects
  | key :: keys' =>
      objects ← LoadObjects_key key objects;
      LoadObjects_loop keys' objects
  end.

Definition LoadObjects (state : ObjectStoreState) : StatusOr (HandleMap Object) :=
  LoadObjects_loop (asymmetric_keys state) (new_HandleMap CKR_OBJECT_HANDLE_INVALID).

(** class Token: the object registry and the login flag. *)
Record Token : Type := mkToken {
  slot_id_ : CK_ULONG;
  objects_ : HandleMap Object;
  is_logged_in_ : bool
}.

(** Modelled from the spec: the constructor Token::New invokes is declared
    in kmsp11/token.h, which is not among the sources.  "Login State:
    boolean ... Initial state: logged out." *)
Definition Token_ctor (slot_id : CK_ULONG) (objects : HandleMap Object) : Token :=
  mkToken slot_id objects false.

(** Token::New, without the descriptive CK_SLOT_INFO and CK_TOKEN_INFO. *)
Definition Token_New (slot_id : CK_ULONG) (key_ring : string) (kms_client : KmsClient)
  (generate_certs : bool) : M Token :=
  state ← LoadState kms_client key_ring generate_certs;
  objects ← lift (LoadObjects state);
  mret (Token_ctor slot_id objects).

Definition is_logged_in (t : Token) : bool := is_logged_in_ t.

Definition set_logged_in (t : Token) (v : bool) : Token :=
  mkToken (slot_id_ t) (objects_ t) v.

(** The switch on the user type at the head of Token::Login: [OkStatus]
    when it is left by [break], the returned status otherwise. *)
Definition Login_switch (user : CK_USER_TYPE) : Status :=
  if (user =? CKU_USER)%N then OkStatus
  else if (user =? CKU_SO)%N then
    Err (NewError kPermissionDenied "login as CKU_SO is not permitted" CKR_PIN_LOCKED)
  else if (user =? CKU_CONTEXT_SPECIFIC)%N then
    Err (NewError kPermissionDenied
           "CKA_ALWAYS_AUTHENTICATE is not true on this token"
           CKR_OPERATION_NOT_INITIALIZED)
  else
    Err (NewInvalidArgumentError ("unknown user type: " ++ fmt_hex user)%string
           CKR_USER_TYPE_INVALID).

(** Token::Login *)
Definition Login (user : CK_USER_TYPE) (t : Token) : Status * Token :=
  match Login_switch user with
  | Err e => (Err e, t)
  | Ok _ =>
      if is_logged_in_ t then
        (Err (FailedPreconditionError "user is already logged in"
                CKR_USER_ALREADY_LOGGED_IN), t)
      else (OkStatus, set_logged_in t true)
  end.

(** Token::Logout *)
Definition Logout (t : Token) : Status * Token :=
  if negb (is_logged_in_ t) then
    (Err (FailedPreconditionError "user is not logged in" CKR_USER_NOT_LOGGED_IN), t)
  else (OkStatus, set_logged_in t false).

(** The comparator of Token::FindObjects; operator< of std::string is the
    lexicographic order on its characters. *)
Definition FindObjects_compare (o1 o2 : Object) : bool :=
  if String.eqb (kms_key_name o1) (kms_key_name o2) then
    (object_class o1 <? object_class o2)%N
  else String.ltb (kms_key_name o1) (kms_key_name o2).

(** Token::FindObjects *)
Definition FindObjects (predicate : Object → bool) (t : Token) : list CK_OBJECT_HANDLE :=
  Find predicate (Some FindObjects_compare) (objects_ t).

End Loader.
End kmsp11.

(* ===================================================================== *)
Module kmscng.
(* ===================================================================== *)
Import kms_v1.
Local Open Scope Z_scope.

Abbreviation bytes := (list Byte.byte).

(** Windows types: DWORD is 32 bits wide, the handles are ULONG_PTR. *)
Abbreviation DWORD := Z.
Abbreviation NCRYPT_PROV_HANDLE := Z.
Abbreviation NCRYPT_KEY_HANDLE := Z.
Abbreviation SECURITY_STATUS := N.

Definition MAXDWORD : Z := 0xFFFFFFFF.
Definition to_DWORD (z : Z) : DWORD := z mod 2 ^ 32.
(** ~x on a DWORD *)
Definition DWORD_not (x : DWORD) : DWORD := to_DWORD (Z.lnot x).

(** winerror.h, ncrypt.h and wincrypt.h constants. *)
Definition NTE_BAD_FLAGS : SECURITY_STATUS := 0x80090009.
Definition NTE_BAD_KEYSET : SECURITY_STATUS := 0x80090016.
Definition NTE_INVALID_HANDLE : SECURITY_STATUS := 0x80090026.
Definition NTE_INVALID_PARAMETER : SECURITY_STATUS := 0x80090027.
Definition NTE_BUFFER_TOO_SMALL : SECURITY_STATUS := 0x80090028.
Definition NTE_NOT_SUPPORTED : SECURITY_STATUS := 0x80090029.
Definition NTE_INTERNAL_ERROR : SECURITY_STATUS := 0x8009002D.

Definition NCRYPT_MACHINE_KEY_FLAG : DWORD := 0x20.
Definition NCRYPT_SILENT_FLAG : DWORD := 0x40.
Definition NCRYPT_PERSIST_ONLY_FLAG : DWORD := 0x40000000.
Definition AT_KEYEXCHANGE : DWORD := 1.
Definition AT_SIGNATURE : DWORD := 2.

(** kmscng/util/errors.h: the helpers attach the SECURITY_STATUS they are
    given; NewOutOfRangeError attaches NTE_BUFFER_TOO_SMALL (what
    bridge_test.cc reads back from the too-short calls). *)
Definition NewError (c : StatusCode) (msg : string) (ss : SECURITY_STATUS) : ErrorInfo :=
  mkError c ss msg.
Definition NewInvalidArgumentError (msg : string) (ss : SECURITY_STATUS) : ErrorInfo :=
  NewError kInvalidArgument msg ss.
Definition NewOutOfRangeError (msg : string) : ErrorInfo :=
  NewError kOutOfRange msg NTE_BUFFER_TOO_SMALL.

(** std::string_view::size and std::string_view::copy into a buffer that
    holds [buffer] now. *)
Definition size (v : bytes) : Z := Z.of_nat (length v).
Definition copy (v : bytes) (buffer : bytes) : bytes := v ++ drop (length v) buffer.

(** Provider: its properties, the fixed ones apart from those a caller
    may set. *)
Record Provider : Type := mkProvider {
  fixed_properties : gmap string bytes;
  properties : gmap string bytes
}.

(** Object: the key version it stands for, the provider it was opened
    under, and its properties. *)
Record Object : Type := mkObject {
  provider_handle : NCRYPT_PROV_HANDLE;
  key_version : CryptoKeyVersion;
  key_properties : gmap string bytes
}.

(** The Provider and Object instances that [new] has returned and
    [delete] has not yet taken, by address. *)
Record Heap : Type := mkHeap {
  providers : gmap Z Provider;
  objects : gmap Z Object
}.

(** [new] may return [a]: it is not null and holds no live instance. *)
Definition fresh (st : Heap) (a : Z) : Prop :=
  a ≠ 0 ∧ providers st !! a = None ∧ objects st !! a = None.

(** What bridge.cc reaches outside of the provider and object classes:
    the provider's name and its state when constructed, the key versions
    of the remote service by resource name, the algorithm table with the
    signature length of each supported algorithm, the properties an
    object is given for its key version, and the remote signing call.
    SignDigest takes the object, the digest span and the signature
    span, and writes through the signature span: it returns what that
    span holds when it has succeeded, or its error, the span then taken
    to be as it was. *)
Class Environment : Type := {
  kProviderName : string;
  Provider_ctor : Provider;
  GetCryptoKeyVersion : string → option CryptoKeyVersion;
  GetDetails : CryptoKeyVersionAlgorithm → option Z;
  KeyProperties : CryptoKeyVersion → gmap string bytes;
  SignDigest : Object → bytes → bytes → StatusOr bytes
}.

Section Bridge.
Context `{Environment}.

(** Modelled from the spec: ValidateProviderHandle is declared in
    kmscng/provider.h, which is not among the sources.  4.4 (a), (b): a
    null/zero handle is rejected before any other check; every handle is
    resolved, and fails with the invalid-handle signal when it does not
    resolve.  bridge.cc makes a handle by casting the address of the
    instance and keeps no table of the instances it has handed out, so
    the answer for an address that holds no live instance is the
    spec's alone (the source reads released memory there); what is
    proved about the lifetime of handles uses the answers for the null
    handle and for live instances only. *)
Definition ValidateProviderHandle (st : Heap) (hProvider : NCRYPT_PROV_HANDLE)
  : StatusOr Provider :=
  if hProvider =? 0 then
    Err (NewInvalidArgumentError "The provider handle cannot be null" NTE_INVALID_HANDLE)
  else
    match providers st !! hProvider with
    | Some prov => Ok prov
    | None =>
        Err (NewInvalidArgumentError "The provider handle is not valid" NTE_INVALID_HANDLE)
    end.

(** Modelled from the spec: ValidateKeyHandle is declared in
    kmscng/object.h, which is not among the sources.  4.4 (b): a key
    handle issued under a different provider than the one passed in
    fails with the invalid-handle signal, detected by the back-reference
    from the object to its provider.  As for the provider handle, the
    answer for an address that holds no live object is the spec's
    alone. *)
Definition ValidateKeyHandle (st : Heap) (hProvider : NCRYPT_PROV_HANDLE)
  (hKey : NCRYPT_KEY_HANDLE) : StatusOr Object :=
  _ ← ValidateProviderHandle st hProvider;
  if hKey =? 0 then
    Err (NewInvalidArgumentError "The key handle cannot be null" NTE_INVALID_HANDLE)
  else
    match objects st !! hKey with
    | None => Err (NewInvalidArgumentError "The key handle is not valid" NTE_INVALID_HANDLE)
    | Some object =>
        if provider_handle object =? hProvider then Ok object
        else Err (NewInvalidArgumentError
                    "The key handle was not opened under this provider"
                    NTE_INVALID_HANDLE)
    end.

(** Modelled from the spec: Provider::GetProperty and Provider::SetProperty
    are defined in kmscng/provider.cc, which is not among the sources.
    "unknown property name fails not supported; otherwise returns the
    stored value"; "an immutable/fixed-value property name fails invalid
    argument even if the caller supplies its current value; otherwise
    overwrites the stored value". *)
Definition Provider_GetProperty (prov : Provider) (name : string) : StatusOr bytes :=
  match fixed_properties prov !! name with
  | Some v => Ok v
  | None =>
      match properties prov !! name with
      | Some v => Ok v
      | None => Err (NewError kUnimplemented "unsupported property" NTE_NOT_SUPPORTED)
      end
  end.

Definition Provider_SetProperty (prov : Provider) (name : string) (value : bytes)
  : Status * Provider :=
  match fixed_properties prov !! name with
  | Some _ =>
      (Err (NewInvalidArgumentError "the property cannot be modified"
              NTE_INVALID_PARAMETER), prov)
  | None =>
      match properties prov !! name with
      | Some _ =>
          (OkStatus, mkProvider (fixed_properties prov) (<[name := value]> (properties prov)))
      | None => (Err (NewError kUnimplemented "unsupported property" NTE_NOT_SUPPORTED), prov)
      end
  end.

(** Modelled from the spec: Object::GetProperty is defined in
    kmscng/object.cc, which is not among the sources.  "same shape as
    provider property get, scoped to the key object". *)
Definition Object_GetProperty (object : Object) (name : string) : StatusOr bytes :=
  match key_properties object !! name with
  | Some v => Ok v
  | None => Err (NewError kUnimplemented "unsupported property" NTE_NOT_SUPPORTED)
  end.

(** Modelled from the spec: ValidateKeyPreconditions and SignatureLength
    are declared in kmscng/operation/sign_utils.h, which is not among the
    sources.  "validates the key's algorithm/protection level against the
    supported capability set"; "computes expected signature length from
    the key's algorithm". *)
Definition ValidateKeyPreconditions (object : Object) : Status :=
  match GetDetails (ckv_algorithm (key_version object)) with
  | None => Err (NewError kUnimplemented "unsupported algorithm" NTE_NOT_SUPPORTED)
  | Some _ =>
      if bool_decide (ckv_protection_level (key_version object) = HSM) then OkStatus
      else Err (NewError kUnimplemented "unsupported protection level" NTE_NOT_SUPPORTED)
  end.

Definition SignatureLength (object : Object) : StatusOr Z :=
  match GetDetails (ckv_algorithm (key_version object)) with
  | Some len => Ok len
  | None => Err (NewError kInternal "cannot get signature length" NTE_INTERNAL_ERROR)
  end.

(** Modelled from the spec: Object::New is defined in kmscng/object.cc,
    which is not among the sources.  "fails not found / bad keyset if the
    Object Store holds no object under that identity; fails not supported
    if the matched key's algorithm or protection level is outside the
    supported set"; the provider handle is resolved as every handle is,
    and kept as the object's back-reference. *)
Definition Object_New (st : Heap) (hProvider : NCRYPT_PROV_HANDLE) (key_name : string)
  : StatusOr Object :=
  _ ← ValidateProviderHandle st hProvider;
  match GetCryptoKeyVersion key_name with
  | None => Err (NewError kNotFound "the key version was not found" NTE_BAD_KEYSET)
  | Some ckv =>
      let object := mkObject hProvider ckv (KeyProperties ckv) in
      _ ← ValidateKeyPreconditions object;
      Ok object
  end.

(* --------------------------------------------------------------------- *)
(*  kmscng/main/bridge.cc                                                *)
(* --------------------------------------------------------------------- *)
(** Pointers of the caller: [None] is the null pointer, [Some c] a pointer
    to memory that holds [c] now.  Every entry point returns, with its
    status, what the memory behind its out-pointers holds afterwards,
    and the heap when it can change it. *)

(** if (!p) return NewInvalidArgumentError(msg, NTE_INVALID_PARAMETER, ...) *)
Definition not_null {A} (p : option A) (msg : string) : StatusOr A :=
  match p with
  | Some c => Ok c
  | None => Err (NewInvalidArgumentError msg NTE_INVALID_PARAMETER)
  end.

Definition ValidateFlags (flags : DWORD) : Status :=
  if negb (flags =? 0) && negb (flags =? NCRYPT_SILENT_FLAG) then
    Err (NewInvalidArgumentError
           ("unsupported flag specified: " ++ fmt_u (Z.to_N flags))%string NTE_BAD_FLAGS)
  else OkStatus.

(** OpenProvider; [a] is the address [new Provider()] returns. *)
Definition OpenProvider (st : Heap) (a : Z) (phProvider : option NCRYPT_PROV_HANDLE)
  (pszProviderName : option string) (dwFlags : DWORD)
  : Status * Heap * option NCRYPT_PROV_HANDLE :=
  match phProvider with
  | None =>
      (Err (NewInvalidArgumentError "the provider handle cannot be null"
              NTE_INVALID_PARAMETER), st, phProvider)
  | Some _ =>
      if match pszProviderName with
         | None => true
         | Some name => negb (String.eqb name kProviderName)
         end
      then
        (Err (NewInvalidArgumentError "unexpected provider name"
                NTE_INVALID_PARAMETER), st, phProvider)
      else
        match ValidateFlags dwFlags with
        | Err e => (Err e, st, phProvider)
        | Ok _ =>
            (OkStatus,
             mkHeap (<[a := Provider_ctor]> (providers st)) (objects st),
             Some a)
        end
  end.

(** FreeProvider *)
Definition FreeProvider (st : Heap) (hProvider : NCRYPT_PROV_HANDLE) : Status * Heap :=
  match ValidateProviderHandle st hProvider with
  | Err e => (Err e, st)
  | Ok prov => (OkStatus, mkHeap (delete hProvider (providers st)) (objects st))
  end.

(** The part GetProviderProperty and GetKeyProperty share from the
    assignment to *pcbResult on. *)
Definition return_property (property_value : bytes) (pbOutput : option bytes)
  (cbOutput : DWORD) : Status * option bytes * option DWORD :=
  let pcbResult := Some (to_DWORD (size property_value)) in
  match pbOutput with
  | None => (OkStatus, pbOutput, pcbResult)
  | Some buffer =>
      if cbOutput <? size property_value then
        (Err (NewOutOfRangeError
                ("cbOutput size=" ++ fmt_u (Z.to_N cbOutput) ++
                 " not large enough to fit property value of size " ++
                 fmt_u (Z.to_N (size property_value)))%string),
         pbOutput, pcbResult)
      else (OkStatus, Some (copy property_value buffer), pcbResult)
  end.

(** GetProviderProperty *)
Definition GetProviderProperty (st : Heap) (hProvider : NCRYPT_PROV_HANDLE)
  (pszProperty : option string) (pbOutput : option bytes) (cbOutput : DWORD)
  (pcbResult : option DWORD) (dwFlags : DWORD)
  : Status * option bytes * option DWORD :=
  match
    prov ← ValidateProviderHandle st hProvider;
    name ← not_null pszProperty "pszProperty cannot be null";
    _ ← not_null pcbResult "pcbResult cannot be null";
    _ ← ValidateFlags dwFlags;
    Provider_GetProperty prov name
  with
  | Err e => (Err e, pbOutput, pcbResult)
  | Ok property_value => return_property property_value pbOutput cbOutput
  end.

(** SetProviderProperty *)
Definition SetProviderProperty (st : Heap) (hProvider : NCRYPT_PROV_HANDLE)
  (pszProperty : option string) (pbInput : option bytes) (cbInput : DWORD)
  (dwFlags : DWORD) : Status * Heap :=
  match
    prov ← ValidateProviderHandle st hProvider;
    name ← not_null pszProperty "pszProperty cannot be null";
    input ← not_null pbInput "pbInput cannot be null";
    _ ← ValidateFlags dwFlags;
    Ok (prov, name, input)
  with
  | Err e => (Err e, st)
  | Ok (prov, name, input) =>
      match Provider_SetProperty prov name (take (Z.to_nat cbInput) input) with
      | (status, prov') =>
          (status, mkHeap (<[hProvider := prov']> (providers st)) (objects st))
      end
  end.

(** OpenKey; [a] is the address [new Object] returns inside Object::New;
    WideToString is the identity on the characters modelled. *)
Definition OpenKey (st : Heap) (a : Z) (hProvider : NCRYPT_PROV_HANDLE)
  (phKey : option NCRYPT_KEY_HANDLE) (pszKeyName : option string)
  (dwLegacyKeySpec : DWORD) (dwFlags : DWORD)
  : Status * Heap * option NCRYPT_KEY_HANDLE :=
  if hProvider =? 0 then
    (Err (NewInvalidArgumentError "The provider handle cannot be null"
            NTE_INVALID_HANDLE), st, phKey)
  else
  match phKey with
  | None =>
      (Err (NewInvalidArgumentError "the key handle cannot be null"
              NTE_INVALID_PARAMETER), st, phKey)
  | Some _ =>
  match pszKeyName with
  | None =>
      (Err (NewInvalidArgumentError "the key name cannot be null"
              NTE_INVALID_PARAMETER), st, phKey)
  | Some key_name =>
      if negb (dwLegacyKeySpec =? AT_KEYEXCHANGE) &&
         negb (dwLegacyKeySpec =? AT_SIGNATURE) then
        (Err (NewInvalidArgumentError
                ("unsupported legacy key spec specified: " ++
                 fmt_u (Z.to_N dwLegacyKeySpec))%string
                NTE_INVALID_PARAMETER), st, phKey)
      else
        let dwFlags := Z.land dwFlags (DWORD_not NCRYPT_SILENT_FLAG) in
        let dwFlags := Z.land dwFlags (DWORD_not NCRYPT_MACHINE_KEY_FLAG) in
        if negb (dwFlags =? 0) then
          (Err (NewInvalidArgumentError
                  ("unsupported flag specified: " ++ fmt_u (Z.to_N dwFlags))%string
                  NTE_BAD_FLAGS), st, phKey)
        else
          match Object_New st hProvider key_name with
          | Err e => (Err e, st, phKey)
          | Ok object =>
              (OkStatus, mkHeap (providers st) (<[a := object]> (objects st)), Some a)
          end
  end
  end.

(** FreeKey *)
Definition FreeKey (st : Heap) (hProvider : NCRYPT_PROV_HANDLE) (hKey : NCRYPT_KEY_HANDLE)
  : Status * Heap :=
  match ValidateKeyHandle st hProvider hKey with
  | Err e => (Err e, st)
  | Ok obj => (OkStatus, mkHeap (providers st) (delete hKey (objects st)))
  end.

(** GetKeyProperty *)
Definition GetKeyProperty (st : Heap) (hProvider : NCRYPT_PROV_HANDLE)
  (hKey : NCRYPT_KEY_HANDLE) (pszProperty : option string)
  (pbOutput : option bytes) (cbOutput : DWORD) (pcbResult : option DWORD)
  (dwFlags : DWORD) : Status * option bytes * option DWORD :=
  match
    object ← ValidateKeyHandle st hProvider hKey;
    name ← not_null pszProperty "pszProperty cannot be null";
    _ ← not_null pcbResult "pcbResult cannot be null";
    _ ← ValidateFlags dwFlags;
    Object_GetProperty object name
  with
  | Err e => (Err e, pbOutput, pcbResult)
  | Ok property_value => return_property property_value pbOutput cbOutput
  end.

(** SignHash; [pPaddingInfo] is only compared with the null pointer.
    SignDigest is handed the span of the first cbHashValue bytes behind
    pbHashValue and the span of the first cbSignature bytes behind
    pbSignature; SignHash itself writes nothing to the signature buffer,
    which afterwards holds what SignDigest left in its span, followed
    by the bytes behind the span. *)
Definition SignHash (st : Heap) (hProvider : NCRYPT_PROV_HANDLE)
  (hKey : NCRYPT_KEY_HANDLE) (pPaddingInfo : option unit)
  (pbHashValue : option bytes) (cbHashValue : DWORD)
  (pbSignature : option bytes) (cbSignature : DWORD)
  (pcbResult : option DWORD) (dwFlags : DWORD)
  : Status * option bytes * option DWORD :=
  match
    object ← ValidateKeyHandle st hProvider hKey;
    _ ← match pPaddingInfo with
        | Some _ =>
            Err (NewInvalidArgumentError "unsupported pPaddingInfo" NTE_INVALID_PARAMETER)
        | None => OkStatus
        end;
    hash ← not_null pbHashValue "pbHashValue cannot be null";
    _ ← not_null pcbResult "pcbResult cannot be null";
    _ ← ValidateFlags dwFlags;
    _ ← ValidateKeyPreconditions object;
    signature_length ← SignatureLength object;
    Ok (object, hash, signature_length)
  with
  | Err e => (Err e, pbSignature, pcbResult)
  | Ok (object, hash, signature_length) =>
      let result := to_DWORD signature_length in
      let pcbResult := Some result in
      match pbSignature with
      | None => (OkStatus, pbSignature, pcbResult)
      | Some buffer =>
          if cbSignature <? result then
            (Err (NewOutOfRangeError
                    ("cbSignature size=" ++ fmt_u (Z.to_N cbSignature) ++
                     " not large enough to fit property value of size " ++
                     fmt_u (Z.to_N result))%string),
             pbSignature, pcbResult)
          else
            match SignDigest object (take (Z.to_nat cbHashValue) hash)
                    (take (Z.to_nat cbSignature) buffer) with
            | Err e => (Err e, pbSignature, pcbResult)
            | Ok span =>
                (OkStatus, Some (span ++ drop (Z.to_nat cbSignature) buffer), pcbResult)
            end
      end
  end.

End Bridge.
End kmscng.

(* ===================================================================== *)
(*  The handle registry                                                  *)
(* ===================================================================== *)
Module HandleMapFacts.
Import kmsp11.

Section Registry.
Context {T : Type}.
Implicit Types (m : HandleMap T) (item : T) (handle h : CK_ULONG).

(** The calls that change a registry. *)
Inductive op : Type :=
| OpAdd (item : T) (draws : list CK_ULONG)
| OpAddDirect (handle : CK_ULONG) (item : T)
| OpRemove (handle : CK_ULONG).

(** The issue log is kept beside the registry and does not read it: an
    entry enters when Add returns its handle or AddDirect accepts it, and
    leaves when Remove of that handle succeeds.  Its entries are the live
    handles with the items they were issued for. *)
Abbreviation issue_log := (list (CK_ULONG * T)).

Definition log_remove (handle : CK_ULONG) (live : issue_log) : issue_log :=
  filter (λ e : CK_ULONG * T, e.1 ≠ handle) live.

Definition step (o : op) (s : HandleMap T * issue_log) : option (HandleMap T * issue_log) :=
  match o with
  | OpAdd item draws =>
      match Add item draws s.1 with
      | Some (handle, m', _) => Some (m', (handle, item) :: s.2)
      | None => None
      end
  | OpAddDirect handle item =>
      match AddDirect handle item s.1 with
      | (Ok _, m') => Some (m', (handle, item) :: s.2)
      | (Err _, m') => Some (m', s.2)
      end
  | OpRemove handle =>
      match Remove handle s.1 with
      | (Ok _, m') => Some (m', log_remove handle s.2)
      | (Err _, m') => Some (m', s.2)
      end
  end.

(** The states a registry goes through from its constructor. *)
Inductive reachable : HandleMap T * issue_log → Prop :=
| reachable_new rv : reachable (new_HandleMap rv, [])
| reachable_step o s s' : reachable s → step o s = Some s' → reachable s'.

(** The registry and the issue log agree, and no handle is live twice. *)
Definition registry_inv (s : HandleMap T * issue_log) : Prop :=
  NoDup (s.2).*1 ∧ ∀ h item, items_ s.1 !! h = Some item ↔ (h, item) ∈ s.2.

Lemma Add_loop_fresh (items : gmap CK_ULONG T) draws h rest :
  Add_loop items draws = Some (h, rest) → items !! h = None.
Proof.
  induction draws as [|d draws IH]; simpl; [done|].
  unfold contains. destruct (items !! d) eqn:Hd; [exact IH|].
  intros [= <- <-]. exact Hd.
Qed.

Lemma Add_loop_suffix (items : gmap CK_ULONG T) draws h rest :
  Add_loop items draws = Some (h, rest) →
  ∃ used, draws = used ++ h :: rest ∧ Forall (λ d, is_Some (items !! d)) used.
Proof.
  revert h rest. induction draws as [|d draws IH]; simpl; intros h rest; [done|].
  unfold contains. destruct (items !! d) eqn:Hd.
  - intros (used & -> & Hused)%IH. exists (d :: used). split; [done|].
    constructor; [by rewrite Hd|done].
  - intros [= <- <-]. by exists [].
Qed.

Lemma Add_loop_total (items : gmap CK_ULONG T) draws h :
  h ∈ draws → items !! h = None → is_Some (Add_loop items draws).
Proof.
  induction draws as [|d draws IH]; simpl; [by intros ?%elem_of_nil|].
  intros Hin Hh. unfold contains. destruct (items !! d) eqn:Hd; [|by eexists].
  apply IH; [|done]. apply elem_of_cons in Hin as [->|]; [congruence|done].
Qed.

Lemma Add_spec item draws m h m' rest :
  Add item draws m = Some (h, m', rest) →
  items_ m !! h = None ∧ items_ m' = <[h := item]> (items_ m) ∧
  not_found_rv_ m' = not_found_rv_ m.
Proof.
  unfold Add. destruct (Add_loop (items_ m) draws) as [[h0 rest0]|] eqn:Hloop; [|done].
  intros [= <- <- <-]. apply Add_loop_fresh in Hloop.
  unfold try_emplace. simpl. by rewrite Hloop.
Qed.

Lemma AddDirect_occupied handle item m :
  is_Some (items_ m !! handle) →
  AddDirect handle item m =
    (Err (NewInternalError ("handle " ++ fmt_hex handle ++ " is already in use")%string), m).
Proof. intros [x Hx]. unfold AddDirect. by rewrite Hx. Qed.

Lemma AddDirect_accepted handle item m m' :
  AddDirect handle item m = (OkStatus, m') →
  items_ m !! handle = None ∧ items_ m' = <[handle := item]> (items_ m).
Proof.
  unfold AddDirect. destruct (items_ m !! handle) eqn:Hh; [done|].
  by intros [= <-].
Qed.

Lemma AddDirect_free handle item m :
  items_ m !! handle = None →
  AddDirect handle item m =
    (OkStatus, mkHandleMap (not_found_rv_ m) (<[handle := item]> (items_ m))).
Proof. intros Hh. unfold AddDirect. by rewrite Hh. Qed.

Lemma Remove_spec handle m st m' :
  Remove handle m = (st, m') →
  (st = OkStatus ∧ is_Some (items_ m !! handle) ∧ items_ m' = delete handle (items_ m)) ∨
  (st = Err (HandleNotFoundError handle (not_found_rv_ m)) ∧
   items_ m !! handle = None ∧ m' = m).
Proof.
  unfold Remove. destruct (items_ m !! handle) eqn:Hh; intros [= <- <-]; eauto.
Qed.

Lemma log_remove_elem handle (live : issue_log) h item :
  (h, item) ∈ log_remove handle live ↔ h ≠ handle ∧ (h, item) ∈ live.
Proof. unfold log_remove. rewrite list_elem_of_filter. simpl. tauto. Qed.

Lemma log_remove_NoDup handle (live : issue_log) :
  NoDup live.*1 → NoDup (log_remove handle live).*1.
Proof.
  unfold log_remove. induction live as [|[h x] live IH]; [done|].
  rewrite fmap_cons, NoDup_cons. intros [Hh Hnd]. rewrite filter_cons. simpl.
  destruct (decide (h ≠ handle)); [|by apply IH].
  rewrite fmap_cons. apply NoDup_cons. split; [|by apply IH].
  intros ([h' x'] & Heq & [_ Hin]%list_elem_of_filter)%list_elem_of_fmap.
  simpl in Heq. subst h'. apply Hh, list_elem_of_fmap. by exists (h, x').
Qed.

Lemma registry_inv_issue m m' (live : issue_log) h item :
  registry_inv (m, live) → items_ m !! h = None →
  items_ m' = <[h := item]> (items_ m) →
  registry_inv (m', (h, item) :: live).
Proof.
  intros [Hnd Hagree] Hfresh Hm'. split; simpl in *.
  - apply NoDup_cons. split; [|done].
    intros ([h' x] & Heq & Hin)%list_elem_of_fmap. simpl in Heq. subst h'.
    apply Hagree in Hin. congruence.
  - intros h' x. rewrite Hm', elem_of_cons. destruct (decide (h = h')) as [<-|Hne].
    + rewrite lookup_insert_eq. split.
      * intros [= ->]. by left.
      * intros [[= ->]|Hin%Hagree]; [done|congruence].
    + rewrite lookup_insert_ne by done. rewrite Hagree. split; [by right|].
      intros [[= ? ?]|?]; [congruence|done].
Qed.

Lemma registry_inv_step o s s' :
  registry_inv s → step o s = Some s' → registry_inv s'.
Proof.
  destruct s as [m live]. intros Hinv. destruct o as [item draws|handle item|handle]; simpl.
  - destruct (Add item draws m) as [[[h m1] rest]|] eqn:HAdd; [|done].
    intros [= <-]. apply Add_spec in HAdd as (Hfresh & Hm1 & _).
    by eapply registry_inv_issue.
  - destruct (AddDirect handle item m) as [[[]|e] m1] eqn:HAdd; intros [= <-].
    + apply AddDirect_accepted in HAdd as [Hfresh Hm1]. by eapply registry_inv_issue.
    + unfold AddDirect in HAdd. destruct (items_ m !! handle); by simplify_eq.
  - destruct (Remove handle m) as [st m1] eqn:HRem.
    apply Remove_spec in HRem as [(-> & _ & Hm1)|(-> & _ & ->)]; intros [= <-]; [|done].
    destruct Hinv as [Hnd Hagree]. split; simpl in *.
    + by apply log_remove_NoDup.
    + intros h x. rewrite Hm1, log_remove_elem, <- Hagree.
      destruct (decide (h = handle)) as [->|Hne].
      * rewrite lookup_delete_eq. split; [done|by intros [? _]].
      * rewrite lookup_delete_ne by done. tauto.
Qed.

Lemma reachable_inv s : reachable s → registry_inv s.
Proof.
  induction 1 as [rv|o s s' _ IH Hstep].
  - split; simpl; [constructor|]. intros h x. rewrite lookup_empty.
    split; [done|by intros ?%elem_of_nil].
  - by eapply registry_inv_step.
Qed.

(** Running a sequence of calls. *)
Fixpoint run (ops : list op) (s : HandleMap T * issue_log)
  : option (HandleMap T * issue_log) :=
  match ops with
  | [] => Some s
  | o :: ops' => match step o s with Some s' => run ops' s' | None => None end
  end.

Lemma run_reachable ops s s' : reachable s → run ops s = Some s' → reachable s'.
Proof.
  revert s. induction ops as [|o ops IH]; simpl; intros s Hs.
  - by intros [= <-].
  - destruct (step o s) as [s1|] eqn:Hstep; [|done].
    apply IH. by eapply reachable_step.
Qed.

Lemma size_agrees (s : HandleMap T * issue_log) :
  registry_inv s → size (items_ s.1) = length s.2.
Proof.
  intros [Hnd Hagree].
  rewrite <- (length_fmap fst s.2), <- (size_dom (D := gset CK_ULONG)).
  rewrite <- (size_list_to_set (C := gset CK_ULONG) (s.2).*1) by done.
  f_equal. apply set_eq. intros h.
  rewrite elem_of_dom, elem_of_list_to_set, list_elem_of_fmap. split.
  - intros [x Hx%Hagree]. by exists (h, x).
  - intros ([h' x] & -> & Hin). apply Hagree in Hin. by eexists.
Qed.

(** C1.  In every state a registry reaches from its constructor by Add,
    AddDirect and Remove: the live handles are pairwise distinct and the
    map holds exactly one item per live handle, the one it was issued for
    (so the map has as many entries as there are live handles); a handle
    Add returns was not live and leaves every other binding as it was,
    and Add returns as soon as the draws hold a handle that is not live;
    a handle AddDirect accepts was not live; and AddDirect on a live
    handle returns the Internal "already in use" error and the map it
    was given. *)
Theorem handle_registry_unique (s : HandleMap T * issue_log) (Hs : reachable s) :
  NoDup (s.2).*1 ∧
  (∀ h item, Get h s.1 = Ok item ↔ (h, item) ∈ s.2) ∧
  (∀ h item1 item2, (h, item1) ∈ s.2 → (h, item2) ∈ s.2 → item1 = item2) ∧
  size (items_ s.1) = length s.2 ∧
  (∀ item draws h m' rest,
     Add item draws s.1 = Some (h, m', rest) →
     (h ∉ (s.2).*1) ∧ Get h m' = Ok item ∧
     ∀ h', h' ≠ h → Get h' m' = Get h' s.1) ∧
  (∀ item draws h, h ∈ draws → h ∉ (s.2).*1 → is_Some (Add item draws s.1)) ∧
  (∀ h item m',
     AddDirect h item s.1 = (OkStatus, m') →
     (h ∉ (s.2).*1) ∧ Get h m' = Ok item ∧
     ∀ h', h' ≠ h → Get h' m' = Get h' s.1) ∧
  (∀ h item,
     h ∈ (s.2).*1 →
     AddDirect h item s.1 =
       (Err (mkError kInternal CKR_GENERAL_ERROR
               ("handle " ++ fmt_hex h ++ " is already in use")%string), s.1)).
Proof.
  pose proof (reachable_inv s Hs) as Hinv.
  pose proof (size_agrees s Hinv) as Hsize.
  destruct Hinv as [Hnd Hagree].
  assert (Hlive : ∀ h, h ∈ (s.2).*1 ↔ is_Some (items_ s.1 !! h)).
  { intros h. rewrite list_elem_of_fmap. split.
    - intros ([h' x] & -> & Hin). apply Hagree in Hin. by eexists.
    - intros [x Hx%Hagree]. by exists (h, x). }
  assert (HGet : ∀ h item, Get h s.1 = Ok item ↔ (h, item) ∈ s.2).
  { intros h item. rewrite <- Hagree. unfold Get.
    destruct (items_ s.1 !! h); split; intros; by simplify_eq. }
  split_and!; try done.
  - intros h x1 x2 H1%Hagree H2%Hagree. congruence.
  - intros item draws h m' rest (Hfresh & Hm' & Hrv)%Add_spec. split_and!.
    + rewrite Hlive, Hfresh. by intros [? ?].
    + unfold Get. by rewrite Hm', lookup_insert_eq.
    + intros h' Hne. unfold Get. by rewrite Hm', Hrv, lookup_insert_ne.
  - intros item draws h Hin Hfresh. unfold Add.
    destruct (Add_loop_total (items_ s.1) draws h Hin) as [[h0 rest] ->]; [|by eexists].
    rewrite Hlive in Hfresh. by apply eq_None_not_Some.
  - intros h item m' HAdd. pose proof HAdd as (Hfresh & Hm')%AddDirect_accepted.
    rewrite AddDirect_free in HAdd by done. injection HAdd as <-. split_and!.
    + rewrite Hlive, Hfresh. by intros [? ?].
    + unfold Get. simpl. by rewrite lookup_insert_eq.
    + intros h' Hne. unfold Get. simpl. by rewrite lookup_insert_ne.
  - intros h item Hin%Hlive. by apply AddDirect_occupied.
Qed.

End Registry.

(** A registry of numbers after Add (the draw 5 is free), AddDirect at 9,
    Add (the draws 5 and 9 are taken, 11 is free) and Remove of 9. *)
Definition example_ops : list (@op nat) :=
  [OpAdd 7 [5%N]; OpAddDirect 9%N 8; OpAdd 6 [5%N; 9%N; 11%N]; OpRemove 9%N].

Definition example_registry : HandleMap nat * list (CK_ULONG * nat) :=
  (mkHandleMap CKR_OBJECT_HANDLE_INVALID
     (delete 9%N (<[11%N := 6]> (<[9%N := 8]> (<[5%N := 7]> ∅)))),
   [(11%N, 6); (5%N, 7)]).

Lemma example_registry_run :
  run example_ops (new_HandleMap CKR_OBJECT_HANDLE_INVALID, []) = Some example_registry.
Proof. vm_compute. reflexivity. Qed.

Lemma handle_registry_unique_witness :
  reachable example_registry ∧
  NoDup (example_registry.2).*1 ∧
  Get 5%N example_registry.1 = Ok 7 ∧
  size (items_ example_registry.1) = 2 ∧
  AddDirect 11%N 0 example_registry.1 =
    (Err (mkError kInternal CKR_GENERAL_ERROR "handle 0xb is already in use"),
     example_registry.1).
Proof.
  assert (Hr : reachable example_registry).
  { eapply run_reachable; [apply (reachable_new CKR_OBJECT_HANDLE_INVALID)|].
    apply example_registry_run. }
  destruct (handle_registry_unique example_registry Hr)
    as (Hnd & HGet & _ & Hsize & _ & _ & _ & Hocc).
  split_and!; [exact Hr|exact Hnd| |exact Hsize|].
  - apply HGet. simpl. apply list_elem_of_further, list_elem_of_here.
  - apply (Hocc 11%N 0). simpl. apply list_elem_of_here.
Defined.

End HandleMapFacts.

(* ===================================================================== *)
(*  The token: login state                                               *)
(* ===================================================================== *)
Module TokenFacts.
Import kms_v1 kmsp11.

(** A small instance of the collaborators, for running the model: keys
    and certificates are strings, an empty PEM does not parse, and the
    two elliptic-curve signing algorithms have details. *)
Definition toy_error (msg : string) : ErrorInfo := NewInternalError msg.

#[local] Instance toy : Collaborators := {|
  EVP_PKEY := string;
  X509 := string;
  CertAuthority := unit;
  AlgorithmDetails := unit;
  Object := string * CK_OBJECT_CLASS;
  kms_key_name := fst;
  object_class := snd;
  GetDetails alg :=
    if bool_decide (alg = EC_SIGN_P256_SHA256 ∨ alg = EC_SIGN_P384_SHA384)
    then Ok tt else Err (toy_error "algorithm not found");
  ParseX509PublicKeyPem s :=
    if String.eqb s "" then Err (toy_error "no PEM data") else Ok s;
  MarshalX509PublicKeyDer k := Ok (list_byte_of_string k);
  ParseX509PublicKeyDer der :=
    match der with [] => Err (toy_error "no DER data") | _ => Ok (string_of_list_byte der) end;
  CertAuthority_New := Ok tt;
  GenerateCert _ ckv k := Ok ("cert of " ++ ckv_name ckv)%string;
  MarshalX509CertificateDer x := Ok (list_byte_of_string x);
  ParseX509CertificateDer der :=
    match der with [] => Err (toy_error "no DER data") | _ => Ok (string_of_list_byte der) end;
  NewKeyPair ckv k := Ok ((ckv_name ckv, CKO_PUBLIC_KEY), (ckv_name ckv, CKO_PRIVATE_KEY));
  NewCertificate ckv x := Ok (ckv_name ckv, CKO_CERTIFICATE)
|}.

Section Login.
Context `{Collaborators}.
Implicit Types (t : Token) (user : CK_USER_TYPE).

(** The calls that act on the login flag. *)
Inductive login_op : Type :=
| OpLogin (user : CK_USER_TYPE)
| OpLogout.

Definition login_step (o : login_op) (t : Token) : Status * Token :=
  match o with
  | OpLogin user => Login user t
  | OpLogout => Logout t
  end.

Lemma Login_switch_ok user : ok (Login_switch user) = true ↔ user = CKU_USER.
Proof.
  unfold Login_switch. destruct (N.eqb_spec user CKU_USER) as [->|Hne]; [done|].
  split; [|done]. by repeat case_match.
Qed.

Lemma Login_error_keeps user t e t' : Login user t = (Err e, t') → t' = t.
Proof. unfold Login. repeat case_match; by intros [= <- <-]. Qed.

Lemma Logout_error_keeps t e t' : Logout t = (Err e, t') → t' = t.
Proof. unfold Logout. repeat case_match; by intros [= <- <-]. Qed.

Lemma Login_ok_inv user t t' :
  Login user t = (OkStatus, t') →
  user = CKU_USER ∧ is_logged_in t = false ∧ t' = set_logged_in t true.
Proof.
  unfold Login, is_logged_in. destruct (Login_switch user) as [[]|e] eqn:Hsw; [|done].
  assert (user = CKU_USER) by (apply Login_switch_ok; by rewrite Hsw).
  destruct (is_logged_in_ t); [done|]. by intros [= <-].
Qed.

Lemma Logout_ok_inv t t' :
  Logout t = (OkStatus, t') → is_logged_in t = true ∧ t' = set_logged_in t false.
Proof.
  unfold Logout, is_logged_in. destruct (is_logged_in_ t); simpl; [|done].
  by intros [= <-].
Qed.

(** C4.  The login flag is a two-state machine that starts logged out:
    Login as the user when logged in fails FailedPrecondition
    (CKR_USER_ALREADY_LOGGED_IN) and leaves the token as it was; Logout
    when logged out fails FailedPrecondition (CKR_USER_NOT_LOGGED_IN)
    and leaves the token as it was; Login as the user when logged out
    succeeds and sets the flag; Logout when logged in succeeds and
    clears it; and a call changes the flag only in these two successful
    ways. *)
Theorem login_state_machine :
  (∀ slot_id objects, is_logged_in (Token_ctor slot_id objects) = false) ∧
  (∀ t, is_logged_in t = true →
     Login CKU_USER t =
       (Err (mkError kFailedPrecondition CKR_USER_ALREADY_LOGGED_IN
               "user is already logged in"), t)) ∧
  (∀ t, is_logged_in t = false →
     Logout t =
       (Err (mkError kFailedPrecondition CKR_USER_NOT_LOGGED_IN
               "user is not logged in"), t)) ∧
  (∀ t, is_logged_in t = false →
     ∃ t', Login CKU_USER t = (OkStatus, t') ∧ is_logged_in t' = true ∧
           objects_ t' = objects_ t) ∧
  (∀ t, is_logged_in t = true →
     ∃ t', Logout t = (OkStatus, t') ∧ is_logged_in t' = false ∧
           objects_ t' = objects_ t) ∧
  (∀ o t st t', login_step o t = (st, t') →
     is_logged_in t' ≠ is_logged_in t →
     st = OkStatus ∧
     ((o = OpLogin CKU_USER ∧ is_logged_in t = false ∧ is_logged_in t' = true) ∨
      (o = OpLogout ∧ is_logged_in t = true ∧ is_logged_in t' = false))).
Proof.
  split_and!.
  - done.
  - intros t Ht. unfold Login, is_logged_in in *. simpl. by rewrite Ht.
  - intros t Ht. unfold Logout, is_logged_in in *. by rewrite Ht.
  - intros t Ht. exists (set_logged_in t true).
    unfold Login, is_logged_in in *. simpl. by rewrite Ht.
  - intros t Ht. exists (set_logged_in t false).
    unfold Logout, is_logged_in in *. by rewrite Ht.
  - intros o t st t' Hstep Hflag. destruct st as [[]|e].
    + split; [done|]. destruct o as [user|]; simpl in Hstep.
      * apply Login_ok_inv in Hstep as (-> & Ht & ->). by left.
      * apply Logout_ok_inv in Hstep as (Ht & ->). by right.
    + destruct o as [user|]; simpl in Hstep.
      * apply Login_error_keeps in Hstep as ->. done.
      * apply Logout_error_keeps in Hstep as ->. done.
Qed.

(** The kinds the spec calls permission-denied and not-supported. *)
Definition permission_or_not_supported (e : ErrorInfo) : Prop :=
  code e = kPermissionDenied ∨ code e = kUnimplemented.

(** C5, as amended.  Login accepts exactly one user type, CKU_USER.  Any
    other value is rejected and leaves the token, and so the login flag,
    as it was: CKU_SO with PermissionDenied and CKR_PIN_LOCKED,
    CKU_CONTEXT_SPECIFIC with PermissionDenied and
    CKR_OPERATION_NOT_INITIALIZED, and every remaining value with
    InvalidArgument and CKR_USER_TYPE_INVALID. *)
Theorem login_rejects_other_roles user t (Huser : user ≠ CKU_USER) :
  ∃ e, Login user t = (Err e, t) ∧
       (user = CKU_SO →
          code e = kPermissionDenied ∧ rv e = CKR_PIN_LOCKED) ∧
       (user = CKU_CONTEXT_SPECIFIC →
          code e = kPermissionDenied ∧ rv e = CKR_OPERATION_NOT_INITIALIZED) ∧
       (user ≠ CKU_SO → user ≠ CKU_CONTEXT_SPECIFIC →
          code e = kInvalidArgument ∧ rv e = CKR_USER_TYPE_INVALID) ∧
       (permission_or_not_supported e ↔ user = CKU_SO ∨ user = CKU_CONTEXT_SPECIFIC) ∧
       (∀ user' t', Login user' t = (OkStatus, t') → user' = CKU_USER).
Proof.
  unfold Login, Login_switch, permission_or_not_supported.
  destruct (N.eqb_spec user CKU_USER) as [?|_]; [done|].
  destruct (N.eqb_spec user CKU_SO) as [->|Hso].
  { eexists. split; [done|]. simpl. split_and!; try done; [split; intros _; by left|].
    intros user' t' Hok. by apply Login_ok_inv in Hok as (-> & _). }
  destruct (N.eqb_spec user CKU_CONTEXT_SPECIFIC) as [->|Hctx].
  { eexists. split; [done|]. simpl.
    split_and!; try done; [split; intros _; [by right|by left]|].
    intros user' t' Hok. by apply Login_ok_inv in Hok as (-> & _). }
  eexists. split; [done|]. simpl. split_and!; try done.
  - split; [by intros [?|?]|by intros [?|?]].
  - intros user' t' Hok. by apply Login_ok_inv in Hok as (-> & _).
Qed.

End Login.

Definition toy_token : Token := Token_ctor 0 (new_HandleMap CKR_OBJECT_HANDLE_INVALID).

Lemma login_rejects_other_roles_witness :
  CKU_SO ≠ CKU_USER ∧
  ∃ e, Login CKU_SO toy_token = (Err e, toy_token) ∧
       code e = kPermissionDenied ∧ rv e = CKR_PIN_LOCKED.
Proof.
  assert (Hne : CKU_SO ≠ CKU_USER) by (by vm_compute).
  split; [exact Hne|].
  destruct (login_rejects_other_roles CKU_SO toy_token Hne) as (e & HL & Hso & _).
  exists e. split; [exact HL|]. by apply Hso.
Defined.

(** C5 as stated fails on a user type that is none of the three: the
    rejection is InvalidArgument, which is neither permission-denied nor
    not-supported. *)
Lemma login_unknown_role_invalid_argument :
  Login 3 toy_token =
    (Err (mkError kInvalidArgument CKR_USER_TYPE_INVALID "unknown user type: 0x3"),
     toy_token) ∧
  ¬ permission_or_not_supported
      (mkError kInvalidArgument CKR_USER_TYPE_INVALID "unknown user type: 0x3").
Proof.
  split; [by vm_compute|].
  unfold permission_or_not_supported. simpl. by intros [?|?].
Qed.

End TokenFacts.

(* ===================================================================== *)
(*  The object store loader                                              *)
(* ===================================================================== *)
Module LoaderFacts.
Import kms_v1 kmsp11.

Section Monad.

Lemma bind_ok {A B} (c : M A) (k : A → M B) w b w' :
  (c ≫= k) w = Some (Ok b, w') ↔
  ∃ a w1, c w = Some (Ok a, w1) ∧ k a w1 = Some (Ok b, w').
Proof.
  unfold mbind, M_bind, bind. destruct (c w) as [[[a|e] w1]|]; split.
  - eauto.
  - intros (? & ? & ? & ?). by simplify_eq.
  - done.
  - by intros (? & ? & ? & ?).
  - done.
  - by intros (? & ? & ? & ?).
Qed.

Lemma bind_err {A B} (c : M A) (k : A → M B) w e w' :
  (c ≫= k) w = Some (Err e, w') ↔
  c w = Some (Err e, w') ∨
  ∃ a w1, c w = Some (Ok a, w1) ∧ k a w1 = Some (Err e, w').
Proof.
  unfold mbind, M_bind, bind. destruct (c w) as [[[a|e0] w1]|]; split.
  - eauto.
  - intros [?|(? & ? & ? & ?)]; by simplify_eq.
  - intros [= -> ->]. by left.
  - intros [?|(? & ? & ? & ?)]; by simplify_eq.
  - done.
  - intros [?|(? & ? & ? & ?)]; by simplify_eq.
Qed.

Lemma bind_some {A B} (c : M A) (k : A → M B) w :
  is_Some ((c ≫= k) w) ↔
  (∃ e w1, c w = Some (Err e, w1)) ∨
  ∃ a w1, c w = Some (Ok a, w1) ∧ is_Some (k a w1).
Proof.
  unfold mbind, M_bind, bind. destruct (c w) as [[[a|e0] w1]|]; split.
  - eauto.
  - intros [(? & ? & ?)|(? & ? & ? & ?)]; by simplify_eq.
  - eauto.
  - by eexists.
  - by intros [? ?].
  - by intros [(? & ? & ?)|(? & ? & ? & ?)].
Qed.

Lemma lift_run {A} (s : StatusOr A) w r w' :
  lift s w = Some (r, w') ↔ r = s ∧ w' = w.
Proof. unfold lift. split; [by intros [= <- <-]|by intros [-> ->]]. Qed.

Lemma mret_run {A} (a : A) w r w' :
  (mret a : M A) w = Some (r, w') ↔ r = Ok a ∧ w' = w.
Proof. unfold mret, M_ret, ret. split; [by intros [= <- <-]|by intros [-> ->]]. Qed.

Lemma LOG_run l w r w' :
  LOG l w = Some (r, w') ↔ r = OkStatus ∧ w' = mkWorld (log_ w ++ [l]) (draws_ w).
Proof. unfold LOG. split; [by intros [= <- <-]|by intros [-> ->]]. Qed.

End Monad.

Section Loader.
Context `{Collaborators}.
Implicit Types (b : ObjectStoreBuilder) (w : World) (client : KmsClient).
Implicit Types (key : AsymmetricKey) (ckv : CryptoKeyVersion).

(** The handles of a snapshot entry and of a snapshot. *)
Definition key_handles key : list CK_OBJECT_HANDLE :=
  public_key_handle key :: private_key_handle key ::
  match certificate key with Some c => [handle c] | None => [] end.

Definition handles_of (st : ObjectStoreState) : list CK_OBJECT_HANDLE :=
  asymmetric_keys st ≫= key_handles.

(** The builder's handles are pairwise distinct and all recorded as
    allocated. *)
Definition builder_wf b : Prop :=
  NoDup (handles_of (state_ b)) ∧
  ∀ h, h ∈ handles_of (state_ b) → h ∈ allocated_handles_ b.

Lemma NewHandle_loop_spec (allocated : gset CK_OBJECT_HANDLE) draws h rest :
  NewHandle_loop allocated draws = Some (h, rest) →
  (h ∉ allocated) ∧ ∃ used, draws = used ++ h :: rest ∧ Forall (.∈ allocated) used.
Proof.
  revert h rest. induction draws as [|d draws IH]; simpl; intros h rest; [done|].
  case_bool_decide as Hd.
  - intros (Hh & used & -> & Hused)%IH. split; [done|].
    exists (d :: used). split; [done|]. by constructor.
  - intros [= <- <-]. split; [done|]. by exists [].
Qed.


Lemma NewHandle_run b w r w' :
  NewHandle b w = Some (r, w') →
  ∃ h, r = Ok (h, mkObjectStoreBuilder (state_ b) (cert_authority_ b)
                    ({[h]} ∪ allocated_handles_ b)) ∧
       (h ∉ allocated_handles_ b) ∧ log_ w' = log_ w ∧
       ∃ used, draws_ w = used ++ h :: draws_ w'.
Proof.
  unfold NewHandle.
  destruct (NewHandle_loop _ _) as [[h rest]|] eqn:Hloop; [|done].
  intros [= <- <-]. apply NewHandle_loop_spec in Hloop as (Hh & used & Hd & _).
  exists h. split_and!; try done. by exists used.
Qed.

(** What AddAsymmetricKey puts into the entry it appends for [ckv], given
    the fetched public key: the version itself, the DER of the parsed
    PEM, and a certificate exactly when the builder has an authority. *)
Definition entry_of (ca : option CertAuthority) ckv (pk : PublicKey) key : Prop :=
  crypto_key_version key = ckv ∧
  ∃ pub, ParseX509PublicKeyPem (pem pk) = Ok pub ∧
         MarshalX509PublicKeyDer pub = Ok (public_key_der key) ∧
         match ca with
         | Some ca => ∃ x c, GenerateCert ca ckv pub = Ok x ∧
                             certificate key = Some c ∧
                             MarshalX509CertificateDer x = Ok (x509_der c)
         | None => certificate key = None
         end.

(** The ways AddAsymmetricKey fails: the PEM does not parse, the key or
    the certificate does not marshal, or no certificate is generated. *)
Definition entry_failure (ca : option CertAuthority) ckv (pk : PublicKey)
  (e : ErrorInfo) : Prop :=
  ParseX509PublicKeyPem (pem pk) = Err e ∨
  ∃ pub, ParseX509PublicKeyPem (pem pk) = Ok pub ∧
         (MarshalX509PublicKeyDer pub = Err e ∨
          match ca with
          | Some ca => GenerateCert ca ckv pub = Err e ∨
                       ∃ x, GenerateCert ca ckv pub = Ok x ∧
                            MarshalX509CertificateDer x = Err e
          | None => False
          end).

Lemma handles_of_snoc (keys : list AsymmetricKey) key :
  handles_of (mkObjectStoreState (keys ++ [key])) =
  handles_of (mkObjectStoreState keys) ++ key_handles key.
Proof. unfold handles_of. simpl. by rewrite bind_app, bind_singleton. Qed.

Lemma builder_wf_add b key (alloc : gset CK_OBJECT_HANDLE) :
  builder_wf b → NoDup (key_handles key) →
  (∀ h, h ∈ key_handles key → (h ∉ allocated_handles_ b) ∧ h ∈ alloc) →
  allocated_handles_ b ⊆ alloc →
  builder_wf (add_asymmetric_keys key
                (mkObjectStoreBuilder (state_ b) (cert_authority_ b) alloc)).
Proof.
  intros [Hnd Hin] Hkey Hnew Hsub. unfold builder_wf, add_asymmetric_keys. simpl.
  destruct (state_ b) as [keys]. simpl in *. rewrite handles_of_snoc. split.
  - apply NoDup_app. split_and!; [done| |done].
    intros h Hold Hh. apply Hnew in Hh as [Hh _]. by apply Hh, Hin.
  - intros h [Hold|Hh]%elem_of_app; [by apply Hsub, Hin|by apply Hnew].
Qed.

Ltac key_handles_NoDup :=
  repeat (apply NoDup_cons; split); [..|apply NoDup_nil_2];
  rewrite ?not_elem_of_cons; repeat split;
  try apply not_elem_of_nil; set_solver.

Lemma AddAsymmetricKey_ok ckv pk b w b' w' :
  AddAsymmetricKey ckv pk b w = Some (Ok b', w') →
  ∃ key, asymmetric_keys (state_ b') = asymmetric_keys (state_ b) ++ [key] ∧
         entry_of (cert_authority_ b) ckv pk key ∧
         cert_authority_ b' = cert_authority_ b ∧
         log_ w' = log_ w ∧
         (builder_wf b → builder_wf b').
Proof.
  unfold AddAsymmetricKey.
  intros (pub & w1 & [Hpub ->]%lift_run & Hrun)%bind_ok.
  apply bind_ok in Hrun as ([h1 b1] & w1 & Hh1 & Hrun).
  apply NewHandle_run in Hh1 as (h1' & [= <- ->] & Hf1 & Hl1 & _).
  apply bind_ok in Hrun as ([h2 b2] & w2 & Hh2 & Hrun).
  apply NewHandle_run in Hh2 as (h2' & [= <- ->] & Hf2 & Hl2 & _). simpl in *.
  apply bind_ok in Hrun as (der & w3 & [Hder ->]%lift_run & Hrun).
  destruct (cert_authority_ b) as [ca|] eqn:Hca.
  - apply bind_ok in Hrun as (x & w3 & [Hx ->]%lift_run & Hrun).
    apply bind_ok in Hrun as (cder & w3 & [Hcder ->]%lift_run & Hrun).
    apply bind_ok in Hrun as ([h3 b3] & w3 & Hh3 & Hrun).
    apply NewHandle_run in Hh3 as (h3' & [= <- ->] & Hf3 & Hl3 & _). simpl in *.
    apply mret_run in Hrun as [[= ->] ->].
    eexists. split_and!; [done| |done|congruence|].
    + split; [done|]. exists pub. split_and!; [done|done|]. by eexists _, _.
    + intros Hwf. rewrite <- Hca. apply builder_wf_add; [exact Hwf| | |set_solver].
      * unfold key_handles. simpl. key_handles_NoDup.
      * unfold key_handles. simpl. set_solver.
  - apply mret_run in Hrun as [[= ->] ->].
    eexists. split_and!; [done| |done|congruence|].
    + split; [done|]. by exists pub.
    + intros Hwf. rewrite <- Hca. apply builder_wf_add; [exact Hwf| | |set_solver].
      * unfold key_handles. simpl. key_handles_NoDup.
      * unfold key_handles. simpl. set_solver.
Qed.

Lemma AddAsymmetricKey_err ckv pk b w e w' :
  AddAsymmetricKey ckv pk b w = Some (Err e, w') →
  entry_failure (cert_authority_ b) ckv pk e ∧ log_ w' = log_ w.
Proof.
  unfold AddAsymmetricKey, entry_failure.
  intros [[Hpub ->]%lift_run|(pub & w1 & [Hpub ->]%lift_run & Hrun)]%bind_err;
    [by eauto|].
  apply bind_err in Hrun as [Hh1|([h1 b1] & w1 & Hh1 & Hrun)];
    [by apply NewHandle_run in Hh1 as (? & ? & _)|].
  apply NewHandle_run in Hh1 as (h1' & [= <- ->] & _ & Hl1 & _).
  apply bind_err in Hrun as [Hh2|([h2 b2] & w2 & Hh2 & Hrun)];
    [by apply NewHandle_run in Hh2 as (? & ? & _)|].
  apply NewHandle_run in Hh2 as (h2' & [= <- ->] & _ & Hl2 & _). simpl in *.
  apply bind_err in Hrun as [[Hder ->]%lift_run|(der & w3 & [Hder ->]%lift_run & Hrun)].
  { split; [|congruence]. right. exists pub. by eauto. }
  destruct (cert_authority_ b) as [ca|] eqn:Hca.
  - apply bind_err in Hrun as [[Hx ->]%lift_run|(x & w3 & [Hx ->]%lift_run & Hrun)].
    { split; [|congruence]. right. exists pub. by eauto. }
    apply bind_err in Hrun as [[Hc ->]%lift_run|(cder & w3 & [Hc ->]%lift_run & Hrun)].
    { split; [|congruence]. right. exists pub. split; [done|]. right. right. by eauto. }
    apply bind_err in Hrun as [Hh3|([h3 b3] & w3 & Hh3 & Hrun)];
      [by apply NewHandle_run in Hh3 as (? & ? & _)|].
    by apply mret_run in Hrun as [? _].
  - by apply mret_run in Hrun as [? _].
Qed.




(** The filter of LoadVersions in the words of the spec: a version is
    retained when it is enabled and its algorithm has details. *)
Definition version_supported ckv : bool :=
  bool_decide (ckv_state ckv = ENABLED) && ok (GetDetails (ckv_algorithm ckv)).

Definition retained (vs : list CryptoKeyVersion) : list CryptoKeyVersion :=
  filter (λ ckv, version_supported ckv = true) vs.

(** The diagnostic of a version: none when it is retained. *)
Definition version_log ckv : list LogLine :=
  if bool_decide (ckv_state ckv = ENABLED) then
    if ok (GetDetails (ckv_algorithm ckv)) then []
    else [SkipVersionAlgorithm (ckv_name ckv) (ckv_algorithm ckv)]
  else [SkipVersionState (ckv_name ckv) (ckv_state ckv)].

(** The entry of a retained version: its public key was fetched and the
    entry built from it. *)
Definition loads (ca : option CertAuthority) client ckv key : Prop :=
  ∃ pk, GetPublicKey client (ckv_name ckv) = Ok pk ∧ entry_of ca ckv pk key.

(** A retained version fails: the fetch of its public key, or the
    building of its entry. *)
Definition version_failure (ca : option CertAuthority) client ckv e : Prop :=
  GetPublicKey client (ckv_name ckv) = Err e ∨
  ∃ pk, GetPublicKey client (ckv_name ckv) = Ok pk ∧ entry_failure ca ckv pk e.

(** The range [v] is cut at its first error: the items before are
    values, [diag] holds their diagnostics, and the item itself is an
    error of the range or a retained version that fails. *)
Definition versions_abort (ca : option CertAuthority) client
  (v : list (StatusOr CryptoKeyVersion)) (e : ErrorInfo) (diag : list LogLine) : Prop :=
  ∃ pre it post,
    v = (Ok <$> pre) ++ it :: post ∧ diag = pre ≫= version_log ∧
    (it = Err e ∨
     ∃ ckv, it = Ok ckv ∧ version_supported ckv = true ∧ version_failure ca client ckv e).

Lemma retained_cons_true ckv vs :
  version_supported ckv = true → retained (ckv :: vs) = ckv :: retained vs.
Proof. intros Hs. unfold retained. by rewrite filter_cons_True. Qed.

Lemma retained_cons_false ckv vs :
  version_supported ckv = false → retained (ckv :: vs) = retained vs.
Proof. intros Hs. unfold retained. rewrite filter_cons_False; [done|congruence]. Qed.

(** The three ways through the body of the loop of LoadVersions. *)
Lemma version_cases ckv :
  (ckv_state ckv ≠ ENABLED ∧ version_supported ckv = false ∧
   version_log ckv = [SkipVersionState (ckv_name ckv) (ckv_state ckv)]) ∨
  (ckv_state ckv = ENABLED ∧ ok (GetDetails (ckv_algorithm ckv)) = false ∧
   version_supported ckv = false ∧
   version_log ckv = [SkipVersionAlgorithm (ckv_name ckv) (ckv_algorithm ckv)]) ∨
  (ckv_state ckv = ENABLED ∧ ok (GetDetails (ckv_algorithm ckv)) = true ∧
   version_supported ckv = true ∧ version_log ckv = []).
Proof.
  unfold version_supported, version_log.
  destruct (decide (ckv_state ckv = ENABLED)) as [He|He].
  - rewrite (bool_decide_eq_true_2 _ He).
    destruct (ok (GetDetails (ckv_algorithm ckv))); [right; right|right; left]; done.
  - rewrite (bool_decide_eq_false_2 _ He). by left.
Qed.

Lemma LoadVersions_loop_step client ckv v b :
  LoadVersions_loop client (Ok ckv :: v) b =
  if version_supported ckv then
    (pub ← lift (GetPublicKey client (ckv_name ckv));
     b ← AddAsymmetricKey ckv pub b;
     LoadVersions_loop client v b)
  else
    (match version_log ckv with
     | l :: _ => LOG l
     | [] => mret tt
     end;; LoadVersions_loop client v b).
Proof.
  change (LoadVersions_loop client (Ok ckv :: v) b) with
    (if bool_decide (ckv_state ckv ≠ ENABLED) then
       LOG (SkipVersionState (ckv_name ckv) (ckv_state ckv));;
       LoadVersions_loop client v b
     else if negb (ok (GetDetails (ckv_algorithm ckv))) then
       LOG (SkipVersionAlgorithm (ckv_name ckv) (ckv_algorithm ckv));;
       LoadVersions_loop client v b
     else
       pub ← lift (GetPublicKey client (ckv_name ckv));
       b ← AddAsymmetricKey ckv pub b;
       LoadVersions_loop client v b).
  destruct (version_cases ckv) as [(He & -> & ->)|[(He & Hok & -> & ->)|(He & Hok & -> & _)]].
  - by rewrite (bool_decide_eq_true_2 _ He).
  - rewrite bool_decide_eq_false_2 by (by intros ?). by rewrite Hok.
  - rewrite bool_decide_eq_false_2 by (by intros ?). by rewrite Hok.
Qed.

Lemma skip_run ckv w r w' :
  version_supported ckv = false →
  (match version_log ckv with l :: _ => LOG l | [] => mret tt end) w = Some (r, w') →
  r = OkStatus ∧ log_ w' = log_ w ++ version_log ckv ∧ draws_ w' = draws_ w.
Proof.
  intros Hs.
  destruct (version_cases ckv) as [(_ & _ & ->)|[(_ & _ & _ & ->)|(_ & _ & ? & _)]];
    [| |congruence]; by intros [-> ->]%LOG_run.
Qed.

Lemma LoadVersions_loop_ok client v b w b' w' :
  LoadVersions_loop client v b w = Some (Ok b', w') →
  v = Ok <$> oks v ∧
  cert_authority_ b' = cert_authority_ b ∧
  log_ w' = log_ w ++ (oks v ≫= version_log) ∧
  (builder_wf b → builder_wf b') ∧
  ∃ new, asymmetric_keys (state_ b') = asymmetric_keys (state_ b) ++ new ∧
         Forall2 (loads (cert_authority_ b) client) (retained (oks v)) new.
Proof.
  revert b w. induction v as [|[ckv|e] v IH]; intros b w.
  - intros [[= ->] ->]%mret_run. split_and!; try done; [by rewrite app_nil_r|].
    exists []. by rewrite app_nil_r.
  - rewrite LoadVersions_loop_step. simpl oks. rewrite bind_cons.
    destruct (version_supported ckv) eqn:Hs.
    + intros (pk & w1 & [Hpk ->]%lift_run & Hrun)%bind_ok.
      apply bind_ok in Hrun as (b1 & w1 & Hadd & Hrun).
      apply AddAsymmetricKey_ok in Hadd as (key & Hkeys & Hentry & Hca & Hlog & Hwf).
      apply IH in Hrun as (Hv & Hca' & Hlog' & Hwf' & new & Hnew & Hloads).
      rewrite retained_cons_true by done.
      destruct (version_cases ckv) as [(_ & ? & _)|[(_ & _ & ? & _)|(_ & _ & _ & ->)]];
        [congruence..|].
      split_and!; [by rewrite fmap_cons, <- Hv|congruence|by rewrite Hlog', Hlog|tauto|].
      exists (key :: new). split; [by rewrite Hnew, Hkeys, <- app_assoc|].
      constructor; [by exists pk|by rewrite <- Hca].
    + intros ([] & w1 & Hskip & Hrun)%bind_ok.
      apply skip_run in Hskip as (_ & Hlog & _); [|done].
      apply IH in Hrun as (Hv & Hca' & Hlog' & Hwf' & new & Hnew & Hloads).
      rewrite retained_cons_false by done.
      split_and!; [by rewrite fmap_cons, <- Hv|done| |done|by exists new].
      by rewrite Hlog', Hlog, <- app_assoc.
  - simpl. by intros (? & ? & [? _]%lift_run & _)%bind_ok.
Qed.

Lemma LoadVersions_loop_err client v b w e w' :
  LoadVersions_loop client v b w = Some (Err e, w') →
  ∃ diag, versions_abort (cert_authority_ b) client v e diag ∧
          log_ w' = log_ w ++ diag.
Proof.
  revert b w. induction v as [|[ckv|e0] v IH]; intros b w.
  - by intros [? _]%mret_run.
  - rewrite LoadVersions_loop_step. destruct (version_supported ckv) eqn:Hs.
    + intros [[Hpk ->]%lift_run|(pk & w1 & [Hpk ->]%lift_run & Hrun)]%bind_err.
      { exists []. split; [|by rewrite app_nil_r].
        exists [], (Ok ckv), v. split_and!; [done..|]. right. exists ckv.
        split_and!; [done..|]. by left. }
      apply bind_err in Hrun as [Hadd|(b1 & w1 & Hadd & Hrun)].
      { apply AddAsymmetricKey_err in Hadd as [Hfail Hlog].
        exists []. split; [|by rewrite app_nil_r].
        exists [], (Ok ckv), v. split_and!; [done..|]. right. exists ckv.
        split_and!; [done..|]. right. by exists pk. }
      apply AddAsymmetricKey_ok in Hadd as (key & _ & _ & Hca & Hlog & _).
      apply IH in Hrun as (diag & (pre & it & post & -> & -> & Hit) & Hlog').
      destruct (version_cases ckv) as [(_ & ? & _)|[(_ & _ & ? & _)|(_ & _ & _ & Hvl)]];
        [congruence..|].
      exists (pre ≫= version_log). split; [|congruence].
      exists (ckv :: pre), it, post. rewrite bind_cons, Hvl.
      split_and!; [done..|]. by rewrite <- Hca.
    + intros [Hskip|([] & w1 & Hskip & Hrun)]%bind_err.
      { by apply skip_run in Hskip as (? & _). }
      apply skip_run in Hskip as (_ & Hlog & _); [|done].
      apply IH in Hrun as (diag & (pre & it & post & -> & -> & Hit) & Hlog').
      exists (version_log ckv ++ (pre ≫= version_log)).
      split; [|by rewrite Hlog', Hlog, <- app_assoc].
      exists (ckv :: pre), it, post. by rewrite bind_cons.
  - simpl. intros [[[= ->] ->]%lift_run|(? & ? & [? _]%lift_run & _)]%bind_err; [|done].
    exists []. split; [|by rewrite app_nil_r].
    exists [], (Err e0), v. split_and!; [done..|]. by left.
Qed.



(** The filter of LoadState in the words of the spec: a key is retained
    when its protection level is HSM and its purpose is asymmetric
    signing or asymmetric decryption. *)
Definition key_supported (k : CryptoKey) : bool :=
  bool_decide (ck_protection_level k = HSM) &&
  bool_decide (ck_purpose k = ASYMMETRIC_SIGN ∨ ck_purpose k = ASYMMETRIC_DECRYPT).

Definition versions_of client (k : CryptoKey) : list (StatusOr CryptoKeyVersion) :=
  ListCryptoKeyVersions client (ck_name k).

(** The versions LoadState retains from the keys [ks], in order. *)
Definition retained_versions client (ks : list CryptoKey) : list CryptoKeyVersion :=
  filter (λ k, key_supported k = true) ks ≫= λ k, retained (oks (versions_of client k)).

(** The diagnostics of a key: its own when it is excluded, those of its
    versions when it is retained. *)
Definition key_log client (k : CryptoKey) : list LogLine :=
  if bool_decide (ck_protection_level k = HSM) then
    if bool_decide (ck_purpose k = ASYMMETRIC_SIGN ∨ ck_purpose k = ASYMMETRIC_DECRYPT)
    then oks (versions_of client k) ≫= version_log
    else [SkipKeyPurpose (ck_name k) (ck_purpose k)]
  else [SkipKeyProtectionLevel (ck_name k) (ck_protection_level k)].

(** The range [keys] is cut at its first error: an error of the range
    itself, or a retained key whose versions abort. *)
Definition keys_abort (ca : option CertAuthority) client
  (keys : list (StatusOr CryptoKey)) (e : ErrorInfo) (diag : list LogLine) : Prop :=
  ∃ pre it post,
    keys = (Ok <$> pre) ++ it :: post ∧
    ((it = Err e ∧ diag = pre ≫= key_log client) ∨
     ∃ k vdiag, it = Ok k ∧ key_supported k = true ∧
                versions_abort ca client (versions_of client k) e vdiag ∧
                diag = (pre ≫= key_log client) ++ vdiag).

Lemma LoadState_loop_step client k keys b :
  LoadState_loop client (Ok k :: keys) b =
  if key_supported k then
    (b ← LoadVersions client k b; LoadState_loop client keys b)
  else
    (match key_log client k with
     | l :: _ => LOG l
     | [] => mret tt
     end;; LoadState_loop client keys b).
Proof.
  change (LoadState_loop client (Ok k :: keys) b) with
    (if bool_decide (ck_protection_level k ≠ HSM) then
       LOG (SkipKeyProtectionLevel (ck_name k) (ck_protection_level k));;
       LoadState_loop client keys b
     else
       match ck_purpose k with
       | ASYMMETRIC_DECRYPT | ASYMMETRIC_SIGN =>
           b ← LoadVersions client k b;
           LoadState_loop client keys b
       | _ =>
           LOG (SkipKeyPurpose (ck_name k) (ck_purpose k));;
           LoadState_loop client keys b
       end).
  unfold key_supported, key_log.
  destruct (decide (ck_protection_level k = HSM)) as [Hp|Hp].
  - rewrite (bool_decide_eq_true_2 _ Hp), bool_decide_eq_false_2 by (by intros ?).
    simpl. destruct (ck_purpose k) eqn:Hpu;
      (rewrite bool_decide_eq_true_2 by (by auto)) ||
      (rewrite bool_decide_eq_false_2 by (by intros [?|?])); done.
  - rewrite (bool_decide_eq_false_2 _ Hp), bool_decide_eq_true_2 by done. done.
Qed.

Lemma key_skip_run client k w r w' :
  key_supported k = false →
  (match key_log client k with l :: _ => LOG l | [] => mret tt end) w = Some (r, w') →
  r = OkStatus ∧ log_ w' = log_ w ++ key_log client k ∧ draws_ w' = draws_ w.
Proof.
  unfold key_supported, key_log. repeat case_bool_decide; simpl; try done;
    by intros _ [-> ->]%LOG_run.
Qed.

Lemma key_log_supported client k :
  key_supported k = true → key_log client k = oks (versions_of client k) ≫= version_log.
Proof. unfold key_supported, key_log. by repeat case_bool_decide. Qed.

Lemma retained_versions_cons client k ks :
  retained_versions client (k :: ks) =
  (if key_supported k then retained (oks (versions_of client k)) else []) ++
  retained_versions client ks.
Proof.
  unfold retained_versions. destruct (key_supported k) eqn:Hk.
  - by rewrite filter_cons_True, bind_cons.
  - rewrite filter_cons_False; [done|congruence].
Qed.

Definition versions_ok client (k : CryptoKey) : Prop :=
  versions_of client k = Ok <$> oks (versions_of client k).

Lemma LoadState_loop_ok client keys b w b' w' :
  LoadState_loop client keys b w = Some (Ok b', w') →
  keys = Ok <$> oks keys ∧
  Forall (versions_ok client) (filter (λ k, key_supported k = true) (oks keys)) ∧
  cert_authority_ b' = cert_authority_ b ∧
  log_ w' = log_ w ++ (oks keys ≫= key_log client) ∧
  (builder_wf b → builder_wf b') ∧
  ∃ new, asymmetric_keys (state_ b') = asymmetric_keys (state_ b) ++ new ∧
         Forall2 (loads (cert_authority_ b) client)
           (retained_versions client (oks keys)) new.
Proof.
  revert b w. induction keys as [|[k|e] keys IH]; intros b w.
  - intros [[= ->] ->]%mret_run. split_and!; try done; [by rewrite app_nil_r|].
    exists []. by rewrite app_nil_r.
  - rewrite LoadState_loop_step. simpl oks.
    rewrite bind_cons, retained_versions_cons.
    destruct (key_supported k) eqn:Hk.
    + intros (b1 & w1 & Hvers & Hrun)%bind_ok.
      apply LoadVersions_loop_ok in Hvers as (Hv & Hca & Hlog & Hwf & new1 & Hnew1 & Hl1).
      apply IH in Hrun as (Hks & Hvs & Hca' & Hlog' & Hwf' & new & Hnew & Hl).
      rewrite filter_cons_True, key_log_supported by done.
      split_and!; [by rewrite fmap_cons, <- Hks|by constructor|congruence| |tauto|].
      * by rewrite Hlog', Hlog, <- app_assoc.
      * exists (new1 ++ new). split; [by rewrite Hnew, Hnew1, <- app_assoc|].
        apply Forall2_app; [done|by rewrite <- Hca].
    + intros ([] & w1 & Hskip & Hrun)%bind_ok.
      apply key_skip_run in Hskip as (_ & Hlog & _); [|done].
      apply IH in Hrun as (Hks & Hvs & Hca' & Hlog' & Hwf' & new & Hnew & Hl).
      rewrite filter_cons_False by congruence.
      split_and!; [by rewrite fmap_cons, <- Hks|done|done| |done|by exists new].
      by rewrite Hlog', Hlog, <- app_assoc.
  - simpl. by intros (? & ? & [? _]%lift_run & _)%bind_ok.
Qed.

Lemma LoadState_loop_err client keys b w e w' :
  LoadState_loop client keys b w = Some (Err e, w') →
  ∃ diag, keys_abort (cert_authority_ b) client keys e diag ∧
          log_ w' = log_ w ++ diag.
Proof.
  revert b w. induction keys as [|[k|e0] keys IH]; intros b w.
  - by intros [? _]%mret_run.
  - rewrite LoadState_loop_step. destruct (key_supported k) eqn:Hk.
    + intros [Hvers|(b1 & w1 & Hvers & Hrun)]%bind_err.
      { apply LoadVersions_loop_err in Hvers as (vdiag & Habort & Hlog).
        exists vdiag. split; [|done]. exists [], (Ok k), keys.
        split; [done|]. right. by exists k, vdiag. }
      apply LoadVersions_loop_ok in Hvers as (_ & Hca & Hlog & _).
      apply IH in Hrun as (diag & (pre & it & post & -> & Hit) & Hlog').
      exists ((oks (versions_of client k) ≫= version_log) ++ diag).
      split; [|by rewrite Hlog', Hlog, <- app_assoc].
      exists (k :: pre), it, post. split; [done|].
      rewrite bind_cons, key_log_supported by done. rewrite Hca in Hit.
      destruct Hit as [[-> ->]|(k' & vdiag & -> & Hk' & Hab & ->)]; [by left|].
      right. exists k', vdiag. by rewrite <- app_assoc.
    + intros [Hskip|([] & w1 & Hskip & Hrun)]%bind_err.
      { by apply key_skip_run in Hskip as (? & _). }
      apply key_skip_run in Hskip as (_ & Hlog & _); [|done].
      apply IH in Hrun as (diag & (pre & it & post & -> & Hit) & Hlog').
      exists (key_log client k ++ diag).
      split; [|by rewrite Hlog', Hlog, <- app_assoc].
      exists (k :: pre), it, post. split; [done|]. rewrite bind_cons.
      destruct Hit as [[-> ->]|(k' & vdiag & -> & Hk' & Hab & ->)]; [by left|].
      right. exists k', vdiag. by rewrite <- app_assoc.
  - simpl. intros [[[= ->] ->]%lift_run|(? & ? & [? _]%lift_run & _)]%bind_err; [|done].
    exists []. split; [|by rewrite app_nil_r].
    exists [], (Err e0), keys. split; [done|]. by left.
Qed.


(** The authority the builder is made with. *)
Definition authority (generate_certs : bool) : StatusOr (option CertAuthority) :=
  if generate_certs then
    match CertAuthority_New with Ok ca => Ok (Some ca) | Err e => Err e end
  else Ok None.

Lemma ObjectStoreBuilder_New_run generate_certs w r w' :
  ObjectStoreBuilder_New generate_certs w = Some (r, w') →
  w' = w ∧
  match authority generate_certs with
  | Ok ca => r = Ok (mkObjectStoreBuilder (mkObjectStoreState []) ca ∅)
  | Err e => r = Err e
  end.
Proof.
  unfold ObjectStoreBuilder_New, authority. destruct generate_certs.
  - unfold mbind, M_bind, bind, lift. destruct CertAuthority_New as [ca|e].
    + by intros [[= <-] <-]%mret_run.
    + by intros [= <- <-].
  - by intros [[= ->] ->]%mret_run.
Qed.


Lemma LoadState_run client key_ring_name generate_certs w r w' :
  LoadState client key_ring_name generate_certs w = Some (r, w') →
  match r with
  | Ok st =>
      ∃ ca, authority generate_certs = Ok ca ∧
        ListCryptoKeys client key_ring_name =
          Ok <$> oks (ListCryptoKeys client key_ring_name) ∧
        Forall (versions_ok client)
          (filter (λ k, key_supported k = true)
             (oks (ListCryptoKeys client key_ring_name))) ∧
        Forall2 (loads ca client)
          (retained_versions client (oks (ListCryptoKeys client key_ring_name)))
          (asymmetric_keys st) ∧
        log_ w' = log_ w ++ (oks (ListCryptoKeys client key_ring_name) ≫= key_log client) ∧
        NoDup (handles_of st)
  | Err e =>
      (authority generate_certs = Err e ∧ log_ w' = log_ w) ∨
      ∃ ca diag, authority generate_certs = Ok ca ∧
        keys_abort ca client (ListCryptoKeys client key_ring_name) e diag ∧
        log_ w' = log_ w ++ diag
  end.
Proof.
  unfold LoadState. destruct r as [st|e].
  - intros (b0 & w0 & [-> Hnew]%ObjectStoreBuilder_New_run & Hrun)%bind_ok.
    destruct (authority generate_certs) as [ca|]; [|done]. injection Hnew as ->.
    apply bind_ok in Hrun as (b1 & w1 & Hloop & [[= ->] ->]%mret_run).
    apply LoadState_loop_ok in Hloop as (Hks & Hvs & _ & Hlog & Hwf & new & Hnew & Hl).
    exists ca. split_and!; try done.
    + by rewrite Hnew.
    + apply Hwf. split; [constructor|]. by intros h ?%elem_of_nil.
  - intros [[-> Hnew]%ObjectStoreBuilder_New_run|
      (b0 & w0 & [-> Hnew]%ObjectStoreBuilder_New_run & Hrun)]%bind_err.
    { destruct (authority generate_certs) as [ca|e0]; [done|]. left. by simplify_eq. }
    destruct (authority generate_certs) as [ca|]; [|done]. injection Hnew as ->.
    apply bind_err in Hrun as [Hloop|(b1 & w1 & _ & [? _]%mret_run)]; [|done].
    apply LoadState_loop_err in Hloop as (diag & Habort & Hlog).
    right. by exists ca, diag.
Qed.












End Loader.


Section Materialize.
Context `{Collaborators}.
Implicit Types (key : AsymmetricKey) (objects : HandleMap Object).

(** The objects of a snapshot entry with the handles the entry stores for
    them, computed from the entry alone. *)
Definition entry_objects key : StatusOr (list (CK_OBJECT_HANDLE * Object)) :=
  pub ← ParseX509PublicKeyDer (public_key_der key);
  key_pair ← NewKeyPair (crypto_key_version key) pub;
  match certificate key with
  | Some c =>
      x509 ← ParseX509CertificateDer (x509_der c);
      cert ← NewCertificate (crypto_key_version key) x509;
      Ok [(public_key_handle key, public_key key_pair);
          (private_key_handle key, private_key key_pair);
          (handle c, cert)]
  | None =>
      Ok [(public_key_handle key, public_key key_pair);
          (private_key_handle key, private_key key_pair)]
  end.

(** The bindings of a snapshot: those of its entries, in order, or the
    error of the first entry that has none. *)
Fixpoint snapshot_objects (keys : list AsymmetricKey)
  : StatusOr (list (CK_OBJECT_HANDLE * Object)) :=
  match keys with
  | [] => Ok []
  | key :: keys' =>
      bs ← entry_objects key;
      rest ← snapshot_objects keys';
      Ok (bs ++ rest)
  end.

(** The registry holds the objects of [key] at the handles [key] stores. *)
Definition materializes key objects : Prop :=
  ∃ pub kp,
    ParseX509PublicKeyDer (public_key_der key) = Ok pub ∧
    NewKeyPair (crypto_key_version key) pub = Ok kp ∧
    Get (public_key_handle key) objects = Ok (public_key kp) ∧
    Get (private_key_handle key) objects = Ok (private_key kp) ∧
    match certificate key with
    | Some c => ∃ x cert,
        ParseX509CertificateDer (x509_der c) = Ok x ∧
        NewCertificate (crypto_key_version key) x = Ok cert ∧
        Get (handle c) objects = Ok cert
    | None => True
    end.

Lemma entry_objects_handles key bs :
  entry_objects key = Ok bs → bs.*1 = key_handles key.
Proof.
  unfold entry_objects, key_handles, mbind, StatusOr_bind.
  destruct (ParseX509PublicKeyDer _); [|done]. destruct (NewKeyPair _ _); [|done].
  destruct (certificate key) as [c|]; [|by intros [= <-]].
  destruct (ParseX509CertificateDer _); [|done]. destruct (NewCertificate _ _); [|done].
  by intros [= <-].
Qed.

Lemma snapshot_objects_handles keys bs :
  snapshot_objects keys = Ok bs → bs.*1 = keys ≫= key_handles.
Proof.
  revert bs. induction keys as [|key keys IH]; intros bs; simpl.
  - by intros [= <-].
  - unfold mbind at 1 2, StatusOr_bind.
    destruct (entry_objects key) as [kbs|] eqn:Hkey; [|done].
    destruct (snapshot_objects keys) as [rest|]; [|done]. intros [= <-].
    by rewrite fmap_app, (entry_objects_handles key kbs), (IH rest).
Qed.

Lemma LoadObjects_key_run key objects :
  NoDup (key_handles key) →
  (∀ h, h ∈ key_handles key → items_ objects !! h = None) →
  LoadObjects_key key objects =
  (bs ← entry_objects key;
   Ok (mkHandleMap (not_found_rv_ objects) (list_to_map bs ∪ items_ objects))).
Proof.
  intros Hnd Hfresh. unfold LoadObjects_key, entry_objects, mbind, StatusOr_bind.
  destruct (ParseX509PublicKeyDer _) as [pub|]; [|done].
  destruct (NewKeyPair _ _) as [kp|]; [|done].
  unfold key_handles in *.
  assert (Hpub : items_ objects !! public_key_handle key = None).
  { apply Hfresh. set_solver. }
  assert (Hpriv : items_ objects !! private_key_handle key = None).
  { apply Hfresh. set_solver. }
  apply NoDup_cons in Hnd as [Hne1 Hnd].
  rewrite HandleMapFacts.AddDirect_free by done. simpl.
  rewrite HandleMapFacts.AddDirect_free.
  2: { simpl. rewrite lookup_insert_ne; [done|]. set_solver. }
  simpl. destruct (certificate key) as [c|].
  - destruct (ParseX509CertificateDer _) as [x|]; [|done].
    destruct (NewCertificate _ _) as [cert|]; [|done].
    apply NoDup_cons in Hnd as [Hne2 _].
    rewrite HandleMapFacts.AddDirect_free.
    2: { simpl. rewrite !lookup_insert_ne; [apply Hfresh| |]; set_solver. }
    simpl. do 2 f_equal. rewrite <- !insert_union_l.
    rewrite (left_id_L ∅ (∪)).
    rewrite (insert_insert_ne _ (handle c) (private_key_handle key)) by set_solver.
    rewrite (insert_insert_ne _ (handle c) (public_key_handle key)) by set_solver.
    rewrite (insert_insert_ne _ (private_key_handle key) (public_key_handle key))
      by set_solver.
    done.
  - simpl. do 2 f_equal. rewrite <- !insert_union_l.
    rewrite (left_id_L ∅ (∪)).
    rewrite (insert_insert_ne _ (private_key_handle key) (public_key_handle key))
      by set_solver.
    done.
Qed.

Lemma LoadObjects_loop_run keys objects :
  NoDup (keys ≫= key_handles) →
  (∀ h, h ∈ keys ≫= key_handles → items_ objects !! h = None) →
  LoadObjects_loop keys objects =
  (bs ← snapshot_objects keys;
   Ok (mkHandleMap (not_found_rv_ objects) (list_to_map bs ∪ items_ objects))).
Proof.
  revert objects. induction keys as [|key keys IH]; intros objects Hnd Hfresh.
  - destruct objects as [rv items]. simpl. by rewrite (left_id_L ∅ (∪)).
  - rewrite bind_cons in Hnd, Hfresh. apply NoDup_app in Hnd as (Hkey & Hdisj & Hrest).
    simpl. rewrite LoadObjects_key_run; [|done|by intros h ?; apply Hfresh, elem_of_app; left].
    unfold mbind at 1 2 3, StatusOr_bind at 1 2 3.
    destruct (entry_objects key) as [kbs|e] eqn:Hkbs; [|done].
    pose proof (entry_objects_handles key kbs Hkbs) as Hkh.
    rewrite IH; [|done|].
    2: { intros h Hh. simpl. apply lookup_union_None. split.
         - apply not_elem_of_list_to_map_1. rewrite Hkh. intros ?. by eapply Hdisj.
         - apply Hfresh, elem_of_app. by right. }
    unfold mbind, StatusOr_bind.
    destruct (snapshot_objects keys) as [rest|e] eqn:Hrest'; [|done].
    simpl. do 2 f_equal. rewrite list_to_map_app, (assoc_L (∪)). f_equal.
    apply map_union_comm, map_disjoint_dom.
    rewrite !dom_list_to_map_L, Hkh, (snapshot_objects_handles keys rest Hrest').
    intros h Hr%elem_of_list_to_set Hk%elem_of_list_to_set. by eapply Hdisj.
Qed.

Lemma snapshot_objects_elem keys bs key :
  snapshot_objects keys = Ok bs → key ∈ keys →
  ∃ kbs, entry_objects key = Ok kbs ∧ kbs ⊆ bs.
Proof.
  revert bs. induction keys as [|key' keys IH]; intros bs; simpl.
  - by intros _ ?%elem_of_nil.
  - unfold mbind at 1 2, StatusOr_bind.
    destruct (entry_objects key') as [kbs|] eqn:Hkbs; [|done].
    destruct (snapshot_objects keys) as [rest|]; [|done].
    intros [= <-] [->|Hin]%elem_of_cons.
    + exists kbs. split; [done|]. intros b ?. apply elem_of_app. by left.
    + destruct (IH rest eq_refl Hin) as (kbs' & ? & Hsub). exists kbs'. split; [done|].
      intros b ?. apply elem_of_app. right. by apply Hsub.
Qed.

Lemma snapshot_objects_err keys e :
  snapshot_objects keys = Err e → ∃ key, key ∈ keys ∧ entry_objects key = Err e.
Proof.
  induction keys as [|key keys IH]; simpl; [done|].
  unfold mbind at 1 2, StatusOr_bind.
  destruct (entry_objects key) as [kbs|e'] eqn:Hkbs.
  - destruct (snapshot_objects keys) as [rest|e']; [done|]. intros [= ->].
    destruct (IH eq_refl) as (key' & ? & ?). exists key'. split; [by right|done].
  - intros [= ->]. exists key. split; [by left|done].
Qed.

Lemma entry_objects_materializes key kbs objects :
  entry_objects key = Ok kbs →
  (∀ h o, (h, o) ∈ kbs → Get h objects = Ok o) →
  materializes key objects.
Proof.
  unfold entry_objects, materializes, mbind, StatusOr_bind.
  destruct (ParseX509PublicKeyDer _) as [pub|] eqn:Hpub; [|done].
  destruct (NewKeyPair _ _) as [kp|] eqn:Hkp; [|done].
  destruct (certificate key) as [c|].
  - destruct (ParseX509CertificateDer _) as [x|] eqn:Hx; [|done].
    destruct (NewCertificate _ _) as [cert|] eqn:Hcert; [|done].
    intros [= <-] Hget. exists pub, kp. split_and!; [done|done| | |].
    + apply Hget. set_solver.
    + apply Hget. set_solver.
    + exists x, cert. split_and!; [done|done|]. apply Hget. set_solver.
  - intros [= <-] Hget. exists pub, kp. split_and!; [done|done| | |done].
    + apply Hget. set_solver.
    + apply Hget. set_solver.
Qed.

Lemma LoadObjects_run (st : ObjectStoreState) :
  NoDup (handles_of st) →
  LoadObjects st =
  (bs ← snapshot_objects (asymmetric_keys st);
   Ok (mkHandleMap CKR_OBJECT_HANDLE_INVALID (list_to_map bs))).
Proof.
  intros Hnd. unfold LoadObjects. rewrite LoadObjects_loop_run; [|done|done].
  unfold mbind, StatusOr_bind. destruct (snapshot_objects _); [|done].
  simpl. by rewrite (right_id_L ∅ (∪)).
Qed.

(** C7.  For a snapshot that LoadState returned: its handles are pairwise
    distinct; LoadObjects, which takes the snapshot alone (no client, no
    random draws) and inserts with AddDirect only, returns the registry
    that maps each stored handle to the object built from its entry, or
    the error of the first entry whose objects cannot be built; so when
    it returns a registry, each entry has its public, private and, when
    present, certificate object at exactly its stored handles, and the
    registry has no other handle; a DER that does not parse, public key
    or certificate, makes LoadObjects return an error; and an error it
    returns is the error of building the objects of some entry. *)
Theorem materialize_at_stored_handles client key_ring_name generate_certs w st w'
  (Hload : LoadState client key_ring_name generate_certs w = Some (Ok st, w')) :
  NoDup (handles_of st) ∧
  LoadObjects st =
    (bs ← snapshot_objects (asymmetric_keys st);
     Ok (mkHandleMap CKR_OBJECT_HANDLE_INVALID (list_to_map bs))) ∧
  (∀ objects, LoadObjects st = Ok objects →
     Forall (λ key, materializes key objects) (asymmetric_keys st) ∧
     dom (items_ objects) = list_to_set (handles_of st)) ∧
  (∀ key e, key ∈ asymmetric_keys st →
     ParseX509PublicKeyDer (public_key_der key) = Err e ∨
     (∃ c, certificate key = Some c ∧ ParseX509CertificateDer (x509_der c) = Err e) →
     ok (LoadObjects st) = false) ∧
  (∀ e, LoadObjects st = Err e →
     ∃ key, key ∈ asymmetric_keys st ∧ entry_objects key = Err e).
Proof.
  apply LoadState_run in Hload as (_ & _ & _ & _ & _ & _ & Hnd).
  pose proof (LoadObjects_run st Hnd) as Hrun.
  split_and!; [done|done| | |].
  - intros objects Hok. rewrite Hok in Hrun.
    destruct (snapshot_objects (asymmetric_keys st)) as [bs|] eqn:Hbs; [|done].
    injection Hrun as ->. simpl.
    pose proof (snapshot_objects_handles _ _ Hbs) as Hh. fold (handles_of st) in Hh.
    split; [|by rewrite dom_list_to_map_L, Hh].
    apply Forall_forall. intros key Hkey.
    destruct (snapshot_objects_elem _ _ _ Hbs Hkey) as (kbs & Hkbs & Hsub).
    apply (entry_objects_materializes key kbs); [done|].
    intros h o Hin%Hsub. unfold Get. simpl.
    by rewrite (elem_of_list_to_map_1 bs h o) by (by rewrite ?Hh).
  - intros key e Hkey Hfail.
    destruct (LoadObjects st) as [objects|] eqn:Hok; [|done]. exfalso.
    destruct (snapshot_objects (asymmetric_keys st)) as [bs|] eqn:Hbs; [|done].
    destruct (snapshot_objects_elem _ _ _ Hbs Hkey) as (kbs & Hkbs & _).
    unfold entry_objects, mbind, StatusOr_bind in Hkbs.
    destruct Hfail as [Hpub|(c & Hc & Hcert)].
    + by rewrite Hpub in Hkbs.
    + rewrite Hc, Hcert in Hkbs.
      destruct (ParseX509PublicKeyDer _); [|done]. by destruct (NewKeyPair _ _).
  - intros e Herr. rewrite Herr in Hrun.
    destruct (snapshot_objects (asymmetric_keys st)) as [bs|e'] eqn:Hbs; [done|].
    injection Hrun as ->. by apply snapshot_objects_err.
Qed.

End Materialize.
(** A key ring with four keys: a signing key with an enabled P-256
    version, a disabled version and an enabled version of an algorithm
    without details; a software key; an encryption key; and a decryption
    key with one enabled P-384 version. *)
Definition toy_versions (parent : string) : list (StatusOr CryptoKeyVersion) :=
  if String.eqb parent "ring/sign" then
    [Ok (mkCryptoKeyVersion "ring/sign/1" ENABLED EC_SIGN_P256_SHA256 HSM);
     Ok (mkCryptoKeyVersion "ring/sign/2" DISABLED EC_SIGN_P256_SHA256 HSM);
     Ok (mkCryptoKeyVersion "ring/sign/3" ENABLED RSA_SIGN_RAW_PKCS1_2048 HSM)]
  else if String.eqb parent "ring/decrypt" then
    [Ok (mkCryptoKeyVersion "ring/decrypt/1" ENABLED EC_SIGN_P384_SHA384 HSM)]
  else [].

Definition toy_client : KmsClient := {|
  ListCryptoKeys parent :=
    [Ok (mkCryptoKey "ring/sign" ASYMMETRIC_SIGN HSM);
     Ok (mkCryptoKey "ring/soft" ASYMMETRIC_SIGN SOFTWARE);
     Ok (mkCryptoKey "ring/enc" ENCRYPT_DECRYPT HSM);
     Ok (mkCryptoKey "ring/decrypt" ASYMMETRIC_DECRYPT HSM)];
  ListCryptoKeyVersions := toy_versions;
  GetPublicKey name := Ok (mkPublicKey ("PEM of " ++ name)%string)
|}.

Definition toy_world : World := mkWorld [] [7; 7; 8; 9; 7; 10; 11; 12]%N.

Definition toy_state : ObjectStoreState := Eval vm_compute in
  match LoadState (H := TokenFacts.toy) toy_client "ring" true toy_world with
  | Some (Ok st, _) => st
  | _ => mkObjectStoreState []
  end.

Lemma toy_LoadState :
  ∃ w', LoadState (H := TokenFacts.toy) toy_client "ring" true toy_world
        = Some (Ok toy_state, w').
Proof. eexists. vm_compute. reflexivity. Qed.




Lemma materialize_at_stored_handles_witness :
  NoDup (handles_of toy_state) ∧
  ∃ objects, LoadObjects (H := TokenFacts.toy) toy_state = Ok objects ∧
    Get 8%N objects = Ok ("ring/sign/1", CKO_PUBLIC_KEY) ∧
    Get 7%N objects = Ok ("ring/sign/1", CKO_PRIVATE_KEY) ∧
    Get 9%N objects = Ok ("ring/sign/1", CKO_CERTIFICATE) ∧
    dom (items_ objects) = {[7; 8; 9; 10; 11; 12]}%N.
Proof.
  destruct toy_LoadState as [w' Hrun].
  destruct (materialize_at_stored_handles (H := TokenFacts.toy) _ _ _ _ _ _ Hrun)
    as (Hnd & Hobjects & Hsound & _).
  split; [exact Hnd|].
  destruct (LoadObjects (H := TokenFacts.toy) toy_state) as [objects|e] eqn:Hok.
  2: { exfalso. vm_compute in Hobjects. discriminate Hobjects. }
  exists objects. split; [reflexivity|].
  destruct (Hsound objects eq_refl) as [Hkeys Hdom].
  injection Hobjects as ->.
  split_and!; [by vm_compute..|].
  rewrite Hdom. apply set_eq. intros h. vm_compute handles_of. set_solver.
Defined.

End LoaderFacts.

(* ===================================================================== *)
(*  Find and Token::FindObjects                                          *)
(* ===================================================================== *)
Module FindFacts.
Import kms_v1 kmsp11.

Section StringOrder.

Lemma ascii_compare_refl a : Ascii.compare a a = Eq.
Proof. unfold Ascii.compare. apply N.compare_refl. Qed.

Lemma string_compare_refl s : String.compare s s = Eq.
Proof. induction s as [|a s IH]; simpl; [done|]. by rewrite ascii_compare_refl. Qed.

Lemma string_compare_eq s1 s2 : String.compare s1 s2 = Eq ↔ s1 = s2.
Proof. split; [apply String.compare_eq_iff|intros ->; apply string_compare_refl]. Qed.

Lemma string_compare_gt s1 s2 : String.compare s1 s2 = Gt ↔ String.compare s2 s1 = Lt.
Proof.
  rewrite (String.compare_antisym s1 s2). by destruct (String.compare s2 s1).
Qed.

Lemma string_compare_lt_trans s1 s2 s3 :
  String.compare s1 s2 = Lt → String.compare s2 s3 = Lt → String.compare s1 s3 = Lt.
Proof.
  revert s2 s3. induction s1 as [|a1 s1 IH]; intros [|a2 s2] [|a3 s3]; simpl; try done.
  unfold Ascii.compare.
  destruct (N.compare_spec (N_of_ascii a1) (N_of_ascii a2)) as [E12|L12|G12]; [| |done];
  destruct (N.compare_spec (N_of_ascii a2) (N_of_ascii a3)) as [E23|L23|G23]; try done.
  - rewrite E12, E23, N.compare_refl. apply IH.
  - intros _ _. rewrite E12. by rewrite (proj2 (N.compare_lt_iff _ _) L23).
  - intros _ _. rewrite <- E23. by rewrite (proj2 (N.compare_lt_iff _ _) L12).
  - intros _ _. by rewrite (proj2 (N.compare_lt_iff _ _) (N.lt_trans _ _ _ L12 L23)).
Qed.

End StringOrder.

Section Sort.
Context {A : Type} (comp : A → A → bool).

(** "Not after": [b] does not have to go before [a]. *)
Definition not_after (a b : A) : Prop := comp b a = false.

Lemma sort_insert_Permutation x l : sort_insert comp x l ≡ₚ x :: l.
Proof.
  induction l as [|y l IH]; simpl; [done|].
  destruct (comp x y); [done|]. rewrite IH. apply Permutation_swap.
Qed.

Lemma std_sort_Permutation l : std_sort comp l ≡ₚ l.
Proof.
  unfold std_sort. induction l as [|x l IH]; simpl; [done|].
  by rewrite sort_insert_Permutation, IH.
Qed.

(** On the elements that satisfy [P] the comparator is a strict weak
    ordering: asymmetric, and "not after" is transitive. *)
Context (P : A → Prop).
Context (comp_asym : ∀ a b, P a → P b → comp a b = true → comp b a = false).
Context (not_after_trans :
  ∀ a b c, P a → P b → P c → not_after a b → not_after b c → not_after a c).

Lemma sort_insert_sorted x l :
  P x → Forall P l → StronglySorted not_after l →
  StronglySorted not_after (sort_insert comp x l).
Proof.
  intros Px Pl Hs. induction Hs as [|y l Hs IH Hy]; simpl.
  - by repeat constructor.
  - apply Forall_cons in Pl as [Py Pl]. destruct (comp x y) eqn:Hxy.
    + constructor; [by constructor|]. constructor; [by apply comp_asym|].
      rewrite Forall_forall in Hy, Pl |- *. intros z Hz.
      apply (not_after_trans x y z); auto. by apply comp_asym.
    + constructor; [by apply IH|].
      rewrite (sort_insert_Permutation x l). by constructor.
Qed.

Lemma std_sort_sorted l : Forall P l → StronglySorted not_after (std_sort comp l).
Proof.
  unfold std_sort. induction l as [|x l IH]; simpl; [constructor|].
  intros [Px Pl]%Forall_cons. apply sort_insert_sorted; [done| |by apply IH].
  fold (std_sort comp l). by rewrite std_sort_Permutation.
Qed.

End Sort.

Lemma StronglySorted_lookup_lt {A} (R : A → A → Prop) l i j x y :
  StronglySorted R l → (i < j)%nat → l !! i = Some x → l !! j = Some y → R x y.
Proof.
  intros Hs. revert i j. induction Hs as [|z l _ IH Hz]; intros i j Hij Hi Hj; [done|].
  destruct j as [|j]; [lia|]. simpl in Hj. destruct i as [|i].
  - injection Hi as ->. rewrite Forall_forall in Hz. eapply Hz, list_elem_of_lookup_2, Hj.
  - simpl in Hi. apply (IH i j); [lia|done|done].
Qed.

Lemma StronglySorted_mono {A} (R R' : A → A → Prop) l :
  (∀ x y, R x y → R' x y) → StronglySorted R l → StronglySorted R' l.
Proof.
  intros HR. induction 1 as [|x l _ IH Hx]; constructor; [done|].
  eapply Forall_impl; [exact Hx|]. apply HR.
Qed.

Section Find.
Context {T : Type}.
Implicit Types (m : HandleMap T) (predicate : T → bool).

Lemma Find_unsorted_elem predicate m h :
  h ∈ Find predicate None m ↔ ∃ item, Get h m = Ok item ∧ predicate item = true.
Proof.
  unfold Find, Get. rewrite list_elem_of_fmap. split.
  - intros ([h' item] & -> & [Hp Hin]%list_elem_of_filter). simpl in *.
    apply elem_of_map_to_list in Hin. exists item. by rewrite Hin.
  - intros (item & Hget & Hp). destruct (items_ m !! h) as [item'|] eqn:Hh; [|done].
    injection Hget as ->. exists (h, item). split; [done|].
    apply list_elem_of_filter. split; [done|]. by apply elem_of_map_to_list.
Qed.

Lemma Find_unsorted_NoDup predicate m : NoDup (Find predicate None m).
Proof.
  unfold Find. eapply (NoDup_fmap_fst (filter _ _)).
  - intros h x1 x2 [_ H1]%list_elem_of_filter [_ H2]%list_elem_of_filter.
    apply elem_of_map_to_list in H1, H2. congruence.
  - apply NoDup_filter, NoDup_map_to_list.
Qed.

Lemma Find_sorted_Permutation predicate cmp m :
  Find predicate (Some cmp) m ≡ₚ Find predicate None m.
Proof. unfold Find. apply std_sort_Permutation. Qed.

(** The case of items_.at that throws does not arise. *)
Lemma Find_handles_live predicate sort_compare m h :
  h ∈ Find predicate sort_compare m → is_Some (items_ m !! h).
Proof.
  intros Hin. assert (Hin' : h ∈ Find predicate None m).
  { destruct sort_compare; [by rewrite <- Find_sorted_Permutation|done]. }
  apply Find_unsorted_elem in Hin' as (item & Hget & _). unfold Get in Hget.
  destruct (items_ m !! h); [by eexists|done].
Qed.

End Find.

Section Objects.
Context `{Collaborators}.
Implicit Types (o : Object) (t : Token).

(** The order of the claim: first by key name, lexicographically, then
    by the number of the object class. *)
Definition object_le o1 o2 : Prop :=
  String.ltb (kms_key_name o1) (kms_key_name o2) = true ∨
  (kms_key_name o1 = kms_key_name o2 ∧ (object_class o1 ≤ object_class o2)%N).

Lemma string_ltb_lt s1 s2 : String.ltb s1 s2 = true ↔ String.compare s1 s2 = Lt.
Proof. unfold String.ltb. by destruct (String.compare s1 s2). Qed.

Lemma FindObjects_compare_not_after o1 o2 :
  FindObjects_compare o2 o1 = false ↔ object_le o1 o2.
Proof.
  unfold FindObjects_compare, object_le. rewrite string_ltb_lt.
  destruct (String.eqb_spec (kms_key_name o2) (kms_key_name o1)) as [Heq|Hne].
  - rewrite Heq, string_compare_refl, N.ltb_ge. split; [by right|].
    by intros [?|[_ ?]].
  - unfold String.ltb.
    destruct (String.compare (kms_key_name o2) (kms_key_name o1)) eqn:Hc.
    + by apply string_compare_eq in Hc.
    + split; [done|]. intros [Hlt|[? _]]; [|congruence].
      apply string_compare_gt in Hlt. congruence.
    + split; [|done]. intros _. left. by apply string_compare_gt.
Qed.

Lemma object_le_trans o1 o2 o3 : object_le o1 o2 → object_le o2 o3 → object_le o1 o3.
Proof.
  unfold object_le. rewrite !string_ltb_lt.
  intros [H12|[E12 C12]] [H23|[E23 C23]].
  - left. by eapply string_compare_lt_trans.
  - left. by rewrite <- E23.
  - left. by rewrite E12.
  - right. split; [congruence|]. by etrans.
Qed.

Lemma FindObjects_compare_asym o1 o2 :
  FindObjects_compare o1 o2 = true → FindObjects_compare o2 o1 = false.
Proof.
  intros Hlt. apply FindObjects_compare_not_after.
  unfold FindObjects_compare, object_le in *.
  destruct (String.eqb_spec (kms_key_name o1) (kms_key_name o2)) as [Heq|Hne].
  - right. split; [done|]. apply N.ltb_lt in Hlt. by apply N.lt_le_incl.
  - by left.
Qed.

Lemma FindObjects_StronglySorted predicate t :
  StronglySorted
    (λ h1 h2, ∀ o1 o2, items_ (objects_ t) !! h1 = Some o1 →
                       items_ (objects_ t) !! h2 = Some o2 → object_le o1 o2)
    (FindObjects predicate t).
Proof.
  unfold FindObjects.
  set (comp := Find_compare (items_ (objects_ t)) FindObjects_compare).
  assert (Hs : StronglySorted (not_after comp)
                 (Find predicate (Some FindObjects_compare) (objects_ t))).
  { apply (std_sort_sorted comp (λ h, is_Some (items_ (objects_ t) !! h))).
    - intros a b [oa Ha] [ob Hb]. unfold comp, Find_compare. rewrite Ha, Hb.
      apply FindObjects_compare_asym.
    - intros a b c [oa Ha] [ob Hb] [oc Hc]. unfold not_after, comp, Find_compare.
      rewrite Ha, Hb, Hc, !FindObjects_compare_not_after. apply object_le_trans.
    - apply Forall_forall. intros h Hh. by eapply (Find_handles_live _ None). }
  eapply StronglySorted_mono; [|exact Hs].
  intros h1 h2 Hna o1 o2 H1 H2. apply FindObjects_compare_not_after.
  unfold not_after, comp, Find_compare in Hna. by rewrite H2, H1 in Hna.
Qed.

(** C9.  FindObjects returns, each once, the handles of exactly the
    objects that satisfy the predicate; an object that stands earlier in
    the result has the lexicographically smaller key name or, with the
    same key name, the object class of smaller or equal number, the
    canonical order of CK_OBJECT_CLASS; in particular the public key of
    a key version stands before its private key. *)
Theorem find_objects_sorted predicate t :
  NoDup (FindObjects predicate t) ∧
  (∀ h, h ∈ FindObjects predicate t ↔
        ∃ o, Get h (objects_ t) = Ok o ∧ predicate o = true) ∧
  (∀ i j hi hj oi oj,
     (i < j)%nat →
     FindObjects predicate t !! i = Some hi →
     FindObjects predicate t !! j = Some hj →
     Get hi (objects_ t) = Ok oi → Get hj (objects_ t) = Ok oj →
     String.ltb (kms_key_name oi) (kms_key_name oj) = true ∨
     (kms_key_name oi = kms_key_name oj ∧ (object_class oi ≤ object_class oj)%N)) ∧
  (∀ i j hi hj oi oj,
     FindObjects predicate t !! i = Some hi →
     FindObjects predicate t !! j = Some hj →
     Get hi (objects_ t) = Ok oi → Get hj (objects_ t) = Ok oj →
     kms_key_name oi = kms_key_name oj →
     object_class oi = CKO_PUBLIC_KEY → object_class oj = CKO_PRIVATE_KEY →
     (i < j)%nat).
Proof.
  assert (Hget : ∀ h o, Get h (objects_ t) = Ok o → items_ (objects_ t) !! h = Some o).
  { intros h o. unfold Get. destruct (items_ (objects_ t) !! h); by intros [= ->]. }
  assert (Hsorted : ∀ i j hi hj oi oj,
    (i < j)%nat →
    FindObjects predicate t !! i = Some hi → FindObjects predicate t !! j = Some hj →
    Get hi (objects_ t) = Ok oi → Get hj (objects_ t) = Ok oj → object_le oi oj).
  { intros i j hi hj oi oj Hij Hi Hj Hoi%Hget Hoj%Hget.
    by eapply (StronglySorted_lookup_lt _ _ i j hi hj (FindObjects_StronglySorted predicate t)). }
  split_and!.
  - unfold FindObjects. rewrite Find_sorted_Permutation. apply Find_unsorted_NoDup.
  - intros h. unfold FindObjects. rewrite Find_sorted_Permutation.
    apply Find_unsorted_elem.
  - exact Hsorted.
  - intros i j hi hj oi oj Hi Hj Hoi Hoj Hname Hci Hcj.
    destruct (Nat.lt_trichotomy i j) as [Hlt|[->|Hgt]]; [done| |].
    + rewrite Hi in Hj. injection Hj as ->. rewrite Hoi in Hoj. injection Hoj as ->.
      rewrite Hci in Hcj. done.
    + destruct (Hsorted j i hj hi oj oi Hgt Hj Hi Hoj Hoi) as [Hlt|[_ Hle]].
      * rewrite Hname in Hlt. apply string_ltb_lt in Hlt.
        by rewrite string_compare_refl in Hlt.
      * rewrite Hci, Hcj in Hle. by vm_compute in Hle.
Qed.

End Objects.

(** A token with the three objects of the key version "k/1" and the
    public key of "a/1". *)
Definition toy_objects : HandleMap (string * CK_OBJECT_CLASS) :=
  mkHandleMap CKR_OBJECT_HANDLE_INVALID
    (<[7%N := ("k/1", CKO_PRIVATE_KEY)]> (<[8%N := ("k/1", CKO_PUBLIC_KEY)]>
    (<[9%N := ("k/1", CKO_CERTIFICATE)]> (<[3%N := ("a/1", CKO_PUBLIC_KEY)]> ∅)))).

Definition toy_find_token : Token (H := TokenFacts.toy) :=
  Token_ctor (H := TokenFacts.toy) 0 toy_objects.

(** With the class numbers of PKCS #11 the certificate of a key version
    stands before its public key, and that before its private key. *)
Lemma find_objects_certificate_first :
  FindObjects (H := TokenFacts.toy) (λ _, true) toy_find_token = [3; 9; 8; 7]%N.
Proof. by vm_compute. Qed.

Lemma find_objects_sorted_witness :
  NoDup (FindObjects (H := TokenFacts.toy) (λ o, (snd o =? CKO_PUBLIC_KEY)%N) toy_find_token) ∧
  (8%N ∈ FindObjects (H := TokenFacts.toy) (λ o, (snd o =? CKO_PUBLIC_KEY)%N) toy_find_token) ∧
  (7%N ∉ FindObjects (H := TokenFacts.toy) (λ o, (snd o =? CKO_PUBLIC_KEY)%N) toy_find_token).
Proof.
  destruct (find_objects_sorted (H := TokenFacts.toy)
              (λ o, (snd o =? CKO_PUBLIC_KEY)%N) toy_find_token) as (Hnd & Helem & _).
  split_and!; [exact Hnd| |].
  - apply Helem. exists ("k/1", CKO_PUBLIC_KEY). by vm_compute.
  - intros (o & Hget & Hp)%Helem. vm_compute in Hget. injection Hget as <-.
    by vm_compute in Hp.
Defined.

End FindFacts.

(* ===================================================================== *)
(*  The CNG provider bridge                                              *)
(* ===================================================================== *)
Module BridgeFacts.
Import kms_v1 kmscng.
Local Open Scope Z_scope.

Section Validation.
Context `{Environment}.
Implicit Types (st : Heap) (e : ErrorInfo).

Lemma ValidateFlags_ok flags :
  ValidateFlags flags = OkStatus ↔ flags = 0 ∨ flags = NCRYPT_SILENT_FLAG.
Proof.
  unfold ValidateFlags.
  destruct (Z.eqb_spec flags 0), (Z.eqb_spec flags NCRYPT_SILENT_FLAG); simpl;
    split; try done; auto; by intros [?|?].
Qed.

Lemma ValidateFlags_err flags e :
  ValidateFlags flags = Err e → code e = kInvalidArgument ∧ rv e = NTE_BAD_FLAGS.
Proof. unfold ValidateFlags. case_match; [|done]. by intros [= <-]. Qed.

Lemma not_null_err {A} (p : option A) msg e :
  not_null p msg = Err e → p = None ∧ rv e = NTE_INVALID_PARAMETER.
Proof. destruct p; [done|]. by intros [= <-]. Qed.

Lemma ValidateProviderHandle_ok st hProvider prov :
  ValidateProviderHandle st hProvider = Ok prov ↔
  hProvider ≠ 0 ∧ providers st !! hProvider = Some prov.
Proof.
  unfold ValidateProviderHandle. destruct (Z.eqb_spec hProvider 0) as [->|Hne].
  - split; [done|by intros [? _]].
  - destruct (providers st !! hProvider); split; try done.
    + by intros [= ->].
    + by intros [_ [= ->]].
    + by intros [_ ?].
Qed.

Lemma ValidateProviderHandle_err st hProvider e :
  ValidateProviderHandle st hProvider = Err e →
  rv e = NTE_INVALID_HANDLE ∧ (hProvider = 0 ∨ providers st !! hProvider = None).
Proof.
  unfold ValidateProviderHandle. destruct (Z.eqb_spec hProvider 0) as [->|Hne].
  - intros [= <-]. by auto.
  - destruct (providers st !! hProvider); [done|]. intros [= <-]. by auto.
Qed.

Lemma ValidateKeyHandle_ok st hProvider hKey object :
  ValidateKeyHandle st hProvider hKey = Ok object ↔
  hProvider ≠ 0 ∧ is_Some (providers st !! hProvider) ∧ hKey ≠ 0 ∧
  objects st !! hKey = Some object ∧ provider_handle object = hProvider.
Proof.
  unfold ValidateKeyHandle, mbind, StatusOr_bind.
  destruct (ValidateProviderHandle st hProvider) as [prov|e] eqn:Hp.
  - apply ValidateProviderHandle_ok in Hp as [Hne Hprov].
    destruct (Z.eqb_spec hKey 0) as [->|Hk]; [by split; [|intros (_ & _ & ? & _)]|].
    destruct (objects st !! hKey) as [o|]; [|by split; [|intros (_ & _ & _ & ? & _)]].
    destruct (Z.eqb_spec (provider_handle o) hProvider) as [Hb|Hb]; split.
    + intros [= ->]. by eauto.
    + by intros (_ & _ & _ & [= ->] & _).
    + done.
    + intros (_ & _ & _ & [= ->] & ?). done.
  - apply ValidateProviderHandle_err in Hp as [_ Hp]. split; [done|].
    intros (? & [? ?] & _). destruct Hp; congruence.
Qed.

Lemma ValidateKeyHandle_err st hProvider hKey e :
  ValidateKeyHandle st hProvider hKey = Err e → rv e = NTE_INVALID_HANDLE.
Proof.
  unfold ValidateKeyHandle, mbind, StatusOr_bind.
  destruct (ValidateProviderHandle st hProvider) as [prov|e'] eqn:Hp.
  - repeat case_match; try done; by intros [= <-].
  - intros [= <-]. by apply ValidateProviderHandle_err in Hp as [? _].
Qed.

Lemma Provider_GetProperty_err prov name e :
  Provider_GetProperty prov name = Err e → rv e = NTE_NOT_SUPPORTED.
Proof. unfold Provider_GetProperty. repeat case_match; try done. by intros [= <-]. Qed.

Lemma Object_GetProperty_err object name e :
  Object_GetProperty object name = Err e → rv e = NTE_NOT_SUPPORTED.
Proof. unfold Object_GetProperty. case_match; [done|]. by intros [= <-]. Qed.

Lemma ValidateKeyPreconditions_err object e :
  ValidateKeyPreconditions object = Err e → rv e = NTE_NOT_SUPPORTED.
Proof. unfold ValidateKeyPreconditions. repeat case_match; try done; by intros [= <-]. Qed.

Lemma SignatureLength_err object e :
  SignatureLength object = Err e → rv e = NTE_INTERNAL_ERROR.
Proof. unfold SignatureLength. case_match; [done|]. by intros [= <-]. Qed.

End Validation.

(** Two SECURITY_STATUS values that a hypothesis equates differ. *)
Ltac status_clash :=
  match goal with
  | H1 : rv ?e = _, H2 : rv ?e = _ |- _ => rewrite H1 in H2; by vm_compute in H2
  end.

Section BufferQuery.
Context `{Environment}.
Implicit Types (st : Heap) (e : ErrorInfo) (value buffer : bytes).

Lemma to_DWORD_fits z : 0 ≤ z ≤ MAXDWORD → to_DWORD z = z.
Proof. unfold to_DWORD, MAXDWORD. intros ?. apply Z.mod_small. lia. Qed.

Lemma size_nonneg value : 0 ≤ size value.
Proof. unfold size. lia. Qed.

Lemma return_property_null value cbOutput :
  return_property value None cbOutput = (OkStatus, None, Some (to_DWORD (size value))).
Proof. done. Qed.

Lemma return_property_small value buffer cbOutput :
  cbOutput < size value →
  ∃ e, return_property value (Some buffer) cbOutput =
         (Err e, Some buffer, Some (to_DWORD (size value))) ∧
       code e = kOutOfRange ∧ rv e = NTE_BUFFER_TOO_SMALL.
Proof.
  intros Hlt. unfold return_property.
  rewrite (proj2 (Z.ltb_lt _ _) Hlt). by eexists.
Qed.

Lemma return_property_err value pbOutput cbOutput e out' pcb' :
  return_property value pbOutput cbOutput = (Err e, out', pcb') →
  out' = pbOutput ∧ pcb' = Some (to_DWORD (size value)) ∧
  code e = kOutOfRange ∧ rv e = NTE_BUFFER_TOO_SMALL ∧
  is_Some pbOutput ∧ cbOutput < size value.
Proof.
  unfold return_property. destruct pbOutput as [buffer|]; [|done].
  destruct (Z.ltb_spec cbOutput (size value)); [|done].
  intros [= <- <- <-]. by eauto 10.
Qed.

Lemma GetProviderProperty_valid st hProvider prov name value pbOutput cbOutput old flags :
  ValidateProviderHandle st hProvider = Ok prov →
  Provider_GetProperty prov name = Ok value →
  flags = 0 ∨ flags = NCRYPT_SILENT_FLAG →
  GetProviderProperty st hProvider (Some name) pbOutput cbOutput (Some old) flags =
  return_property value pbOutput cbOutput.
Proof.
  intros Hp Hv Hf%ValidateFlags_ok. unfold GetProviderProperty, mbind, StatusOr_bind.
  simpl. by rewrite Hp, Hf, Hv.
Qed.

Lemma GetKeyProperty_valid st hProvider hKey object name value pbOutput cbOutput old flags :
  ValidateKeyHandle st hProvider hKey = Ok object →
  Object_GetProperty object name = Ok value →
  flags = 0 ∨ flags = NCRYPT_SILENT_FLAG →
  GetKeyProperty st hProvider hKey (Some name) pbOutput cbOutput (Some old) flags =
  return_property value pbOutput cbOutput.
Proof.
  intros Hp Hv Hf%ValidateFlags_ok. unfold GetKeyProperty, mbind, StatusOr_bind.
  simpl. by rewrite Hp, Hf, Hv.
Qed.

Lemma GetProviderProperty_too_small st hProvider pszProperty pbOutput cbOutput
    pcbResult flags e out' pcb' :
  GetProviderProperty st hProvider pszProperty pbOutput cbOutput pcbResult flags
    = (Err e, out', pcb') →
  rv e = NTE_BUFFER_TOO_SMALL →
  ∃ prov name value,
    ValidateProviderHandle st hProvider = Ok prov ∧ pszProperty = Some name ∧
    Provider_GetProperty prov name = Ok value ∧
    return_property value pbOutput cbOutput = (Err e, out', pcb').
Proof.
  unfold GetProviderProperty, mbind, StatusOr_bind. intros Hcall Hrv.
  destruct (ValidateProviderHandle st hProvider) as [prov|e1] eqn:Hp.
  2: { injection Hcall as <- _ _. apply ValidateProviderHandle_err in Hp as [? _].
       status_clash. }
  destruct (not_null pszProperty _) as [name|e1] eqn:Hn.
  2: { injection Hcall as <- _ _. apply not_null_err in Hn as [_ ?]. status_clash. }
  destruct (not_null pcbResult _) as [old|e1] eqn:Hc.
  2: { injection Hcall as <- _ _. apply not_null_err in Hc as [_ ?]. status_clash. }
  destruct (ValidateFlags flags) as [[]|e1] eqn:Hf.
  2: { injection Hcall as <- _ _. apply ValidateFlags_err in Hf as [_ ?]. status_clash. }
  destruct (Provider_GetProperty prov name) as [value|e1] eqn:Hv.
  2: { injection Hcall as <- _ _. apply Provider_GetProperty_err in Hv. status_clash. }
  exists prov, name, value. split_and!; try done. destruct pszProperty; by simplify_eq/=.
Qed.

Lemma GetKeyProperty_too_small st hProvider hKey pszProperty pbOutput cbOutput
    pcbResult flags e out' pcb' :
  GetKeyProperty st hProvider hKey pszProperty pbOutput cbOutput pcbResult flags
    = (Err e, out', pcb') →
  rv e = NTE_BUFFER_TOO_SMALL →
  ∃ object name value,
    ValidateKeyHandle st hProvider hKey = Ok object ∧ pszProperty = Some name ∧
    Object_GetProperty object name = Ok value ∧
    return_property value pbOutput cbOutput = (Err e, out', pcb').
Proof.
  unfold GetKeyProperty, mbind, StatusOr_bind. intros Hcall Hrv.
  destruct (ValidateKeyHandle st hProvider hKey) as [object|e1] eqn:Hp.
  2: { injection Hcall as <- _ _. apply ValidateKeyHandle_err in Hp. status_clash. }
  destruct (not_null pszProperty _) as [name|e1] eqn:Hn.
  2: { injection Hcall as <- _ _. apply not_null_err in Hn as [_ ?]. status_clash. }
  destruct (not_null pcbResult _) as [old|e1] eqn:Hc.
  2: { injection Hcall as <- _ _. apply not_null_err in Hc as [_ ?]. status_clash. }
  destruct (ValidateFlags flags) as [[]|e1] eqn:Hf.
  2: { injection Hcall as <- _ _. apply ValidateFlags_err in Hf as [_ ?]. status_clash. }
  destruct (Object_GetProperty object name) as [value|e1] eqn:Hv.
  2: { injection Hcall as <- _ _. apply Object_GetProperty_err in Hv. status_clash. }
  exists object, name, value. split_and!; try done. destruct pszProperty; by simplify_eq/=.
Qed.

Lemma SignHash_valid st hProvider hKey object len hash cbHashValue pbSignature
    cbSignature old flags :
  ValidateKeyHandle st hProvider hKey = Ok object →
  ValidateKeyPreconditions object = OkStatus →
  SignatureLength object = Ok len →
  flags = 0 ∨ flags = NCRYPT_SILENT_FLAG →
  SignHash st hProvider hKey None (Some hash) cbHashValue pbSignature cbSignature
    (Some old) flags =
  match pbSignature with
  | None => (OkStatus, None, Some (to_DWORD len))
  | Some buffer =>
      if cbSignature <? to_DWORD len then
        (Err (NewOutOfRangeError
                ("cbSignature size=" ++ fmt_u (Z.to_N cbSignature) ++
                 " not large enough to fit property value of size " ++
                 fmt_u (Z.to_N (to_DWORD len)))%string),
         Some buffer, Some (to_DWORD len))
      else
        match SignDigest object (take (Z.to_nat cbHashValue) hash)
                (take (Z.to_nat cbSignature) buffer) with
        | Err e => (Err e, Some buffer, Some (to_DWORD len))
        | Ok span =>
            (OkStatus, Some (span ++ drop (Z.to_nat cbSignature) buffer),
             Some (to_DWORD len))
        end
  end.
Proof.
  intros Hk Hpre Hlen Hf%ValidateFlags_ok. unfold SignHash, mbind, StatusOr_bind.
  rewrite Hk. cbn [not_null]. rewrite Hf, Hpre, Hlen. by destruct pbSignature.
Qed.

Lemma SignHash_too_small st hProvider hKey pPaddingInfo pbHashValue cbHashValue
    pbSignature cbSignature pcbResult flags e out' pcb' :
  SignHash st hProvider hKey pPaddingInfo pbHashValue cbHashValue pbSignature
    cbSignature pcbResult flags = (Err e, out', pcb') →
  rv e = NTE_BUFFER_TOO_SMALL →
  ∃ object len,
    ValidateKeyHandle st hProvider hKey = Ok object ∧
    SignatureLength object = Ok len ∧
    out' = pbSignature ∧ pcb' = Some (to_DWORD len).
Proof.
  unfold SignHash, mbind, StatusOr_bind. intros Hcall Hrv.
  destruct (ValidateKeyHandle st hProvider hKey) as [object|e1] eqn:Hp.
  2: { injection Hcall as <- _ _. apply ValidateKeyHandle_err in Hp. status_clash. }
  destruct pPaddingInfo.
  { injection Hcall as <- _ _. by vm_compute in Hrv. }
  destruct (not_null pbHashValue _) as [hash|e1] eqn:Hn.
  2: { injection Hcall as <- _ _. apply not_null_err in Hn as [_ ?]. status_clash. }
  destruct (not_null pcbResult _) as [old|e1] eqn:Hc.
  2: { injection Hcall as <- _ _. apply not_null_err in Hc as [_ ?]. status_clash. }
  destruct (ValidateFlags flags) as [[]|e1] eqn:Hf.
  2: { injection Hcall as <- _ _. apply ValidateFlags_err in Hf as [_ ?]. status_clash. }
  destruct (ValidateKeyPreconditions object) as [[]|e1] eqn:Hv.
  2: { injection Hcall as <- _ _. apply ValidateKeyPreconditions_err in Hv. status_clash. }
  destruct (SignatureLength object) as [len|e1] eqn:Hl.
  2: { injection Hcall as <- _ _. apply SignatureLength_err in Hl. status_clash. }
  exists object, len. split; [done|]. split; [done|].
  destruct pbSignature as [buffer|]; [|done].
  destruct (cbSignature <? to_DWORD len); [by injection Hcall as _ <- <-|].
  destruct (SignDigest _ _ _); [done|]. by injection Hcall as _ <- <-.
Qed.

(** C2, as amended.  With handles that validate, a known property name
    (for the signing call: a key that passes the key preconditions and
    has a signature length, which fits a DWORD, no padding info and a
    digest pointer that is not null), a size-output pointer that is not
    null and flags that are 0 or NCRYPT_SILENT_FLAG: a null output
    buffer makes the call write the required size, as a DWORD, to the
    size output and return success; an output buffer whose declared size
    is smaller than required makes it fail OutOfRange with
    NTE_BUFFER_TOO_SMALL and leave the buffer as it was. *)
Theorem buffer_query_convention st :
  (∀ hProvider prov name value pbOutput cbOutput old flags,
     ValidateProviderHandle st hProvider = Ok prov →
     Provider_GetProperty prov name = Ok value →
     flags = 0 ∨ flags = NCRYPT_SILENT_FLAG →
     (pbOutput = None →
      GetProviderProperty st hProvider (Some name) pbOutput cbOutput (Some old) flags
        = (OkStatus, None, Some (to_DWORD (size value)))) ∧
     (∀ buffer, pbOutput = Some buffer → cbOutput < size value →
      ∃ e, GetProviderProperty st hProvider (Some name) pbOutput cbOutput (Some old) flags
             = (Err e, Some buffer, Some (to_DWORD (size value))) ∧
           code e = kOutOfRange ∧ rv e = NTE_BUFFER_TOO_SMALL) ∧
     (size value ≤ MAXDWORD → to_DWORD (size value) = size value)) ∧
  (∀ hProvider hKey object name value pbOutput cbOutput old flags,
     ValidateKeyHandle st hProvider hKey = Ok object →
     Object_GetProperty object name = Ok value →
     flags = 0 ∨ flags = NCRYPT_SILENT_FLAG →
     (pbOutput = None →
      GetKeyProperty st hProvider hKey (Some name) pbOutput cbOutput (Some old) flags
        = (OkStatus, None, Some (to_DWORD (size value)))) ∧
     (∀ buffer, pbOutput = Some buffer → cbOutput < size value →
      ∃ e, GetKeyProperty st hProvider hKey (Some name) pbOutput cbOutput (Some old) flags
             = (Err e, Some buffer, Some (to_DWORD (size value))) ∧
           code e = kOutOfRange ∧ rv e = NTE_BUFFER_TOO_SMALL) ∧
     (size value ≤ MAXDWORD → to_DWORD (size value) = size value)) ∧
  (∀ hProvider hKey object len hash cbHashValue pbSignature cbSignature old flags,
     ValidateKeyHandle st hProvider hKey = Ok object →
     ValidateKeyPreconditions object = OkStatus →
     SignatureLength object = Ok len → 0 ≤ len ≤ MAXDWORD →
     flags = 0 ∨ flags = NCRYPT_SILENT_FLAG →
     (pbSignature = None →
      SignHash st hProvider hKey None (Some hash) cbHashValue pbSignature cbSignature
        (Some old) flags = (OkStatus, None, Some len)) ∧
     (∀ buffer, pbSignature = Some buffer → cbSignature < len →
      ∃ e, SignHash st hProvider hKey None (Some hash) cbHashValue pbSignature
             cbSignature (Some old) flags = (Err e, Some buffer, Some len) ∧
           code e = kOutOfRange ∧ rv e = NTE_BUFFER_TOO_SMALL)).
Proof.
  split_and!.
  - intros hProvider prov name value pbOutput cbOutput old flags Hp Hv Hf.
    rewrite (GetProviderProperty_valid _ _ prov name value) by done. split_and!.
    + by intros ->.
    + intros buffer -> Hlt. by apply return_property_small.
    + intros ?. apply to_DWORD_fits. split; [apply size_nonneg|done].
  - intros hProvider hKey object name value pbOutput cbOutput old flags Hp Hv Hf.
    rewrite (GetKeyProperty_valid _ _ _ object name value) by done. split_and!.
    + by intros ->.
    + intros buffer -> Hlt. by apply return_property_small.
    + intros ?. apply to_DWORD_fits. split; [apply size_nonneg|done].
  - intros hProvider hKey object len hash cbHashValue pbSignature cbSignature
      old flags Hk Hpre Hlen Hfits Hf.
    rewrite (SignHash_valid _ _ _ object len) by done.
    rewrite (to_DWORD_fits len Hfits). split.
    + by intros ->.
    + intros buffer -> Hlt. rewrite (proj2 (Z.ltb_lt _ _) Hlt). by eexists.
Qed.

(** C10.  When GetProviderProperty, GetKeyProperty or SignHash fails with
    NTE_BUFFER_TOO_SMALL, the size output already holds the required
    size (as a DWORD; the size itself when it fits one), and the output
    buffer is as it was. *)
Theorem too_small_reports_required_size st :
  (∀ hProvider pszProperty pbOutput cbOutput pcbResult flags e out' pcb',
     GetProviderProperty st hProvider pszProperty pbOutput cbOutput pcbResult flags
       = (Err e, out', pcb') →
     rv e = NTE_BUFFER_TOO_SMALL →
     ∃ prov name value,
       ValidateProviderHandle st hProvider = Ok prov ∧ pszProperty = Some name ∧
       Provider_GetProperty prov name = Ok value ∧
       pcb' = Some (to_DWORD (size value)) ∧
       (size value ≤ MAXDWORD → pcb' = Some (size value)) ∧
       out' = pbOutput) ∧
  (∀ hProvider hKey pszProperty pbOutput cbOutput pcbResult flags e out' pcb',
     GetKeyProperty st hProvider hKey pszProperty pbOutput cbOutput pcbResult flags
       = (Err e, out', pcb') →
     rv e = NTE_BUFFER_TOO_SMALL →
     ∃ object name value,
       ValidateKeyHandle st hProvider hKey = Ok object ∧ pszProperty = Some name ∧
       Object_GetProperty object name = Ok value ∧
       pcb' = Some (to_DWORD (size value)) ∧
       (size value ≤ MAXDWORD → pcb' = Some (size value)) ∧
       out' = pbOutput) ∧
  (∀ hProvider hKey pPaddingInfo pbHashValue cbHashValue pbSignature cbSignature
     pcbResult flags e out' pcb',
     SignHash st hProvider hKey pPaddingInfo pbHashValue cbHashValue pbSignature
       cbSignature pcbResult flags = (Err e, out', pcb') →
     rv e = NTE_BUFFER_TOO_SMALL →
     ∃ object len,
       ValidateKeyHandle st hProvider hKey = Ok object ∧
       SignatureLength object = Ok len ∧
       pcb' = Some (to_DWORD len) ∧
       (0 ≤ len ≤ MAXDWORD → pcb' = Some len) ∧
       out' = pbSignature).
Proof.
  split_and!.
  - intros hProvider pszProperty pbOutput cbOutput pcbResult flags e out' pcb' Hcall Hrv.
    destruct (GetProviderProperty_too_small _ _ _ _ _ _ _ _ _ _ Hcall Hrv)
      as (prov & name & value & Hp & Hn & Hv & Hret).
    apply return_property_err in Hret as (-> & -> & _).
    exists prov, name, value. split_and!; try done.
    intros ?. by rewrite to_DWORD_fits by (split; [apply size_nonneg|done]).
  - intros hProvider hKey pszProperty pbOutput cbOutput pcbResult flags e out' pcb'
      Hcall Hrv.
    destruct (GetKeyProperty_too_small _ _ _ _ _ _ _ _ _ _ _ Hcall Hrv)
      as (object & name & value & Hp & Hn & Hv & Hret).
    apply return_property_err in Hret as (-> & -> & _).
    exists object, name, value. split_and!; try done.
    intros ?. by rewrite to_DWORD_fits by (split; [apply size_nonneg|done]).
  - intros hProvider hKey pPaddingInfo pbHashValue cbHashValue pbSignature cbSignature
      pcbResult flags e out' pcb' Hcall Hrv.
    destruct (SignHash_too_small _ _ _ _ _ _ _ _ _ _ _ _ _ Hcall Hrv)
      as (object & len & Hk & Hl & -> & ->).
    exists object, len. split_and!; try done.
    intros ?. by rewrite to_DWORD_fits.
Qed.

End BufferQuery.
Section OpenKeyFacts.
Context `{Environment}.
Implicit Types (st : Heap) (e : ErrorInfo).

(** The flags word of OpenKey after the two masking assignments. *)
Definition masked (flags : DWORD) : DWORD :=
  Z.land (Z.land flags (DWORD_not NCRYPT_SILENT_FLAG)) (DWORD_not NCRYPT_MACHINE_KEY_FLAG).

(** A bit of [flags] is set that is neither of the two masked flags. *)
Definition other_bit_set (flags : DWORD) : Prop :=
  ∃ n, 0 ≤ n ∧ Z.testbit flags n = true ∧
       Z.testbit NCRYPT_SILENT_FLAG n = false ∧
       Z.testbit NCRYPT_MACHINE_KEY_FLAG n = false.

Lemma DWORD_not_testbit x n :
  0 ≤ n → Z.testbit (DWORD_not x) n = (n <? 32) && negb (Z.testbit x n).
Proof.
  intros Hn. unfold DWORD_not, to_DWORD.
  rewrite Z.testbit_mod_pow2 by lia. by rewrite Z.lnot_spec.
Qed.

Lemma DWORD_testbit_high flags n :
  0 ≤ flags ≤ MAXDWORD → 32 ≤ n → Z.testbit flags n = false.
Proof.
  unfold MAXDWORD. intros Hf Hn.
  rewrite <- (Z.mod_small flags (2 ^ 32)) by lia.
  rewrite Z.testbit_mod_pow2 by lia.
  by rewrite (proj2 (Z.ltb_ge n 32)).
Qed.

Lemma masked_testbit flags n :
  0 ≤ n →
  Z.testbit (masked flags) n =
  Z.testbit flags n && (n <? 32) &&
  negb (Z.testbit NCRYPT_SILENT_FLAG n) && negb (Z.testbit NCRYPT_MACHINE_KEY_FLAG n).
Proof.
  intros Hn. unfold masked. rewrite !Z.land_spec, !DWORD_not_testbit by done.
  destruct (Z.testbit flags n), (n <? 32), (Z.testbit NCRYPT_SILENT_FLAG n),
    (Z.testbit NCRYPT_MACHINE_KEY_FLAG n); done.
Qed.

Lemma masked_nonzero flags :
  0 ≤ flags ≤ MAXDWORD → masked flags ≠ 0 ↔ other_bit_set flags.
Proof.
  intros Hf. split.
  - intros Hne.
    assert (Hpos : 0 < masked flags).
    { assert (0 ≤ masked flags); [|lia]. unfold masked.
      apply Z.land_nonneg. left. apply Z.land_nonneg. left. lia. }
    pose proof (Z.bit_log2 _ Hpos) as Hbit.
    assert (Hn : 0 ≤ Z.log2 (masked flags)) by apply Z.log2_nonneg.
    rewrite masked_testbit in Hbit by done.
    exists (Z.log2 (masked flags)).
    destruct (Z.testbit flags _); [|done].
    destruct (Z.testbit NCRYPT_SILENT_FLAG _); [by rewrite andb_false_r in Hbit|].
    destruct (Z.testbit NCRYPT_MACHINE_KEY_FLAG _); [by rewrite andb_false_r in Hbit|].
    done.
  - intros (n & Hn & Hb & Hs & Hm) Hz.
    assert (Hbit : Z.testbit (masked flags) n = true).
    { rewrite masked_testbit, Hb, Hs, Hm by done.
      destruct (Z.ltb_spec n 32); [done|].
      by rewrite DWORD_testbit_high in Hb. }
    by rewrite Hz, Z.bits_0 in Hbit.
Qed.

Lemma OpenKey_checked st a hProvider old key_name spec flags :
  hProvider ≠ 0 →
  OpenKey st a hProvider (Some old) (Some key_name) spec flags =
  if negb (spec =? AT_KEYEXCHANGE) && negb (spec =? AT_SIGNATURE) then
    (Err (NewInvalidArgumentError
            ("unsupported legacy key spec specified: " ++ fmt_u (Z.to_N spec))%string
            NTE_INVALID_PARAMETER), st, Some old)
  else if negb (masked flags =? 0) then
    (Err (NewInvalidArgumentError
            ("unsupported flag specified: " ++ fmt_u (Z.to_N (masked flags)))%string
            NTE_BAD_FLAGS), st, Some old)
  else
    match Object_New st hProvider key_name with
    | Err e => (Err e, st, Some old)
    | Ok object => (OkStatus, mkHeap (providers st) (<[a := object]> (objects st)), Some a)
    end.
Proof.
  intros Hne. unfold OpenKey. by rewrite (proj2 (Z.eqb_neq hProvider 0) Hne).
Qed.

Lemma Object_New_run st hProvider key_name :
  is_Some (providers st !! hProvider) → hProvider ≠ 0 →
  Object_New st hProvider key_name =
  match GetCryptoKeyVersion key_name with
  | None => Err (NewError kNotFound "the key version was not found" NTE_BAD_KEYSET)
  | Some ckv =>
      _ ← ValidateKeyPreconditions (mkObject hProvider ckv (KeyProperties ckv));
      Ok (mkObject hProvider ckv (KeyProperties ckv))
  end.
Proof.
  intros [prov Hprov] Hne. unfold Object_New, mbind at 1, StatusOr_bind at 1.
  by rewrite (proj2 (ValidateProviderHandle_ok st hProvider prov)).
Qed.

(** C8.  Past its null checks (the provider handle is not zero, the key
    handle pointer and the key name are not null) OpenKey accepts
    exactly AT_KEYEXCHANGE and AT_SIGNATURE as the legacy key spec and
    fails InvalidArgument with NTE_INVALID_PARAMETER for every other
    value; it then clears NCRYPT_SILENT_FLAG and NCRYPT_MACHINE_KEY_FLAG
    in the flags and fails NTE_BAD_FLAGS exactly when another bit is
    set; past that its result is that of Object::New, which for a live
    provider fails NotFound with NTE_BAD_KEYSET when no key version has
    the name, fails NTE_NOT_SUPPORTED when the version's algorithm has
    no details or its protection level is not HSM, and otherwise gives
    the object that OpenKey stores and whose address it writes to the
    key handle pointer. *)
Theorem open_key_validation st a hProvider old key_name (Hnull : hProvider ≠ 0) :
  (∀ spec flags,
     spec ≠ AT_KEYEXCHANGE → spec ≠ AT_SIGNATURE →
     ∃ e, OpenKey st a hProvider (Some old) (Some key_name) spec flags
            = (Err e, st, Some old) ∧
          code e = kInvalidArgument ∧ rv e = NTE_INVALID_PARAMETER) ∧
  (∀ spec flags,
     spec = AT_KEYEXCHANGE ∨ spec = AT_SIGNATURE → 0 ≤ flags ≤ MAXDWORD →
     (other_bit_set flags →
      ∃ e, OpenKey st a hProvider (Some old) (Some key_name) spec flags
             = (Err e, st, Some old) ∧
           code e = kInvalidArgument ∧ rv e = NTE_BAD_FLAGS) ∧
     (¬ other_bit_set flags →
      OpenKey st a hProvider (Some old) (Some key_name) spec flags =
      match Object_New st hProvider key_name with
      | Err e => (Err e, st, Some old)
      | Ok object =>
          (OkStatus, mkHeap (providers st) (<[a := object]> (objects st)), Some a)
      end)) ∧
  (is_Some (providers st !! hProvider) →
   (GetCryptoKeyVersion key_name = None →
    ∃ e, Object_New st hProvider key_name = Err e ∧
         code e = kNotFound ∧ rv e = NTE_BAD_KEYSET) ∧
   (∀ ckv, GetCryptoKeyVersion key_name = Some ckv →
      GetDetails (ckv_algorithm ckv) = None ∨ ckv_protection_level ckv ≠ HSM →
      ∃ e, Object_New st hProvider key_name = Err e ∧ rv e = NTE_NOT_SUPPORTED) ∧
   (∀ ckv, GetCryptoKeyVersion key_name = Some ckv →
      is_Some (GetDetails (ckv_algorithm ckv)) → ckv_protection_level ckv = HSM →
      Object_New st hProvider key_name = Ok (mkObject hProvider ckv (KeyProperties ckv)))).
Proof.
  split_and!.
  - intros spec flags Hx Hs. rewrite OpenKey_checked by done.
    rewrite (proj2 (Z.eqb_neq _ _) Hx), (proj2 (Z.eqb_neq _ _) Hs). by eexists.
  - intros spec flags Hspec Hflags.
    rewrite OpenKey_checked by done.
    assert (negb (spec =? AT_KEYEXCHANGE) && negb (spec =? AT_SIGNATURE) = false) as ->.
    { destruct Hspec as [->| ->]; by vm_compute. }
    split.
    + intros Hother%masked_nonzero; [|done].
      rewrite (proj2 (Z.eqb_neq _ _) Hother). by eexists.
    + intros Hnone. destruct (Z.eqb_spec (masked flags) 0) as [Hz|Hnz]; [done|].
      by apply masked_nonzero in Hnz.
  - intros Hlive. split_and!.
    + intros Hnone. rewrite Object_New_run, Hnone by done. by eexists.
    + intros ckv Hckv Hbad. rewrite Object_New_run, Hckv by done.
      unfold ValidateKeyPreconditions, mbind, StatusOr_bind. simpl.
      destruct (GetDetails (ckv_algorithm ckv)) as [len|]; [|by eexists].
      destruct Hbad as [?|Hpl]; [done|].
      rewrite bool_decide_eq_false_2 by done. by eexists.
    + intros ckv Hckv [len Hlen] Hpl. rewrite Object_New_run, Hckv by done.
      unfold ValidateKeyPreconditions, mbind, StatusOr_bind. simpl.
      by rewrite Hlen, bool_decide_eq_true_2.
Qed.

End OpenKeyFacts.

Section Lifetime.
Context `{Environment}.
Implicit Types (st : Heap) (e : ErrorInfo) (p k : Z) (o : Object).

(** The entry points that can change the heap.  GetProviderProperty,
    GetKeyProperty and SignHash return no heap: they leave it as it is. *)
Inductive op : Type :=
| OpOpenProvider (a : Z) (phProvider : option NCRYPT_PROV_HANDLE)
    (pszProviderName : option string) (dwFlags : DWORD)
| OpFreeProvider (hProvider : NCRYPT_PROV_HANDLE)
| OpSetProviderProperty (hProvider : NCRYPT_PROV_HANDLE) (pszProperty : option string)
    (pbInput : option bytes) (cbInput dwFlags : DWORD)
| OpOpenKey (a : Z) (hProvider : NCRYPT_PROV_HANDLE) (phKey : option NCRYPT_KEY_HANDLE)
    (pszKeyName : option string) (dwLegacyKeySpec dwFlags : DWORD)
| OpFreeKey (hProvider : NCRYPT_PROV_HANDLE) (hKey : NCRYPT_KEY_HANDLE).

#[local] Instance fresh_dec st a : Decision (fresh st a).
Proof. unfold fresh. apply _. Defined.

(** One call; [None] when the address given for [new] is not one that
    [new] may return. *)
Definition step (o : op) (st : Heap) : option Heap :=
  match o with
  | OpOpenProvider a phProvider name flags =>
      if decide (fresh st a) then Some (OpenProvider st a phProvider name flags).1.2
      else None
  | OpFreeProvider hProvider => Some (FreeProvider st hProvider).2
  | OpSetProviderProperty hProvider name input cb flags =>
      Some (SetProviderProperty st hProvider name input cb flags).2
  | OpOpenKey a hProvider phKey name spec flags =>
      if decide (fresh st a) then Some (OpenKey st a hProvider phKey name spec flags).1.2
      else None
  | OpFreeKey hProvider hKey => Some (FreeKey st hProvider hKey).2
  end.

Fixpoint run (ops : list op) (st : Heap) : option Heap :=
  match ops with
  | [] => Some st
  | o :: ops' => match step o st with Some st' => run ops' st' | None => None end
  end.

(** Every entry point that takes the key handle [k] fails under the
    provider handle [p'] with NTE_INVALID_HANDLE and changes nothing. *)
Definition key_rejected st p' k : Prop :=
  ∃ e, rv e = NTE_INVALID_HANDLE ∧
       FreeKey st p' k = (Err e, st) ∧
       (∀ pszProperty pbOutput cbOutput pcbResult flags,
          GetKeyProperty st p' k pszProperty pbOutput cbOutput pcbResult flags
            = (Err e, pbOutput, pcbResult)) ∧
       (∀ pPaddingInfo pbHashValue cbHashValue pbSignature cbSignature pcbResult flags,
          SignHash st p' k pPaddingInfo pbHashValue cbHashValue pbSignature cbSignature
            pcbResult flags = (Err e, pbSignature, pcbResult)).

Lemma key_rejected_intro st p' k e :
  ValidateKeyHandle st p' k = Err e → key_rejected st p' k.
Proof.
  intros Hv. exists e. split; [by eapply ValidateKeyHandle_err|].
  unfold FreeKey, GetKeyProperty, SignHash, mbind, StatusOr_bind.
  by rewrite Hv.
Qed.

(** The back-reference check: a key object presented under a provider
    handle other than the one it was opened under is not accepted. *)
Lemma ValidateKeyHandle_mismatch st p' k o :
  objects st !! k = Some o → provider_handle o ≠ p' →
  ∃ e, ValidateKeyHandle st p' k = Err e.
Proof.
  intros Ho Hback. destruct (ValidateKeyHandle st p' k) as [o'|e] eqn:Hv; [|by eexists].
  apply ValidateKeyHandle_ok in Hv as (_ & _ & _ & Ho' & Hback'). congruence.
Qed.

(** C3, as amended.  Let the key object behind the handle [k] be live
    and opened under the provider handle [p], whose provider is live.
    Presenting [k] under any other provider handle that is null or the
    handle of a live provider fails NTE_INVALID_HANDLE in FreeKey,
    GetKeyProperty and SignHash, and changes nothing.  FreeKey under [p]
    succeeds and deletes the key object alone.  FreeProvider of [p]
    succeeds and deletes the provider alone: the key object stays where
    it is.  The bridge keeps no record of what it has freed: [new] may
    return the address [p] again, and once OpenProvider has put a
    provider there the handle [k] is accepted under [p] as before. *)
Theorem key_handle_scoped_to_provider st p k o prov
  (Hp : p ≠ 0) (Hk : k ≠ 0)
  (Hlive : providers st !! p = Some prov)
  (Ho : objects st !! k = Some o) (Hback : provider_handle o = p) :
  (∀ p', p' ≠ p → p' = 0 ∨ is_Some (providers st !! p') → key_rejected st p' k) ∧
  FreeKey st p k = (OkStatus, mkHeap (providers st) (delete k (objects st))) ∧
  FreeProvider st p = (OkStatus, mkHeap (delete p (providers st)) (objects st)) ∧
  (objects st !! p = None →
   fresh (mkHeap (delete p (providers st)) (objects st)) p ∧
   ∀ old dwFlags, dwFlags = 0 ∨ dwFlags = NCRYPT_SILENT_FLAG →
     ∃ st2,
       OpenProvider (mkHeap (delete p (providers st)) (objects st)) p (Some old)
         (Some kProviderName) dwFlags = (OkStatus, st2, Some p) ∧
       FreeKey st2 p k = (OkStatus, mkHeap (providers st2) (delete k (objects st2)))).
Proof.
  assert (Hv : ValidateKeyHandle st p k = Ok o).
  { apply ValidateKeyHandle_ok. split_and!; try done; by eexists. }
  assert (Hvp : ValidateProviderHandle st p = Ok prov).
  { by apply ValidateProviderHandle_ok. }
  split_and!.
  - intros p' Hne _. destruct (ValidateKeyHandle_mismatch st p' k o) as [e He];
      [done|congruence|]. by eapply key_rejected_intro.
  - unfold FreeKey. by rewrite Hv.
  - unfold FreeProvider. by rewrite Hvp.
  - intros Hnone. split.
    { split_and!; [done|simpl; apply lookup_delete_eq|done]. }
    intros old dwFlags Hflags%ValidateFlags_ok. eexists. split.
    + unfold OpenProvider. by rewrite String.eqb_refl, Hflags.
    + cbn [providers objects].
      assert (Hv2 : ValidateKeyHandle
                      (mkHeap (<[p := Provider_ctor]> (delete p (providers st)))
                         (objects st)) p k = Ok o).
      { apply ValidateKeyHandle_ok. split_and!; try done.
        all: simpl; rewrite lookup_insert_eq; by eexists. }
      unfold FreeKey. by rewrite Hv2.
Qed.

End Lifetime.

(** A small environment for running the model: one provider name, a
    provider with one fixed and one settable property, three key
    versions at the remote service, and signature lengths for the two
    elliptic-curve signing algorithms. *)
Definition toy_version (name : string) : option CryptoKeyVersion :=
  if String.eqb name "ring/sign/1" then
    Some (mkCryptoKeyVersion "ring/sign/1" ENABLED EC_SIGN_P256_SHA256 HSM)
  else if String.eqb name "ring/rsa/1" then
    Some (mkCryptoKeyVersion "ring/rsa/1" ENABLED RSA_SIGN_RAW_PKCS1_2048 HSM)
  else if String.eqb name "ring/soft/1" then
    Some (mkCryptoKeyVersion "ring/soft/1" ENABLED EC_SIGN_P256_SHA256 SOFTWARE)
  else None.

#[local] Instance toy_env : Environment := {|
  kProviderName := "Google Cloud KMS Provider";
  Provider_ctor :=
    mkProvider {["Impl Type" := [Byte.x01; Byte.x00; Byte.x00; Byte.x00]]}
               {["Channel Credentials" := list_byte_of_string "default"]};
  GetCryptoKeyVersion := toy_version;
  GetDetails alg :=
    if (alg =? EC_SIGN_P256_SHA256)%N then Some 64
    else if (alg =? EC_SIGN_P384_SHA384)%N then Some 96 else None;
  KeyProperties ckv := {["Key Usage" := [Byte.x02; Byte.x00; Byte.x00; Byte.x00]]};
  SignDigest object digest span := Ok (replicate 64 Byte.x00 ++ drop 64 span)
|}.

Definition toy_object : Object :=
  mkObject 100 (mkCryptoKeyVersion "ring/sign/1" ENABLED EC_SIGN_P256_SHA256 HSM)
    {["Key Usage" := [Byte.x02; Byte.x00; Byte.x00; Byte.x00]]}.

(** One provider at address 100 with one key at address 200. *)
Definition toy_heap : Heap :=
  mkHeap {[100 := Provider_ctor]} {[200 := toy_object]}.

Definition toy_digest : bytes := replicate 32 Byte.x01.

Lemma buffer_query_convention_witness :
  GetProviderProperty toy_heap 100 (Some "Impl Type") None 4 (Some 0) 0
    = (OkStatus, None, Some 4) ∧
  (∃ e, GetKeyProperty toy_heap 100 200 (Some "Key Usage") (Some [Byte.xff]) 1 (Some 0) 0
          = (Err e, Some [Byte.xff], Some 4) ∧
        rv e = NTE_BUFFER_TOO_SMALL) ∧
  SignHash toy_heap 100 200 None (Some toy_digest) 32 None 0 (Some 0) NCRYPT_SILENT_FLAG
    = (OkStatus, None, Some 64).
Proof.
  destruct (buffer_query_convention toy_heap) as (Hprov & Hkey & Hsign).
  split_and!.
  - eapply (Hprov 100 Provider_ctor "Impl Type"
              [Byte.x01; Byte.x00; Byte.x00; Byte.x00] None 4 0 0);
      [by vm_compute|by vm_compute|by left|done].
  - destruct (Hkey 100 200 toy_object "Key Usage"
                [Byte.x02; Byte.x00; Byte.x00; Byte.x00] (Some [Byte.xff]) 1 0 0)
      as (_ & Hsmall & _); [by vm_compute|by vm_compute|by left|].
    destruct (Hsmall [Byte.xff] eq_refl) as (e & Hcall & _ & Hrv); [by vm_compute|].
    by exists e.
  - eapply (Hsign 100 200 toy_object 64 toy_digest 32 None 0 0 NCRYPT_SILENT_FLAG);
      [by vm_compute|by vm_compute|by vm_compute|by vm_compute|by right|done].
Defined.

(** C2 as stated fails for the signing call: with valid handles, a valid
    key, a size-output pointer that is not null, allowed flags and a
    null output buffer, a padding info that is not null makes SignHash
    fail InvalidArgument and leave the size output as it was. *)
Lemma sign_hash_size_query_with_padding_info :
  ValidateKeyHandle toy_heap 100 200 = Ok toy_object ∧
  ValidateKeyPreconditions toy_object = OkStatus ∧
  SignatureLength toy_object = Ok 64 ∧
  ValidateFlags 0 = OkStatus ∧
  SignHash toy_heap 100 200 (Some tt) (Some toy_digest) 32 None 0 (Some 0) 0
    = (Err (mkError kInvalidArgument NTE_INVALID_PARAMETER "unsupported pPaddingInfo"),
       None, Some 0).
Proof. split_and!; by vm_compute. Qed.

Lemma too_small_reports_required_size_witness :
  ∃ e, SignHash toy_heap 100 200 None (Some toy_digest) 32 (Some toy_digest) 32
         (Some 0) 0 = (Err e, Some toy_digest, Some 64) ∧
       rv e = NTE_BUFFER_TOO_SMALL.
Proof.
  destruct (SignHash toy_heap 100 200 None (Some toy_digest) 32 (Some toy_digest) 32
              (Some 0) 0) as [[[[]|e] out'] pcb'] eqn:Hcall; [by vm_compute in Hcall|].
  assert (Hrv : rv e = NTE_BUFFER_TOO_SMALL).
  { vm_compute in Hcall. by injection Hcall as <- _ _. }
  destruct (too_small_reports_required_size toy_heap) as (_ & _ & Hsign).
  destruct (Hsign _ _ _ _ _ _ _ _ _ _ _ _ Hcall Hrv)
    as (object & len & Hk & Hlen & _ & Hpcb & ->).
  assert (len = 64) as -> by (vm_compute in Hk; vm_compute in Hlen; by simplify_eq).
  exists e. by rewrite Hpcb by (by vm_compute).
Defined.

Lemma open_key_validation_witness :
  (100 ≠ 0) ∧
  (∃ e, OpenKey toy_heap 300 100 (Some 0) (Some "ring/sign/1") 0 0
          = (Err e, toy_heap, Some 0) ∧ rv e = NTE_INVALID_PARAMETER) ∧
  (∃ e, OpenKey toy_heap 300 100 (Some 0) (Some "ring/sign/1") AT_SIGNATURE
          NCRYPT_PERSIST_ONLY_FLAG = (Err e, toy_heap, Some 0) ∧ rv e = NTE_BAD_FLAGS) ∧
  (∃ e, Object_New toy_heap 100 "ring/sign/2" = Err e ∧ rv e = NTE_BAD_KEYSET) ∧
  (∃ e, Object_New toy_heap 100 "ring/rsa/1" = Err e ∧ rv e = NTE_NOT_SUPPORTED) ∧
  (∃ e, Object_New toy_heap 100 "ring/soft/1" = Err e ∧ rv e = NTE_NOT_SUPPORTED).
Proof.
  assert (Hnull : 100 ≠ 0) by done.
  assert (Hlive : is_Some (providers toy_heap !! 100)) by (by vm_compute; eexists).
  split; [exact Hnull|]. split_and!.
  - destruct (open_key_validation toy_heap 300 100 0 "ring/sign/1" Hnull) as (Hspec & _).
    destruct (Hspec 0 0) as (e & Hcall & _ & Hrv); [done|done|]. by exists e.
  - destruct (open_key_validation toy_heap 300 100 0 "ring/sign/1" Hnull) as (_ & Hfl & _).
    destruct (Hfl AT_SIGNATURE NCRYPT_PERSIST_ONLY_FLAG) as [Hbad _];
      [by right|by vm_compute|].
    destruct Hbad as (e & Hcall & _ & Hrv); [|by exists e].
    exists 30. by vm_compute.
  - destruct (open_key_validation toy_heap 300 100 0 "ring/sign/2" Hnull) as (_ & _ & Hnew).
    destruct (Hnew Hlive) as (Hnone & _). destruct Hnone as (e & ? & _ & ?); [done|].
    by exists e.
  - destruct (open_key_validation toy_heap 300 100 0 "ring/rsa/1" Hnull) as (_ & _ & Hnew).
    destruct (Hnew Hlive) as (_ & Hbad & _).
    destruct (Hbad _ eq_refl) as (e & ? & ?); [by left|]. by exists e.
  - destruct (open_key_validation toy_heap 300 100 0 "ring/soft/1" Hnull) as (_ & _ & Hnew).
    destruct (Hnew Hlive) as (_ & Hbad & _).
    destruct (Hbad _ eq_refl) as (e & ? & ?); [by right|]. by exists e.
Defined.

(** The toy heap is what opening the provider and then the key leaves. *)
Lemma toy_heap_opened :
  run [OpOpenProvider 100 (Some 0) (Some "Google Cloud KMS Provider") 0;
       OpOpenKey 200 100 (Some 0) (Some "ring/sign/1") AT_SIGNATURE 0]
      (mkHeap ∅ ∅) = Some toy_heap.
Proof. by vm_compute. Qed.

Lemma key_handle_scoped_to_provider_witness :
  (100 ≠ 0) ∧ (200 ≠ 0) ∧
  providers toy_heap !! 100 = Some Provider_ctor ∧
  objects toy_heap !! 200 = Some toy_object ∧ provider_handle toy_object = 100 ∧
  key_rejected toy_heap 0 200 ∧
  FreeKey toy_heap 100 200 = (OkStatus, mkHeap (providers toy_heap) ∅) ∧
  objects (FreeProvider toy_heap 100).2 !! 200 = Some toy_object.
Proof.
  assert (Hp : 100 ≠ 0) by done. assert (Hk : 200 ≠ 0) by done.
  assert (Hlive : providers toy_heap !! 100 = Some Provider_ctor) by (by vm_compute).
  assert (Ho : objects toy_heap !! 200 = Some toy_object) by (by vm_compute).
  destruct (key_handle_scoped_to_provider toy_heap 100 200 toy_object Provider_ctor
              Hp Hk Hlive Ho eq_refl) as (Hother & HfreeKey & HfreeProvider & _).
  split_and!; [exact Hp|exact Hk|exact Hlive|exact Ho|reflexivity| | |].
  - apply Hother; [done|by left].
  - rewrite HfreeKey. reflexivity.
  - rewrite HfreeProvider. exact Ho.
Defined.

(** C3 as stated fails: FreeProvider releases the provider alone, so when
    a later OpenProvider is given the same address, the key opened under
    the freed provider validates under the new one, and FreeKey
    succeeds: a use of the key handle after its provider was freed
    returns success. *)
Lemma key_handle_usable_after_provider_freed :
  ∃ st1 st2 st3,
    FreeProvider toy_heap 100 = (OkStatus, st1) ∧
    fresh st1 100 ∧
    OpenProvider st1 100 (Some 0) (Some "Google Cloud KMS Provider") 0
      = (OkStatus, st2, Some 100) ∧
    FreeKey st2 100 200 = (OkStatus, st3).
Proof.
  eexists _, _, _. split_and!; [by vm_compute| |by vm_compute|by vm_compute].
  split_and!; by vm_compute.
Qed.

End BridgeFacts.

(* ===================================================================== *)
(*  The handle registry: removal, the retry loop and the search          *)
(* ===================================================================== *)
Module HandleMapMore.
Import kmsp11 HandleMapFacts.

Section Registry.
Context {T : Type}.
Implicit Types (m : HandleMap T) (item : T) (handle h : CK_ULONG).
Implicit Types (predicate : T → bool).

Lemma Get_lookup h m item : Get h m = Ok item ↔ items_ m !! h = Some item.
Proof. unfold Get. destruct (items_ m !! h); split; intros; by simplify_eq. Qed.

Lemma Get_unknown h m :
  items_ m !! h = None → Get h m = Err (HandleNotFoundError h (not_found_rv_ m)).
Proof. intros Hh. unfold Get. by rewrite Hh. Qed.

Lemma Remove_unknown h m :
  items_ m !! h = None → Remove h m = (Err (HandleNotFoundError h (not_found_rv_ m)), m).
Proof. intros Hh. unfold Remove. by rewrite Hh. Qed.

Lemma Remove_ok_inv h m m' :
  Remove h m = (OkStatus, m') →
  is_Some (items_ m !! h) ∧ m' = mkHandleMap (not_found_rv_ m) (delete h (items_ m)).
Proof.
  unfold Remove. destruct (items_ m !! h) eqn:Hh; [|done].
  intros [= <-]. split; [by eexists|done].
Qed.

(** Every call keeps the CK_RV the constructor was given. *)
Lemma step_not_found_rv o (s s' : HandleMap T * list (CK_ULONG * T)) :
  step o s = Some s' → not_found_rv_ s'.1 = not_found_rv_ s.1.
Proof.
  destruct s as [m live]. destruct o as [item draws|handle item|handle]; simpl.
  - destruct (Add item draws m) as [[[h m1] rest]|] eqn:HAdd; [|done].
    intros [= <-]. by apply Add_spec in HAdd as (_ & _ & ?).
  - unfold AddDirect. destruct (items_ m !! handle); by intros [= <-].
  - unfold Remove. destruct (items_ m !! handle); by intros [= <-].
Qed.

Lemma run_not_found_rv ops (s s' : HandleMap T * list (CK_ULONG * T)) :
  run ops s = Some s' → not_found_rv_ s'.1 = not_found_rv_ s.1.
Proof.
  revert s. induction ops as [|o ops IH]; simpl; intros s.
  - by intros [= <-].
  - destruct (step o s) as [s1|] eqn:Hstep; [|done].
    intros Hrun%IH. rewrite Hrun. by eapply step_not_found_rv.
Qed.

(** Remove takes the binding of its handle and nothing else: when it
    succeeds the handle no longer resolves (Get and a second Remove fail
    NotFound with the CK_RV of the map, the second Remove leaving the
    map as it is), every other handle resolves as before, and the map
    has one entry less. *)
Theorem remove_takes_one_binding handle m m'
  (Hremove : Remove handle m = (OkStatus, m')) :
  (∃ e, Get handle m' = Err e ∧ Remove handle m' = (Err e, m') ∧
        code e = kNotFound ∧ rv e = not_found_rv_ m) ∧
  (∀ h, h ≠ handle → Get h m' = Get h m) ∧
  S (size (items_ m')) = size (items_ m).
Proof.
  apply Remove_ok_inv in Hremove as [Hlive ->]. split_and!.
  - eexists. rewrite Get_unknown, Remove_unknown by (simpl; apply lookup_delete_eq).
    by split_and!.
  - intros h Hne. unfold Get. simpl. by rewrite lookup_delete_ne.
  - simpl. rewrite map_size_delete_Some by done.
    destruct Hlive as [x Hx]. assert (size (items_ m) ≠ 0); [|lia].
    apply map_size_non_empty_iff. intros Hempty. by rewrite Hempty in Hx.
Qed.

(** Removing the handle Add has just returned, or AddDirect has just
    accepted, gives back the registry as it was before the insertion. *)
Theorem insert_then_remove_restores m :
  (∀ item draws h m' rest,
     Add item draws m = Some (h, m', rest) → Remove h m' = (OkStatus, m)) ∧
  (∀ h item m',
     AddDirect h item m = (OkStatus, m') → Remove h m' = (OkStatus, m)).
Proof.
  destruct m as [rv items]. split.
  - intros item draws h m' rest (Hfresh & Hitems & Hrv)%Add_spec.
    destruct m' as [rv' items']. simpl in *. subst rv' items'.
    unfold Remove. simpl. rewrite lookup_insert_eq. f_equal. f_equal.
    rewrite delete_insert_eq. by apply delete_id.
  - intros h item m' HAdd. pose proof HAdd as [Hfresh _]%AddDirect_accepted.
    rewrite AddDirect_free in HAdd by done. injection HAdd as <-. simpl in *.
    unfold Remove. simpl. rewrite lookup_insert_eq. f_equal. f_equal.
    rewrite delete_insert_eq. by apply delete_id.
Qed.

(** The retry loop of Add: the handle returned is the first of the
    coming random values that is not a key of the map, the values before
    it were all keys of the map, and the values after it are left for
    the next calls; the loop is not left while every value is a key of
    the map. *)
Theorem add_takes_first_free_draw item draws m :
  match Add item draws m with
  | Some (h, m', rest) =>
      contains (items_ m) h = false ∧
      ∃ used, draws = used ++ h :: rest ∧
              Forall (λ d, contains (items_ m) d = true) used
  | None => Forall (λ d, contains (items_ m) d = true) draws
  end.
Proof.
  unfold Add. induction draws as [|d draws IH]; simpl; [done|].
  destruct (contains (items_ m) d) eqn:Hd.
  - destruct (Add_loop (items_ m) draws) as [[h rest]|].
    + destruct IH as (Hh & used & -> & Hused). split; [done|].
      exists (d :: used). split; [done|]. by constructor.
    + by constructor.
  - split; [done|]. by exists [].
Qed.

(** Throughout the life of a registry, Get and Remove of a handle that
    is not live fail NotFound with the CK_RV its constructor was given,
    and such a Remove leaves the registry as it is. *)
Theorem unknown_handle_not_found not_found_rv ops
  (s : HandleMap T * list (CK_ULONG * T)) h
  (Hrun : run ops (new_HandleMap not_found_rv, []) = Some s)
  (Hdead : h ∉ (s.2).*1) :
  ∃ e, Get h s.1 = Err e ∧ Remove h s.1 = (Err e, s.1) ∧
       code e = kNotFound ∧ rv e = not_found_rv.
Proof.
  pose proof (run_not_found_rv _ _ _ Hrun) as Hrv. simpl in Hrv.
  assert (Hinv : registry_inv s).
  { apply reachable_inv. eapply run_reachable; [apply reachable_new|exact Hrun]. }
  destruct Hinv as [_ Hagree].
  assert (Hnone : items_ s.1 !! h = None).
  { destruct (items_ s.1 !! h) as [x|] eqn:Hx; [|done]. exfalso. apply Hdead.
    apply list_elem_of_fmap. exists (h, x). split; [done|]. by apply Hagree. }
  eexists. rewrite Get_unknown, Remove_unknown by done. by split_and!.
Qed.

(** Find without a comparator returns, each once, the handles of exactly
    the items that satisfy the predicate; in particular none on an empty
    registry. *)
Theorem find_returns_matching_once predicate m :
  NoDup (Find predicate None m) ∧
  (∀ h, h ∈ Find predicate None m ↔
        ∃ item, Get h m = Ok item ∧ predicate item = true) ∧
  (items_ m = ∅ → Find predicate None m = []).
Proof.
  split_and!.
  - apply FindFacts.Find_unsorted_NoDup.
  - apply FindFacts.Find_unsorted_elem.
  - intros Hempty. unfold Find. by rewrite Hempty, map_to_list_empty.
Qed.

Lemma Find_insert predicate m m' h item :
  items_ m !! h = None → items_ m' = <[h := item]> (items_ m) →
  Find predicate None m' ≡ₚ
    if predicate item then h :: Find predicate None m else Find predicate None m.
Proof.
  intros Hfresh Hitems.
  assert (Hnew : ∀ h', h' ∈ Find predicate None m' ↔
            (h' = h ∧ predicate item = true) ∨ h' ∈ Find predicate None m).
  { intros h'. rewrite !FindFacts.Find_unsorted_elem. setoid_rewrite Get_lookup.
    rewrite Hitems.
    destruct (decide (h' = h)) as [->|Hne].
    - rewrite lookup_insert_eq, Hfresh. split.
      + intros (x & [= <-] & Hp). by left.
      + intros [[_ Hp]|(x & ? & _)]; [by exists item|done].
    - rewrite lookup_insert_ne by done. split; [intros ?; by right|]. by intros [[? _]|?]. }
  assert (Hold : h ∉ Find predicate None m).
  { rewrite FindFacts.Find_unsorted_elem. setoid_rewrite Get_lookup.
    rewrite Hfresh. by intros (? & ? & _). }
  apply NoDup_Permutation.
  - apply FindFacts.Find_unsorted_NoDup.
  - destruct (predicate item); [apply NoDup_cons; split; [done|]|];
      apply FindFacts.Find_unsorted_NoDup.
  - intros h'. rewrite Hnew. destruct (predicate item).
    + rewrite elem_of_cons. naive_solver.
    + naive_solver.
Qed.

(** Find follows the changes of the registry: after Add or an accepted
    AddDirect it returns the new handle besides the former ones exactly
    when the new item satisfies the predicate, and after a successful
    Remove the former ones without the removed handle. *)
Theorem find_follows_updates predicate m :
  (∀ item draws h m' rest,
     Add item draws m = Some (h, m', rest) →
     Find predicate None m' ≡ₚ
       if predicate item then h :: Find predicate None m else Find predicate None m) ∧
  (∀ h item m',
     AddDirect h item m = (OkStatus, m') →
     Find predicate None m' ≡ₚ
       if predicate item then h :: Find predicate None m else Find predicate None m) ∧
  (∀ h m',
     Remove h m = (OkStatus, m') →
     Find predicate None m' ≡ₚ filter (λ h', h' ≠ h) (Find predicate None m)).
Proof.
  split_and!.
  - intros item draws h m' rest (Hfresh & Hitems & _)%Add_spec. by apply Find_insert.
  - intros h item m' [Hfresh Hitems]%AddDirect_accepted. by apply Find_insert.
  - intros h m' [_ ->]%Remove_ok_inv. apply NoDup_Permutation.
    + apply FindFacts.Find_unsorted_NoDup.
    + apply NoDup_filter, FindFacts.Find_unsorted_NoDup.
    + intros h'. rewrite list_elem_of_filter, !FindFacts.Find_unsorted_elem.
      setoid_rewrite Get_lookup. simpl. destruct (decide (h' = h)) as [->|Hne].
      * rewrite lookup_delete_eq. split; [by intros (? & ? & _)|by intros [? _]].
      * rewrite lookup_delete_ne by done. naive_solver.
Qed.

(** Find with a comparator that is a strict weak ordering (no two items
    go before each other, and not going before is transitive) returns
    the same handles as without one, arranged so that no item of a
    later handle goes before the item of an earlier one. *)
Theorem find_sorts_by_comparator predicate (sort_compare : T → T → bool) m
  (Hasym : ∀ a b, sort_compare a b = true → sort_compare b a = false)
  (Htrans : ∀ a b c, sort_compare b a = false → sort_compare c b = false →
                     sort_compare c a = false) :
  Find predicate (Some sort_compare) m ≡ₚ Find predicate None m ∧
  ∀ i j hi hj oi oj,
    (i < j)%nat →
    Find predicate (Some sort_compare) m !! i = Some hi →
    Find predicate (Some sort_compare) m !! j = Some hj →
    Get hi m = Ok oi → Get hj m = Ok oj →
    sort_compare oj oi = false.
Proof.
  split; [apply FindFacts.Find_sorted_Permutation|].
  set (comp := Find_compare (items_ m) sort_compare).
  assert (Hs : StronglySorted (FindFacts.not_after comp)
                 (Find predicate (Some sort_compare) m)).
  { apply (FindFacts.std_sort_sorted comp (λ h, is_Some (items_ m !! h))).
    - intros a b [oa Ha] [ob Hb]. unfold comp, Find_compare. rewrite Ha, Hb.
      apply Hasym.
    - intros a b c [oa Ha] [ob Hb] [oc Hc]. unfold FindFacts.not_after, comp, Find_compare.
      rewrite Ha, Hb, Hc. apply Htrans.
    - apply Forall_forall. intros h Hh. by eapply (FindFacts.Find_handles_live _ None). }
  intros i j hi hj oi oj Hij Hi Hj Hoi%Get_lookup Hoj%Get_lookup.
  pose proof (FindFacts.StronglySorted_lookup_lt _ _ i j hi hj Hs Hij Hi Hj) as Hna.
  unfold FindFacts.not_after, comp, Find_compare in Hna. by rewrite Hoj, Hoi in Hna.
Qed.

End Registry.

(** The registry of [example_registry]: 5 stands for 7 and 11 for 6. *)
Definition small_registry : HandleMap nat := example_registry.1.

Definition small_registry_without_5 : HandleMap nat :=
  mkHandleMap CKR_OBJECT_HANDLE_INVALID (delete 5%N (items_ small_registry)).

Lemma remove_takes_one_binding_witness :
  Remove 5%N small_registry = (OkStatus, small_registry_without_5) ∧
  (∃ e, Get 5%N small_registry_without_5 = Err e ∧
        Remove 5%N small_registry_without_5 = (Err e, small_registry_without_5) ∧
        code e = kNotFound ∧ rv e = CKR_OBJECT_HANDLE_INVALID) ∧
  Get 11%N small_registry_without_5 = Ok 6 ∧
  size (items_ small_registry_without_5) = 1.
Proof.
  assert (Hremove : Remove 5%N small_registry = (OkStatus, small_registry_without_5)).
  { vm_compute. reflexivity. }
  split; [exact Hremove|].
  destruct (remove_takes_one_binding 5%N small_registry small_registry_without_5 Hremove)
    as (Hgone & Hframe & Hsize).
  split; [exact Hgone|]. split.
  - rewrite (Hframe 11%N); [vm_compute; reflexivity|]. intros Heq. discriminate Heq.
  - vm_compute. reflexivity.
Defined.

Lemma insert_then_remove_restores_witness :
  ∃ m', Add 3 [5%N; 4%N] small_registry = Some (4%N, m', []) ∧
        Get 4%N m' = Ok 3 ∧ Remove 4%N m' = (OkStatus, small_registry).
Proof.
  destruct (Add 3 [5%N; 4%N] small_registry) as [[[h m'] rest]|] eqn:HAdd.
  2: { exfalso. vm_compute in HAdd. discriminate HAdd. }
  destruct (insert_then_remove_restores small_registry) as [Hround _].
  pose proof (Hround _ _ _ _ _ HAdd) as Hremove.
  vm_compute in HAdd. injection HAdd as <- <- <-.
  eexists. split; [reflexivity|]. split; [vm_compute; reflexivity|exact Hremove].
Defined.

Lemma unknown_handle_not_found_witness :
  run example_ops (new_HandleMap CKR_OBJECT_HANDLE_INVALID, []) = Some example_registry ∧
  ∃ e, Get 9%N example_registry.1 = Err e ∧
       Remove 9%N example_registry.1 = (Err e, example_registry.1) ∧
       code e = kNotFound ∧ rv e = CKR_OBJECT_HANDLE_INVALID.
Proof.
  split; [apply example_registry_run|].
  apply (unknown_handle_not_found CKR_OBJECT_HANDLE_INVALID example_ops example_registry
           9%N example_registry_run).
  simpl. intros Hin. apply elem_of_cons in Hin as [Hin|Hin]; [discriminate Hin|].
  apply elem_of_cons in Hin as [Hin|Hin]; [discriminate Hin|].
  by apply elem_of_nil in Hin.
Defined.

Lemma find_follows_updates_witness :
  Find Nat.even None small_registry_without_5 ≡ₚ
    filter (λ h', h' ≠ 5%N) (Find Nat.even None small_registry) ∧
  Find Nat.even None small_registry_without_5 = [11%N].
Proof.
  destruct (find_follows_updates Nat.even small_registry) as (_ & _ & Hremove).
  split; [|vm_compute; reflexivity].
  apply Hremove. vm_compute. reflexivity.
Defined.

Lemma find_sorts_by_comparator_witness :
  Find (λ _, true) (Some Nat.ltb) small_registry = [11%N; 5%N] ∧
  Find (λ _, true) (Some Nat.ltb) small_registry ≡ₚ Find (λ _, true) None small_registry.
Proof.
  split; [vm_compute; reflexivity|].
  apply (find_sorts_by_comparator (λ _, true) Nat.ltb small_registry).
  - intros a b Hab. apply Nat.ltb_lt in Hab. apply Nat.ltb_ge. lia.
  - intros a b c Hba Hcb. apply Nat.ltb_ge in Hba, Hcb. apply Nat.ltb_ge. lia.
Defined.

End HandleMapMore.

(* ===================================================================== *)
(*  The token: sequences of logins, and the order of FindObjects         *)
(* ===================================================================== *)
Module TokenMore.
Import kms_v1 kmsp11 TokenFacts FindFacts.

Section Sessions.
Context `{Collaborators}.
Implicit Types (t : Token) (o : Object).

(** A sequence of Login and Logout calls, with the status of each. *)
Fixpoint login_run (ops : list login_op) (t : Token)
  : list (login_op * Status) * Token :=
  match ops with
  | [] => ([], t)
  | op :: ops' =>
      let r := login_step op t in
      let rest := login_run ops' r.2 in
      ((op, r.1) :: rest.1, rest.2)
  end.

Definition login_succeeded (c : login_op * Status) : bool :=
  match c.1 with OpLogin _ => ok c.2 | OpLogout => false end.

Definition logout_succeeded (c : login_op * Status) : bool :=
  match c.1 with OpLogin _ => false | OpLogout => ok c.2 end.

Definition count {A} (f : A → bool) (l : list A) : nat :=
  length (filter (λ x, f x = true) l).

Lemma count_cons {A} (f : A → bool) x l :
  count f (x :: l) = ((if f x then 1 else 0) + count f l)%nat.
Proof.
  unfold count. rewrite filter_cons.
  destruct (decide (f x = true)) as [->|Hne%not_true_is_false]; [done|].
  by rewrite Hne.
Qed.

Lemma login_step_cases op t :
  let r := login_step op t in
  slot_id_ r.2 = slot_id_ t ∧ objects_ r.2 = objects_ t ∧
  ((if login_succeeded (op, r.1) then 1 else 0) + Nat.b2n (is_logged_in t) =
   (if logout_succeeded (op, r.1) then 1 else 0) + Nat.b2n (is_logged_in r.2))%nat.
Proof.
  destruct op as [user|]; simpl; unfold login_succeeded, logout_succeeded; simpl.
  - unfold Login, is_logged_in. destruct (Login_switch user) as [[]|e]; [|done].
    destruct (is_logged_in_ t) eqn:Ht; simpl; rewrite ?Ht; by split_and!.
  - unfold Logout, is_logged_in.
    destruct (is_logged_in_ t) eqn:Ht; simpl; rewrite ?Ht; by split_and!.
Qed.

(** Logins and logouts pair up.  Over any sequence of Login and Logout
    calls the successful logins outnumber the successful logouts by
    exactly the change of the login flag, so on a token that starts
    logged out there is never more than one login without its logout;
    and no call of the sequence touches the slot id or the objects, so
    FindObjects answers the same before and after. *)
Theorem logins_and_logouts_pair_up ops t :
  let r := login_run ops t in
  (count login_succeeded r.1 + Nat.b2n (is_logged_in t) =
   count logout_succeeded r.1 + Nat.b2n (is_logged_in r.2))%nat ∧
  slot_id_ r.2 = slot_id_ t ∧ objects_ r.2 = objects_ t ∧
  (∀ predicate, FindObjects predicate r.2 = FindObjects predicate t).
Proof.
  revert t. induction ops as [|op ops IH]; intros t; simpl.
  - done.
  - destruct (login_step_cases op t) as (Hslot & Hobjects & Hcount).
    destruct (IH (login_step op t).2) as (IHcount & IHslot & IHobjects & IHfind).
    rewrite !count_cons. split_and!.
    + lia.
    + congruence.
    + congruence.
    + intros predicate. unfold FindObjects in *. by rewrite IHobjects, Hobjects.
Qed.

(** The comparator Token::FindObjects hands to std::sort is a strict
    weak ordering, as std::sort requires: no object goes before itself,
    no two objects go before each other, going before is transitive,
    and two objects neither of which goes before the other have the
    same key name and the same object class. *)
Theorem find_objects_compare_strict_weak_order :
  (∀ o, FindObjects_compare o o = false) ∧
  (∀ o1 o2, FindObjects_compare o1 o2 = true → FindObjects_compare o2 o1 = false) ∧
  (∀ o1 o2 o3,
     FindObjects_compare o1 o2 = true → FindObjects_compare o2 o3 = true →
     FindObjects_compare o1 o3 = true) ∧
  (∀ o1 o2,
     FindObjects_compare o1 o2 = false → FindObjects_compare o2 o1 = false →
     kms_key_name o1 = kms_key_name o2 ∧ object_class o1 = object_class o2).
Proof.
  split_and!.
  - intros o. apply FindObjects_compare_not_after. by right.
  - apply FindObjects_compare_asym.
  - intros o1 o2 o3 H12 H23.
    destruct (FindObjects_compare o1 o3) eqn:H13; [done|]. exfalso.
    apply FindObjects_compare_not_after in H13.
    apply FindObjects_compare_asym, FindObjects_compare_not_after in H12.
    pose proof (object_le_trans _ _ _ H13 H12) as H32.
    apply FindObjects_compare_not_after in H32. congruence.
  - intros o1 o2 H12%FindObjects_compare_not_after H21%FindObjects_compare_not_after.
    unfold object_le in *. rewrite !string_ltb_lt in H12, H21.
    destruct H12 as [L21|[E21 C21]], H21 as [L12|[E12 C12]].
    + pose proof (string_compare_lt_trans _ _ _ L12 L21) as Hrefl.
      by rewrite string_compare_refl in Hrefl.
    + rewrite E12, string_compare_refl in L21. done.
    + rewrite E21, string_compare_refl in L12. done.
    + split; [done|]. by apply N.le_antisymm.
Qed.

End Sessions.

(** Two arrangements of the same elements in an order that is
    antisymmetric on them are the same list. *)
Lemma sorted_Permutation_unique {A} (R : A → A → Prop) (P : A → Prop) (l k : list A) :
  (∀ x y, P x → P y → R x y → R y x → x = y) →
  Forall P l → StronglySorted R l → StronglySorted R k → l ≡ₚ k → l = k.
Proof.
  intros Hanti Pl Hl. revert k. induction Hl as [|x l Hl IH Hx]; intros k Hk Hperm.
  - by apply Permutation_nil_l in Hperm.
  - destruct Hk as [|y k Hk Hy]; [by apply Permutation_nil_r in Hperm|].
    apply Forall_cons in Pl as [Px Pl].
    assert (Py : P y).
    { assert (Hin : y ∈ x :: l) by (rewrite Hperm; left).
      apply elem_of_cons in Hin as [->|Hin]; [done|].
      rewrite Forall_forall in Pl. by apply Pl. }
    assert (x = y) as <-.
    { assert (Hxk : x ∈ y :: k) by (rewrite <- Hperm; left).
      assert (Hyl : y ∈ x :: l) by (rewrite Hperm; left).
      apply elem_of_cons in Hxk as [?|Hxk]; [done|].
      apply elem_of_cons in Hyl as [?|Hyl]; [done|].
      rewrite Forall_forall in Hx, Hy. apply Hanti; auto. }
    f_equal. apply IH; [done|done|]. by apply Permutation_cons_inv in Hperm.
Qed.

Section Canonical.
Context `{Collaborators}.
Implicit Types (t : Token) (o : Object).

Lemma object_le_antisym o1 o2 :
  object_le o1 o2 → object_le o2 o1 →
  kms_key_name o1 = kms_key_name o2 ∧ object_class o1 = object_class o2.
Proof.
  unfold object_le. rewrite !string_ltb_lt.
  intros [L12|[E12 C12]] [L21|[E21 C21]].
  - pose proof (string_compare_lt_trans _ _ _ L12 L21) as Hrefl.
    by rewrite string_compare_refl in Hrefl.
  - rewrite E21, string_compare_refl in L12. done.
  - rewrite E12, string_compare_refl in L21. done.
  - split; [done|]. by apply N.le_antisymm.
Qed.

(** The handles go in the order of their objects. *)
Definition in_object_order t (h1 h2 : CK_OBJECT_HANDLE) : Prop :=
  ∀ o1 o2, Get h1 (objects_ t) = Ok o1 → Get h2 (objects_ t) = Ok o2 →
           String.ltb (kms_key_name o1) (kms_key_name o2) = true ∨
           (kms_key_name o1 = kms_key_name o2 ∧ (object_class o1 ≤ object_class o2)%N).

(** When no two matching objects have both the same key name and the
    same object class, the list FindObjects returns is the only
    arrangement of the matching handles in the order of the comparator:
    the result does not depend on the iteration order of the hash map,
    nor on how std::sort places the elements. *)
Theorem find_objects_order_is_canonical predicate t (l : list CK_OBJECT_HANDLE)
  (Hdistinct : ∀ h1 h2 o1 o2,
     Get h1 (objects_ t) = Ok o1 → Get h2 (objects_ t) = Ok o2 →
     predicate o1 = true → predicate o2 = true →
     kms_key_name o1 = kms_key_name o2 → object_class o1 = object_class o2 →
     h1 = h2)
  (Hsame : l ≡ₚ FindObjects predicate t)
  (Hsorted : StronglySorted (in_object_order t) l) :
  l = FindObjects predicate t.
Proof.
  set (P := λ h, ∃ o, Get h (objects_ t) = Ok o ∧ predicate o = true).
  apply (sorted_Permutation_unique (in_object_order t) P); [| |done| |done].
  - intros h1 h2 (o1 & Hg1 & Hp1) (o2 & Hg2 & Hp2) H12 H21.
    destruct (object_le_antisym o1 o2) as [Hname Hclass].
    + by apply H12.
    + by apply H21.
    + by apply (Hdistinct h1 h2 o1 o2).
  - apply Forall_forall. intros h Hh. rewrite Hsame in Hh. unfold FindObjects in Hh.
    rewrite Find_sorted_Permutation in Hh. by apply Find_unsorted_elem in Hh.
  - eapply StronglySorted_mono; [|apply FindObjects_StronglySorted].
    intros h1 h2 Hle o1 o2 Hg1%HandleMapMore.Get_lookup Hg2%HandleMapMore.Get_lookup.
    by apply Hle.
Qed.

End Canonical.

(** The login calls of a session: a login, a second login, a login as
    security officer, a logout, a second logout. *)
Definition session : list login_op :=
  [OpLogin CKU_USER; OpLogin CKU_USER; OpLogin CKU_SO; OpLogout; OpLogout].

Lemma logins_and_logouts_pair_up_witness :
  ok <$> (login_run (H := toy) session toy_token).1.*2 = [true; false; false; true; false] ∧
  count login_succeeded (login_run (H := toy) session toy_token).1 = 1%nat ∧
  count logout_succeeded (login_run (H := toy) session toy_token).1 = 1%nat ∧
  is_logged_in (login_run (H := toy) session toy_token).2 = false.
Proof.
  destruct (logins_and_logouts_pair_up (H := toy) session toy_token) as (Hcount & _).
  split; [vm_compute; reflexivity|].
  assert (Hin : count login_succeeded (login_run (H := toy) session toy_token).1 = 1%nat).
  { vm_compute. reflexivity. }
  assert (Hflag : is_logged_in (login_run (H := toy) session toy_token).2 = false).
  { vm_compute. reflexivity. }
  split; [exact Hin|]. split; [|exact Hflag].
  rewrite Hin, Hflag in Hcount.
  change (is_logged_in toy_token) with false in Hcount.
  cbn [Nat.b2n] in Hcount. lia.
Defined.

(** The public and the private key of one key version. *)
Definition pair_token : Token (H := toy) :=
  Token_ctor (H := toy) 0
    (mkHandleMap CKR_OBJECT_HANDLE_INVALID
       (<[1%N := ("k/1", CKO_PRIVATE_KEY)]> (<[2%N := ("k/1", CKO_PUBLIC_KEY)]> ∅))).

Lemma pair_token_objects h o :
  Get h (objects_ pair_token) = Ok o →
  (h = 1%N ∧ o = ("k/1", CKO_PRIVATE_KEY)) ∨ (h = 2%N ∧ o = ("k/1", CKO_PUBLIC_KEY)).
Proof.
  intros Hget%HandleMapMore.Get_lookup. simpl in Hget.
  apply lookup_insert_Some in Hget as [[<- <-]|[_ Hget]]; [by left|].
  apply lookup_insert_Some in Hget as [[<- <-]|[_ Hget]]; [by right|].
  by rewrite lookup_empty in Hget.
Qed.

Lemma find_objects_order_is_canonical_witness :
  [2%N; 1%N] = FindObjects (H := toy) (λ _, true) pair_token.
Proof.
  apply (find_objects_order_is_canonical (H := toy)).
  - intros h1 h2 o1 o2 [[-> ->]|[-> ->]]%pair_token_objects
      [[-> ->]|[-> ->]]%pair_token_objects _ _ _ Hclass; try done.
  - vm_compute FindObjects. reflexivity.
  - apply SSorted_cons; [apply SSorted_cons; [apply SSorted_nil|apply Forall_nil_2]|].
    apply Forall_cons. split; [|apply Forall_nil_2].
    intros o1 o2 [[? ->]|[_ ->]]%pair_token_objects [[_ ->]|[? ->]]%pair_token_objects;
      try done.
    right. split; [done|]. by vm_compute.
Defined.

End TokenMore.

(* ===================================================================== *)
(*  The object store loader: what it reads, and foreign snapshots        *)
(* ===================================================================== *)
Module LoaderMore.
Import kms_v1 kmsp11 LoaderFacts.

Section Loader.
Context `{Collaborators}.
Implicit Types (b : ObjectStoreBuilder) (w : World) (client : KmsClient).
Implicit Types (key : AsymmetricKey) (objects : HandleMap Object).

Lemma LoadVersions_loop_agree client1 client2 v :
  (∀ ckv, Ok ckv ∈ v → version_supported ckv = true →
          GetPublicKey client1 (ckv_name ckv) = GetPublicKey client2 (ckv_name ckv)) →
  ∀ b w, LoadVersions_loop client1 v b w = LoadVersions_loop client2 v b w.
Proof.
  induction v as [|[ckv|e] v IH]; intros Hpub b w; [done| |done].
  assert (IH' : ∀ b w, LoadVersions_loop client1 v b w = LoadVersions_loop client2 v b w).
  { apply IH. intros ckv' Hin. apply Hpub. by right. }
  rewrite !LoadVersions_loop_step. destruct (version_supported ckv) eqn:Hs.
  - rewrite (Hpub ckv) by (done || by left).
    unfold mbind, M_bind, bind, lift.
    destruct (GetPublicKey client2 (ckv_name ckv)) as [pub|]; [|done].
    by destruct (AddAsymmetricKey ckv pub b w) as [[[b'|] w']|].
  - unfold mbind, M_bind, bind.
    by destruct ((match version_log ckv with l :: _ => LOG l | [] => mret tt end) w)
      as [[[[]|] w']|].
Qed.

Lemma key_log_excluded client1 client2 (k : CryptoKey) :
  key_supported k = false → key_log client1 k = key_log client2 k.
Proof. unfold key_supported, key_log. by repeat case_bool_decide. Qed.

Lemma LoadState_loop_agree client1 client2 keys :
  (∀ k, Ok k ∈ keys → key_supported k = true →
        ListCryptoKeyVersions client1 (ck_name k) =
        ListCryptoKeyVersions client2 (ck_name k)) →
  (∀ k ckv, Ok k ∈ keys → key_supported k = true →
            Ok ckv ∈ ListCryptoKeyVersions client1 (ck_name k) →
            version_supported ckv = true →
            GetPublicKey client1 (ckv_name ckv) = GetPublicKey client2 (ckv_name ckv)) →
  ∀ b w, LoadState_loop client1 keys b w = LoadState_loop client2 keys b w.
Proof.
  induction keys as [|[k|e] keys IH]; intros Hversions Hpub b w; [done| |done].
  assert (IH' : ∀ b w, LoadState_loop client1 keys b w = LoadState_loop client2 keys b w).
  { apply IH.
    - intros k' Hin. apply Hversions. by right.
    - intros k' ckv Hin. apply Hpub. by right. }
  rewrite !LoadState_loop_step. destruct (key_supported k) eqn:Hk.
  - unfold LoadVersions. rewrite <- (Hversions k) by (done || by left).
    unfold mbind, M_bind, bind.
    rewrite (LoadVersions_loop_agree client1 client2).
    2: { intros ckv Hin. apply (Hpub k); [by left|done|done]. }
    by destruct (LoadVersions_loop client2 _ b w) as [[[b'|] w']|].
  - rewrite (key_log_excluded client1 client2) by done.
    unfold mbind, M_bind, bind.
    by destruct ((match key_log client2 k with l :: _ => LOG l | [] => mret tt end) w)
      as [[[[]|] w']|].
Qed.

(** LoadState reads of the remote service only what it retains: two
    services that list the same keys of the key ring, the same versions
    of each of its keys at protection level HSM with purpose asymmetric
    sign or decrypt, and return the same public key for each enabled
    version with a supported algorithm of those keys, give the same
    outcome, snapshot, log and handles.  The versions of an excluded key
    are not listed and the public key of an excluded version is not
    fetched. *)
Theorem load_state_reads_only_retained client1 client2 key_ring_name generate_certs w
  (Hkeys : ListCryptoKeys client1 key_ring_name = ListCryptoKeys client2 key_ring_name)
  (Hversions : ∀ k,
     Ok k ∈ ListCryptoKeys client1 key_ring_name → key_supported k = true →
     ListCryptoKeyVersions client1 (ck_name k) =
     ListCryptoKeyVersions client2 (ck_name k))
  (Hpub : ∀ k ckv,
     Ok k ∈ ListCryptoKeys client1 key_ring_name → key_supported k = true →
     Ok ckv ∈ ListCryptoKeyVersions client1 (ck_name k) →
     version_supported ckv = true →
     GetPublicKey client1 (ckv_name ckv) = GetPublicKey client2 (ckv_name ckv)) :
  LoadState client1 key_ring_name generate_certs w =
  LoadState client2 key_ring_name generate_certs w.
Proof.
  unfold LoadState, mbind, M_bind, bind.
  destruct (ObjectStoreBuilder_New generate_certs w) as [[[b0|] w0]|]; [|done|done].
  rewrite <- Hkeys.
  by rewrite (LoadState_loop_agree client1 client2 _ Hversions Hpub).
Qed.

Lemma RETURN_IF_ERROR_AddDirect h (o : Object) objects objects' :
  RETURN_IF_ERROR (AddDirect h o objects) = Ok objects' →
  items_ objects !! h = None ∧
  objects' = mkHandleMap (not_found_rv_ objects) (<[h := o]> (items_ objects)).
Proof.
  unfold AddDirect. destruct (items_ objects !! h); [done|]. by intros [= <-].
Qed.

Lemma LoadObjects_key_ok key objects objects' :
  LoadObjects_key key objects = Ok objects' →
  NoDup (key_handles key) ∧
  (∀ h, h ∈ key_handles key → items_ objects !! h = None) ∧
  (∀ h, items_ objects' !! h = None → items_ objects !! h = None) ∧
  (∀ h, h ∈ key_handles key → is_Some (items_ objects' !! h)).
Proof.
  unfold LoadObjects_key, key_handles, mbind, StatusOr_bind.
  destruct (ParseX509PublicKeyDer _) as [pub|]; [|done].
  destruct (NewKeyPair _ _) as [kp|]; [|done].
  destruct (RETURN_IF_ERROR (AddDirect (public_key_handle key) _ objects))
    as [objects1|] eqn:H1; [|done].
  apply RETURN_IF_ERROR_AddDirect in H1 as [Hpub ->].
  destruct (RETURN_IF_ERROR (AddDirect (private_key_handle key) _ _))
    as [objects2|] eqn:H2; [|done].
  apply RETURN_IF_ERROR_AddDirect in H2 as [Hpriv ->]. simpl in Hpriv.
  apply lookup_insert_None in Hpriv as [Hpriv Hne1].
  destruct (certificate key) as [c|].
  - destruct (ParseX509CertificateDer _) as [x|]; [|done].
    destruct (NewCertificate _ _) as [cert|]; [|done].
    intros [Hcert ->]%RETURN_IF_ERROR_AddDirect. simpl in Hcert.
    apply lookup_insert_None in Hcert as [Hcert Hne2].
    apply lookup_insert_None in Hcert as [Hcert Hne3]. split_and!.
    + repeat (apply NoDup_cons; split); [set_solver|set_solver|set_solver|apply NoDup_nil_2].
    + intros h. rewrite !elem_of_cons, elem_of_nil. by intros [->|[->|[->|?]]].
    + intros h. simpl. rewrite !lookup_insert_None. tauto.
    + intros h. simpl. rewrite !elem_of_cons, elem_of_nil.
      intros [->|[->|[->|?]]]; [| | |done].
      * rewrite lookup_insert_ne, lookup_insert_ne, lookup_insert_eq by done. by eexists.
      * rewrite lookup_insert_ne, lookup_insert_eq by done. by eexists.
      * rewrite lookup_insert_eq. by eexists.
  - intros [= <-]. split_and!.
    + repeat (apply NoDup_cons; split); [set_solver|set_solver|apply NoDup_nil_2].
    + intros h. rewrite !elem_of_cons, elem_of_nil. by intros [->|[->|?]].
    + intros h. simpl. rewrite !lookup_insert_None. tauto.
    + intros h. simpl. rewrite !elem_of_cons, elem_of_nil.
      intros [->|[->|?]]; [| |done].
      * rewrite lookup_insert_ne, lookup_insert_eq by done. by eexists.
      * rewrite lookup_insert_eq. by eexists.
Qed.

Lemma LoadObjects_loop_ok (keys : list AsymmetricKey) objects objects' :
  LoadObjects_loop keys objects = Ok objects' →
  NoDup (keys ≫= key_handles) ∧
  (∀ h, h ∈ keys ≫= key_handles → items_ objects !! h = None) ∧
  (∀ h, items_ objects' !! h = None → items_ objects !! h = None).
Proof.
  revert objects. induction keys as [|key keys IH]; intros objects.
  - intros [= <-]. split_and!; [constructor|by intros h ?%elem_of_nil|done].
  - rewrite bind_cons. cbn [LoadObjects_loop]. unfold mbind at 1, StatusOr_bind at 1.
    destruct (LoadObjects_key key objects) as [objects1|] eqn:Hkey; [|done].
    apply LoadObjects_key_ok in Hkey as (Hnd & Hfresh & Hgrow & Hlive).
    intros (IHnd & IHfresh & IHgrow)%IH. split_and!.
    + apply NoDup_app. split_and!; [done| |done].
      intros h Hk Hr. destruct (Hlive h Hk) as [o Ho].
      by rewrite (IHfresh h Hr) in Ho.
    + intros h [Hk|Hr]%elem_of_app; [by apply Hfresh|]. by apply Hgrow, IHfresh.
    + intros h Hh. by apply Hgrow, IHgrow.
Qed.

(** LoadObjects accepts a snapshot, wherever it comes from, only when
    its handles are pairwise distinct: no object takes the handle of
    another.  The registry it returns then has exactly the handles of
    the snapshot, one entry for each, reports unknown handles with
    CKR_OBJECT_HANDLE_INVALID, and holds the objects of every entry at
    the handles the entry stores. *)
Theorem load_objects_needs_distinct_handles (st : ObjectStoreState) objects
  (Hload : LoadObjects st = Ok objects) :
  NoDup (handles_of st) ∧
  dom (items_ objects) = list_to_set (handles_of st) ∧
  size (items_ objects) = length (handles_of st) ∧
  not_found_rv_ objects = CKR_OBJECT_HANDLE_INVALID ∧
  Forall (λ key, materializes key objects) (asymmetric_keys st).
Proof.
  pose proof Hload as (Hnd & _)%LoadObjects_loop_ok. fold (handles_of st) in Hnd.
  rewrite (LoadObjects_run st Hnd) in Hload. unfold mbind, StatusOr_bind in Hload.
  destruct (snapshot_objects (asymmetric_keys st)) as [bs|] eqn:Hbs; [|done].
  injection Hload as <-. simpl.
  pose proof (snapshot_objects_handles _ _ Hbs) as Hh. fold (handles_of st) in Hh.
  split_and!; [done| | |done|].
  - by rewrite dom_list_to_map_L, Hh.
  - rewrite map_size_list_to_map by (by rewrite Hh). by rewrite <- Hh, length_fmap.
  - apply Forall_forall. intros key Hkey.
    destruct (snapshot_objects_elem _ _ _ Hbs Hkey) as (kbs & Hkbs & Hsub).
    apply (entry_objects_materializes key kbs); [done|].
    intros h o Hin%Hsub. unfold Get. simpl.
    by rewrite (elem_of_list_to_map_1 bs h o) by (by rewrite ?Hh).
Qed.

Lemma RETURN_IF_ERROR_AddDirect_err h (o : Object) objects e :
  RETURN_IF_ERROR (AddDirect h o objects) = Err e →
  e = mkError kInternal CKR_GENERAL_ERROR
        ("handle " ++ fmt_hex h ++ " is already in use")%string.
Proof.
  unfold AddDirect. destruct (items_ objects !! h); [|done]. by intros [= <-].
Qed.

Lemma LoadObjects_key_err key objects e :
  LoadObjects_key key objects = Err e →
  entry_objects key = Err e ∨
  ∃ h, h ∈ key_handles key ∧
       e = mkError kInternal CKR_GENERAL_ERROR
             ("handle " ++ fmt_hex h ++ " is already in use")%string.
Proof.
  unfold LoadObjects_key, entry_objects, key_handles, mbind, StatusOr_bind.
  destruct (ParseX509PublicKeyDer _) as [pub|]; [|intros [= ->]; by left].
  destruct (NewKeyPair _ _) as [kp|]; [|intros [= ->]; by left].
  destruct (RETURN_IF_ERROR (AddDirect (public_key_handle key) _ objects))
    as [objects1|e1] eqn:H1.
  2: { intros [= ->]. apply RETURN_IF_ERROR_AddDirect_err in H1.
       right. exists (public_key_handle key). split; [by left|done]. }
  destruct (RETURN_IF_ERROR (AddDirect (private_key_handle key) _ _))
    as [objects2|e2] eqn:H2.
  2: { intros [= ->]. apply RETURN_IF_ERROR_AddDirect_err in H2.
       right. exists (private_key_handle key). split; [by right; left|done]. }
  destruct (certificate key) as [c|]; [|done].
  destruct (ParseX509CertificateDer _) as [x|]; [|intros [= ->]; by left].
  destruct (NewCertificate _ _) as [cert|]; [|intros [= ->]; by left].
  intros Hc%RETURN_IF_ERROR_AddDirect_err.
  right. exists (handle c). split; [by right; right; left|done].
Qed.

Lemma LoadObjects_loop_err (keys : list AsymmetricKey) objects e :
  LoadObjects_loop keys objects = Err e →
  (∃ key, key ∈ keys ∧ entry_objects key = Err e) ∨
  ∃ h, h ∈ keys ≫= key_handles ∧
       e = mkError kInternal CKR_GENERAL_ERROR
             ("handle " ++ fmt_hex h ++ " is already in use")%string.
Proof.
  revert objects. induction keys as [|key keys IH]; intros objects; [done|].
  rewrite bind_cons. cbn [LoadObjects_loop]. unfold mbind at 1, StatusOr_bind at 1.
  destruct (LoadObjects_key key objects) as [objects1|e1] eqn:Hkey.
  - intros [(key' & Hin & Herr)|(h & Hin & Herr)]%IH.
    + left. exists key'. split; [by right|done].
    + right. exists h. split; [|done]. apply elem_of_app. by right.
  - intros [= ->]. apply LoadObjects_key_err in Hkey as [Herr|(h & Hin & Herr)].
    + left. exists key. split; [by left|done].
    + right. exists h. split; [|done]. apply elem_of_app. by left.
Qed.

(** A snapshot in which two objects share a handle is refused: when the
    objects of every entry can be built and the handles of the snapshot
    are not pairwise distinct, LoadObjects fails with the Internal
    "already in use" error of AddDirect for one of its handles. *)
Theorem load_objects_shared_handle_fails (st : ObjectStoreState)
  (Hbuilt : Forall (λ key, ok (entry_objects key) = true) (asymmetric_keys st))
  (Hshared : ¬ NoDup (handles_of st)) :
  ∃ h, h ∈ handles_of st ∧
       LoadObjects st =
         Err (mkError kInternal CKR_GENERAL_ERROR
                ("handle " ++ fmt_hex h ++ " is already in use")%string).
Proof.
  destruct (LoadObjects st) as [objects|e] eqn:Hload.
  { by apply LoadObjects_loop_ok in Hload as (Hnd & _). }
  apply LoadObjects_loop_err in Hload as [(key & Hin & Herr)|(h & Hin & ->)].
  - rewrite Forall_forall in Hbuilt. specialize (Hbuilt key Hin).
    by rewrite Herr in Hbuilt.
  - by exists h.
Qed.

Lemma key_handles_length key :
  length (key_handles key) = match certificate key with Some _ => 3%nat | None => 2%nat end.
Proof. unfold key_handles. by destruct (certificate key). Qed.

Lemma authority_certificates (generate_certs : bool) (ca : option CertAuthority) :
  authority generate_certs = Ok ca → (is_Some ca ↔ generate_certs = true).
Proof.
  unfold authority. destruct generate_certs.
  - destruct CertAuthority_New; intros [= <-]. split; [done|by eexists].
  - intros [= <-]. split; [by intros [? ?]|done].
Qed.

(** A token has two objects for each key version it retains, and three
    when certificates are generated: in a snapshot LoadState returns
    every entry has a certificate exactly when certificates were asked
    for, and the registry LoadObjects builds from it has two, or three,
    entries for each retained version. *)
Theorem objects_per_retained_version client key_ring_name generate_certs w st w' objects
  (Hstate : LoadState client key_ring_name generate_certs w = Some (Ok st, w'))
  (Hobjects : LoadObjects st = Ok objects) :
  Forall (λ key, is_Some (certificate key) ↔ generate_certs = true)
    (asymmetric_keys st) ∧
  size (items_ objects) =
    ((if generate_certs then 3 else 2) *
     length (retained_versions client (oks (ListCryptoKeys client key_ring_name))))%nat.
Proof.
  apply LoadState_run in Hstate as (ca & Hca%authority_certificates & _ & _ & Hloads & _ & Hnd).
  assert (Hcert : Forall (λ key, is_Some (certificate key) ↔ generate_certs = true)
                    (asymmetric_keys st)).
  { apply Forall_forall. intros key Hkey.
    destruct (list_elem_of_lookup_1 _ _ Hkey) as [i Hi].
    destruct (Forall2_lookup_r _ _ _ _ _ Hloads Hi) as (ckv & _ & pk & _ & _ & pub & _ & _ & Hc).
    rewrite <- Hca. destruct ca as [a|].
    - destruct Hc as (x & c & _ & -> & _). split; by eexists.
    - rewrite Hc. split; by intros [? ?]. }
  split; [exact Hcert|].
  rewrite (LoadObjects_run st Hnd) in Hobjects. unfold mbind, StatusOr_bind in Hobjects.
  destruct (snapshot_objects (asymmetric_keys st)) as [bs|] eqn:Hbs; [|done].
  injection Hobjects as <-. simpl.
  pose proof (snapshot_objects_handles _ _ Hbs) as Hh. fold (handles_of st) in Hh.
  rewrite map_size_list_to_map by (by rewrite Hh).
  rewrite <- (length_fmap fst bs), Hh, (Forall2_length _ _ _ Hloads).
  unfold handles_of. clear -Hcert. induction Hcert as [|key keys Hkey _ IH]; [simpl; lia|].
  rewrite bind_cons, length_app, IH, key_handles_length. simpl length.
  destruct generate_certs, (certificate key) as [c|]; try lia.
  - destruct Hkey as [_ Hc]. by destruct Hc.
  - destruct Hkey as [Hc _]. by discriminate Hc.
Qed.

Lemma LoadObjects_ok_dom (st : ObjectStoreState) objects :
  LoadObjects st = Ok objects →
  NoDup (handles_of st) ∧ dom (items_ objects) = list_to_set (handles_of st).
Proof.
  intros Hload. pose proof Hload as (Hnd & _)%LoadObjects_loop_ok.
  fold (handles_of st) in Hnd. split; [done|].
  rewrite (LoadObjects_run st Hnd) in Hload. unfold mbind, StatusOr_bind in Hload.
  destruct (snapshot_objects (asymmetric_keys st)) as [bs|] eqn:Hbs; [|done].
  injection Hload as <-. simpl.
  pose proof (snapshot_objects_handles _ _ Hbs) as Hh. fold (handles_of st) in Hh.
  by rewrite dom_list_to_map_L, Hh.
Qed.

(** On a token whose objects LoadObjects has built from a snapshot,
    FindObjects with the predicate that holds of every object returns
    the handles stored in the snapshot, each once and no other. *)
Theorem find_objects_finds_loaded_handles (st : ObjectStoreState) (t : Token)
  (Hload : LoadObjects st = Ok (objects_ t)) :
  FindObjects (λ _, true) t ≡ₚ handles_of st.
Proof.
  apply LoadObjects_ok_dom in Hload as [Hnd Hdom].
  apply NoDup_Permutation; [|done|].
  - unfold FindObjects. rewrite FindFacts.Find_sorted_Permutation.
    apply FindFacts.Find_unsorted_NoDup.
  - intros h. unfold FindObjects.
    rewrite FindFacts.Find_sorted_Permutation, FindFacts.Find_unsorted_elem.
    rewrite <- (elem_of_list_to_set (C := gset CK_OBJECT_HANDLE)), <- Hdom, elem_of_dom.
    unfold Get. destruct (items_ (objects_ t) !! h) as [o|]; split.
    + by eexists.
    + intros _. by exists o.
    + by intros (? & ? & _).
    + by intros [? ?].
Qed.

End Loader.

(** A service that differs from [toy_client] only in what LoadState does
    not retain: it fails to list the versions of the software key and to
    return the public key of the disabled version. *)
Definition other_client : KmsClient := {|
  ListCryptoKeys := ListCryptoKeys toy_client;
  ListCryptoKeyVersions parent :=
    if String.eqb parent "ring/soft"
    then [Err (TokenFacts.toy_error "unavailable")]
    else ListCryptoKeyVersions toy_client parent;
  GetPublicKey name :=
    if String.eqb name "ring/sign/2"
    then Err (TokenFacts.toy_error "unavailable")
    else GetPublicKey toy_client name
|}.

Lemma load_state_reads_only_retained_witness :
  GetPublicKey other_client "ring/sign/2" ≠ GetPublicKey toy_client "ring/sign/2" ∧
  LoadState (H := TokenFacts.toy) toy_client "ring" true toy_world =
  LoadState (H := TokenFacts.toy) other_client "ring" true toy_world.
Proof.
  split; [intros Heq; discriminate Heq|].
  apply (load_state_reads_only_retained (H := TokenFacts.toy)).
  - reflexivity.
  - intros k Hk Hs. simpl in Hk.
    repeat (apply elem_of_cons in Hk as [Hk|Hk]; [injection Hk as ->|]);
      [reflexivity|discriminate Hs|reflexivity|reflexivity|by apply elem_of_nil in Hk].
  - intros k ckv Hk Hs Hv Hvs. simpl in Hk.
    repeat (apply elem_of_cons in Hk as [Hk|Hk]; [injection Hk as ->|]);
      [|discriminate Hs|discriminate Hs| |by apply elem_of_nil in Hk].
    + vm_compute in Hv.
      repeat (apply elem_of_cons in Hv as [Hv|Hv]; [injection Hv as ->|]);
        [reflexivity|discriminate Hvs|discriminate Hvs|by apply elem_of_nil in Hv].
    + vm_compute in Hv.
      repeat (apply elem_of_cons in Hv as [Hv|Hv]; [injection Hv as ->|]);
        [reflexivity|by apply elem_of_nil in Hv].
Defined.

Definition loaded_objects : HandleMap (Object (Collaborators := TokenFacts.toy)) :=
  Eval vm_compute in
  match LoadObjects (H := TokenFacts.toy) toy_state with
  | Ok objects => objects
  | Err _ => new_HandleMap CKR_OBJECT_HANDLE_INVALID
  end.

Lemma loaded_objects_run : LoadObjects (H := TokenFacts.toy) toy_state = Ok loaded_objects.
Proof. vm_compute. reflexivity. Qed.

Lemma load_objects_needs_distinct_handles_witness :
  LoadObjects (H := TokenFacts.toy) toy_state = Ok loaded_objects ∧
  NoDup (handles_of toy_state) ∧ size (items_ loaded_objects) = 6%nat.
Proof.
  split; [exact loaded_objects_run|].
  destruct (load_objects_needs_distinct_handles (H := TokenFacts.toy)
              toy_state loaded_objects loaded_objects_run) as (Hnd & _ & Hsize & _).
  split; [exact Hnd|]. rewrite Hsize. vm_compute. reflexivity.
Defined.

(** A snapshot whose one entry stores the same handle for its public and
    its private key. *)
Definition clashing_state : ObjectStoreState :=
  mkObjectStoreState
    [mkAsymmetricKey (mkCryptoKeyVersion "ring/sign/1" ENABLED EC_SIGN_P256_SHA256 HSM)
       1%N 1%N (list_byte_of_string "key") None].

Lemma load_objects_shared_handle_fails_witness :
  LoadObjects (H := TokenFacts.toy) clashing_state =
    Err (mkError kInternal CKR_GENERAL_ERROR "handle 0x1 is already in use").
Proof.
  destruct (load_objects_shared_handle_fails (H := TokenFacts.toy) clashing_state)
    as (h & Hh & Hload).
  - repeat constructor.
  - intros Hnd. apply NoDup_cons in Hnd as [Hnot _]. apply Hnot. left.
  - vm_compute in Hh.
    repeat (apply elem_of_cons in Hh as [Hh|Hh]; [subst h; exact Hload|]).
    by apply elem_of_nil in Hh.
Defined.

Lemma objects_per_retained_version_witness :
  Forall (λ key, is_Some (certificate key) ↔ true = true) (asymmetric_keys toy_state) ∧
  size (items_ loaded_objects) = (3 * 2)%nat.
Proof.
  destruct toy_LoadState as [w' Hstate].
  destruct (objects_per_retained_version (H := TokenFacts.toy) toy_client "ring" true
              toy_world toy_state w' loaded_objects Hstate loaded_objects_run) as [Hcert Hsize].
  split; [exact Hcert|]. rewrite Hsize. vm_compute. reflexivity.
Defined.

Lemma find_objects_finds_loaded_handles_witness :
  FindObjects (H := TokenFacts.toy) (λ _, true)
    (Token_ctor (H := TokenFacts.toy) 0 loaded_objects) ≡ₚ [8; 7; 9; 11; 10; 12]%N.
Proof.
  apply (find_objects_finds_loaded_handles (H := TokenFacts.toy) toy_state
           (Token_ctor (H := TokenFacts.toy) 0 loaded_objects)).
  exact loaded_objects_run.
Defined.

End LoaderMore.

(* ===================================================================== *)
(*  The CNG provider bridge: opening, the order of the checks, and the   *)
(*  paths on which a call succeeds                                       *)
(* ===================================================================== *)
Module BridgeMore.
Import kms_v1 kmscng BridgeFacts.
Local Open Scope Z_scope.

Section EntryPoints.
Context `{Environment}.
Implicit Types (st : Heap) (e : ErrorInfo) (value buffer : bytes).

(** OpenProvider succeeds exactly when the handle pointer is not null,
    the name is the name of this provider and the flags are 0 or
    NCRYPT_SILENT_FLAG.  It then puts a newly constructed Provider at
    the address [new] returns, changes nothing else on the heap, and
    writes that address to the handle pointer.  Otherwise it fails
    InvalidArgument and leaves the heap and the memory behind the handle
    pointer as they were: with NTE_INVALID_PARAMETER for a null handle
    pointer or any other name (a null name included), whatever the
    flags are, and with NTE_BAD_FLAGS only when pointer and name are in
    order. *)
Theorem open_provider_checks st a phProvider pszProviderName dwFlags :
  match OpenProvider st a phProvider pszProviderName dwFlags with
  | (Ok _, st', out) =>
      is_Some phProvider ∧ pszProviderName = Some kProviderName ∧
      (dwFlags = 0 ∨ dwFlags = NCRYPT_SILENT_FLAG) ∧
      st' = mkHeap (<[a := Provider_ctor]> (providers st)) (objects st) ∧
      out = Some a
  | (Err e, st', out) =>
      st' = st ∧ out = phProvider ∧ code e = kInvalidArgument ∧
      (((phProvider = None ∨ pszProviderName ≠ Some kProviderName) ∧
        rv e = NTE_INVALID_PARAMETER) ∨
       (is_Some phProvider ∧ pszProviderName = Some kProviderName ∧
        ¬ (dwFlags = 0 ∨ dwFlags = NCRYPT_SILENT_FLAG) ∧ rv e = NTE_BAD_FLAGS))
  end.
Proof.
  unfold OpenProvider. destruct phProvider as [old|].
  2: { split_and!; try done. left. split; [by left|done]. }
  destruct pszProviderName as [name|].
  2: { split_and!; try done. left. split; [by right|done]. }
  destruct (String.eqb_spec name kProviderName) as [->|Hname]; simpl.
  2: { split_and!; try done. left. split; [right; congruence|done]. }
  destruct (ValidateFlags dwFlags) as [[]|e] eqn:Hflags.
  - apply ValidateFlags_ok in Hflags. by split_and!.
  - pose proof (ValidateFlags_err _ _ Hflags) as [Hcode Hrv].
    split_and!; try done. right. split_and!; try done.
    intros Hok%ValidateFlags_ok. congruence.
Qed.

(** OpenKey writes to the key-handle pointer only when it succeeds, and
    then the address of the object it has opened; it never touches a
    provider, and the objects that were open stay as they are. *)
Theorem open_key_writes_handle_on_success st a hProvider phKey pszKeyName
    dwLegacyKeySpec dwFlags :
  match OpenKey st a hProvider phKey pszKeyName dwLegacyKeySpec dwFlags with
  | (Ok _, st', out) =>
      out = Some a ∧ providers st' = providers st ∧
      ∃ object, objects st' = <[a := object]> (objects st)
  | (Err e, st', out) =>
      out = phKey ∧ providers st' = providers st ∧ objects st' = objects st
  end.
Proof.
  unfold OpenKey. repeat case_match; simplify_eq; try done.
  split_and!; [done|done|]. by eexists.
Qed.

(** In GetProviderProperty and GetKeyProperty the null pointers are
    found before the flags are looked at, and the flags before the
    property is looked up: with handles that validate, a null property
    name or a null size output fails InvalidArgument with
    NTE_INVALID_PARAMETER whatever the flags are, and flags other than 0
    and NCRYPT_SILENT_FLAG fail with NTE_BAD_FLAGS whatever the property
    name is; either way nothing is written. *)
Theorem get_property_check_order st pszProperty pbOutput cbOutput pcbResult dwFlags
  (Hargs : pszProperty = None ∨ pcbResult = None ∨
           ¬ (dwFlags = 0 ∨ dwFlags = NCRYPT_SILENT_FLAG)) :
  (∀ hProvider prov,
     ValidateProviderHandle st hProvider = Ok prov →
     ∃ e, GetProviderProperty st hProvider pszProperty pbOutput cbOutput pcbResult dwFlags
            = (Err e, pbOutput, pcbResult) ∧
          code e = kInvalidArgument ∧
          rv e = if bool_decide (pszProperty = None ∨ pcbResult = None)
                 then NTE_INVALID_PARAMETER else NTE_BAD_FLAGS) ∧
  (∀ hProvider hKey object,
     ValidateKeyHandle st hProvider hKey = Ok object →
     ∃ e, GetKeyProperty st hProvider hKey pszProperty pbOutput cbOutput pcbResult dwFlags
            = (Err e, pbOutput, pcbResult) ∧
          code e = kInvalidArgument ∧
          rv e = if bool_decide (pszProperty = None ∨ pcbResult = None)
                 then NTE_INVALID_PARAMETER else NTE_BAD_FLAGS).
Proof.
  assert (Hchecks : ∃ e,
    (name ← not_null pszProperty "pszProperty cannot be null";
     _ ← not_null pcbResult "pcbResult cannot be null";
     _ ← ValidateFlags dwFlags; Ok name) = Err e ∧
    code e = kInvalidArgument ∧
    rv e = if bool_decide (pszProperty = None ∨ pcbResult = None)
           then NTE_INVALID_PARAMETER else NTE_BAD_FLAGS).
  { unfold mbind, StatusOr_bind. destruct pszProperty as [name|]; cbn [not_null].
    2: { eexists. split; [done|]. rewrite bool_decide_eq_true_2 by (by left). done. }
    destruct pcbResult as [old|]; cbn [not_null].
    2: { eexists. split; [done|]. rewrite bool_decide_eq_true_2 by (by right). done. }
    destruct Hargs as [?|[?|Hflags]]; [done|done|].
    destruct (ValidateFlags dwFlags) as [[]|e] eqn:Hf.
    { by apply ValidateFlags_ok in Hf. }
    apply ValidateFlags_err in Hf as [Hcode Hrv]. exists e. split; [done|].
    rewrite bool_decide_eq_false_2 by (by intros [?|?]). done. }
  destruct Hchecks as (e & Hchecks & Hcode & Hrv).
  unfold mbind, StatusOr_bind in Hchecks. split.
  - intros hProvider prov Hp. exists e. split; [|done].
    unfold GetProviderProperty, mbind, StatusOr_bind. rewrite Hp.
    destruct (not_null pszProperty _); [|by simplify_eq].
    destruct (not_null pcbResult _); [|by simplify_eq].
    destruct (ValidateFlags dwFlags); [done|by simplify_eq].
  - intros hProvider hKey object Hk. exists e. split; [|done].
    unfold GetKeyProperty, mbind, StatusOr_bind. rewrite Hk.
    destruct (not_null pszProperty _); [|by simplify_eq].
    destruct (not_null pcbResult _); [|by simplify_eq].
    destruct (ValidateFlags dwFlags); [done|by simplify_eq].
Qed.

(** A call of GetProviderProperty or GetKeyProperty that fails does not
    write to the output buffer, and writes to the size output only when
    it fails with NTE_BUFFER_TOO_SMALL. *)
Theorem failed_get_property_writes_nothing st pszProperty pbOutput cbOutput
    pcbResult dwFlags e out' pcb' :
  (∀ hProvider,
     GetProviderProperty st hProvider pszProperty pbOutput cbOutput pcbResult dwFlags
       = (Err e, out', pcb') →
     out' = pbOutput ∧ (pcb' = pcbResult ∨ rv e = NTE_BUFFER_TOO_SMALL)) ∧
  (∀ hProvider hKey,
     GetKeyProperty st hProvider hKey pszProperty pbOutput cbOutput pcbResult dwFlags
       = (Err e, out', pcb') →
     out' = pbOutput ∧ (pcb' = pcbResult ∨ rv e = NTE_BUFFER_TOO_SMALL)).
Proof.
  split.
  - intros hProvider. unfold GetProviderProperty.
    destruct (_ ≫= _) as [value|e0].
    + intros (-> & _ & _ & Hrv & _)%return_property_err. by auto.
    + intros [= <- <- <-]. by auto.
  - intros hProvider hKey. unfold GetKeyProperty.
    destruct (_ ≫= _) as [value|e0].
    + intros (-> & _ & _ & Hrv & _)%return_property_err. by auto.
    + intros [= <- <- <-]. by auto.
Qed.

Lemma copy_value value buffer :
  take (length value) (copy value buffer) = value ∧
  drop (length value) (copy value buffer) = drop (length value) buffer ∧
  (length value ≤ length buffer → length (copy value buffer) = length buffer)%nat.
Proof.
  unfold copy. split_and!.
  - by rewrite take_app_length.
  - by rewrite drop_app_length.
  - intros Hle. rewrite length_app, length_drop. lia.
Qed.

(** The path on which a property is returned.  With handles that
    validate, a known property name, a size output that is not null,
    flags that are 0 or NCRYPT_SILENT_FLAG and an output buffer whose
    declared size is not smaller than the value: the call succeeds,
    the size output holds the size of the value, the buffer starts with
    the bytes of the value and is as it was behind them. *)
Theorem get_property_fills_buffer st name value buffer cbOutput old dwFlags
  (Hflags : dwFlags = 0 ∨ dwFlags = NCRYPT_SILENT_FLAG)
  (Hfits : size value ≤ cbOutput) :
  (∀ hProvider prov,
     ValidateProviderHandle st hProvider = Ok prov →
     Provider_GetProperty prov name = Ok value →
     ∃ out, GetProviderProperty st hProvider (Some name) (Some buffer) cbOutput
              (Some old) dwFlags = (OkStatus, Some out, Some (to_DWORD (size value))) ∧
            take (length value) out = value ∧
            drop (length value) out = drop (length value) buffer ∧
            (length value ≤ length buffer → length out = length buffer)%nat) ∧
  (∀ hProvider hKey object,
     ValidateKeyHandle st hProvider hKey = Ok object →
     Object_GetProperty object name = Ok value →
     ∃ out, GetKeyProperty st hProvider hKey (Some name) (Some buffer) cbOutput
              (Some old) dwFlags = (OkStatus, Some out, Some (to_DWORD (size value))) ∧
            take (length value) out = value ∧
            drop (length value) out = drop (length value) buffer ∧
            (length value ≤ length buffer → length out = length buffer)%nat).
Proof.
  assert (Hret : return_property value (Some buffer) cbOutput =
                 (OkStatus, Some (copy value buffer), Some (to_DWORD (size value)))).
  { unfold return_property. by rewrite (proj2 (Z.ltb_ge _ _) Hfits). }
  split.
  - intros hProvider prov Hp Hv. exists (copy value buffer).
    rewrite (GetProviderProperty_valid _ _ prov name value) by done.
    split; [done|]. apply copy_value.
  - intros hProvider hKey object Hk Hv. exists (copy value buffer).
    rewrite (GetKeyProperty_valid _ _ _ object name value) by done.
    split; [done|]. apply copy_value.
Qed.

(** The path on which SignHash signs.  With a key that validates, passes
    the key preconditions and has a signature length that fits a DWORD,
    no padding info, a digest, a size output, allowed flags and a
    signature buffer whose declared size is not smaller than the
    signature length: SignDigest is called with exactly the first
    cbHashValue bytes behind the digest pointer and, as the span to
    sign into, exactly the first cbSignature bytes behind the signature
    pointer; the status of SignHash is that of SignDigest; the size
    output holds the signature length whether SignDigest succeeds or
    fails; and the signature buffer holds what SignDigest left in the
    span, followed by the bytes behind the span as they were. *)
Theorem sign_hash_delegates_to_sign_digest st hProvider hKey object len hash
    cbHashValue buffer cbSignature old dwFlags
  (Hkey : ValidateKeyHandle st hProvider hKey = Ok object)
  (Hpre : ValidateKeyPreconditions object = OkStatus)
  (Hlen : SignatureLength object = Ok len)
  (Hdword : 0 ≤ len ≤ MAXDWORD)
  (Hflags : dwFlags = 0 ∨ dwFlags = NCRYPT_SILENT_FLAG)
  (Hfits : len ≤ cbSignature) :
  SignHash st hProvider hKey None (Some hash) cbHashValue (Some buffer) cbSignature
    (Some old) dwFlags =
  match SignDigest object (take (Z.to_nat cbHashValue) hash)
          (take (Z.to_nat cbSignature) buffer) with
  | Ok span =>
      (OkStatus, Some (span ++ drop (Z.to_nat cbSignature) buffer), Some len)
  | Err e => (Err e, Some buffer, Some len)
  end.
Proof.
  rewrite (SignHash_valid _ _ _ object len) by done.
  rewrite (to_DWORD_fits len Hdword).
  by rewrite (proj2 (Z.ltb_ge _ _) Hfits).
Qed.

(** SignHash looks at its pointers before anything else of the call:
    with a key handle that validates, a padding info that is not null, a
    null digest or a null size output fails InvalidArgument with
    NTE_INVALID_PARAMETER and writes nothing, whatever the flags, the
    key and the buffer are. *)
Theorem sign_hash_rejects_pointers_first st hProvider hKey object pPaddingInfo
    pbHashValue cbHashValue pbSignature cbSignature pcbResult dwFlags
  (Hkey : ValidateKeyHandle st hProvider hKey = Ok object)
  (Hargs : is_Some pPaddingInfo ∨ pbHashValue = None ∨ pcbResult = None) :
  ∃ e, SignHash st hProvider hKey pPaddingInfo pbHashValue cbHashValue pbSignature
         cbSignature pcbResult dwFlags = (Err e, pbSignature, pcbResult) ∧
       code e = kInvalidArgument ∧ rv e = NTE_INVALID_PARAMETER.
Proof.
  unfold SignHash, mbind, StatusOr_bind. rewrite Hkey.
  destruct pPaddingInfo as [info|]; [by eexists|].
  destruct pbHashValue as [hash|]; simpl; [|by eexists].
  destruct pcbResult as [old|]; simpl; [|by eexists].
  by destruct Hargs as [[? ?]|[?|?]].
Qed.

(** SetProviderProperty hands a value to the provider only after its own
    checks: with a provider handle that validates, a null property
    name or a null input fails InvalidArgument with
    NTE_INVALID_PARAMETER whatever the flags are, flags other than 0 and
    NCRYPT_SILENT_FLAG fail with NTE_BAD_FLAGS whatever the property
    is, and the heap stays as it was. *)
Theorem set_property_check_order st hProvider prov pszProperty pbInput cbInput dwFlags
  (Hprov : ValidateProviderHandle st hProvider = Ok prov)
  (Hargs : pszProperty = None ∨ pbInput = None ∨
           ¬ (dwFlags = 0 ∨ dwFlags = NCRYPT_SILENT_FLAG)) :
  ∃ e, SetProviderProperty st hProvider pszProperty pbInput cbInput dwFlags
         = (Err e, st) ∧
       code e = kInvalidArgument ∧
       rv e = if bool_decide (pszProperty = None ∨ pbInput = None)
              then NTE_INVALID_PARAMETER else NTE_BAD_FLAGS.
Proof.
  unfold SetProviderProperty, mbind, StatusOr_bind. rewrite Hprov.
  destruct pszProperty as [name|]; cbn [not_null].
  2: { eexists. split; [done|]. rewrite bool_decide_eq_true_2 by (by left). done. }
  destruct pbInput as [input|]; cbn [not_null].
  2: { eexists. split; [done|]. rewrite bool_decide_eq_true_2 by (by right). done. }
  destruct Hargs as [?|[?|Hflags]]; [done|done|].
  destruct (ValidateFlags dwFlags) as [[]|e] eqn:Hf.
  { by apply ValidateFlags_ok in Hf. }
  apply ValidateFlags_err in Hf as [Hcode Hrv]. exists e. split; [done|].
  rewrite bool_decide_eq_false_2 by (by intros [?|?]). done.
Qed.

End EntryPoints.

#[local] Existing Instance toy_env.

Lemma get_property_check_order_witness :
  ∃ e, GetProviderProperty toy_heap 100 (Some "no such property") (Some [Byte.xff]) 1
         (Some 7) NCRYPT_MACHINE_KEY_FLAG = (Err e, Some [Byte.xff], Some 7) ∧
       code e = kInvalidArgument ∧ rv e = NTE_BAD_FLAGS.
Proof.
  destruct (get_property_check_order toy_heap (Some "no such property")
              (Some [Byte.xff]) 1 (Some 7) NCRYPT_MACHINE_KEY_FLAG) as [Hprov _].
  { right. right. intros [Hf|Hf]; discriminate Hf. }
  destruct (Hprov 100 Provider_ctor) as (e & Hcall & Hcode & Hrv); [reflexivity|].
  exists e. split; [exact Hcall|]. split; [exact Hcode|exact Hrv].
Defined.

Lemma failed_get_property_writes_nothing_witness :
  ∃ e, GetKeyProperty toy_heap 100 200 (Some "no such property") (Some [Byte.xff]) 1
         (Some 7) 0 = (Err e, Some [Byte.xff], Some 7) ∧
       rv e = NTE_NOT_SUPPORTED.
Proof.
  destruct (GetKeyProperty toy_heap 100 200 (Some "no such property") (Some [Byte.xff]) 1
              (Some 7) 0) as [[[[]|e] out'] pcb'] eqn:Hcall.
  { exfalso. vm_compute in Hcall. discriminate Hcall. }
  destruct (failed_get_property_writes_nothing toy_heap (Some "no such property")
              (Some [Byte.xff]) 1 (Some 7) 0 e out' pcb') as [_ Hkey].
  destruct (Hkey 100 200 Hcall) as [-> Hsize].
  assert (Hrv : rv e = NTE_NOT_SUPPORTED).
  { vm_compute in Hcall. injection Hcall as <- _. reflexivity. }
  exists e. split; [|exact Hrv].
  destruct Hsize as [->|Hsmall]; [reflexivity|].
  exfalso. rewrite Hrv in Hsmall. discriminate Hsmall.
Defined.

Lemma get_property_fills_buffer_witness :
  GetProviderProperty toy_heap 100 (Some "Impl Type") (Some (replicate 6 Byte.xff)) 6
    (Some 0) 0 =
  (OkStatus,
   Some [Byte.x01; Byte.x00; Byte.x00; Byte.x00; Byte.xff; Byte.xff], Some 4).
Proof.
  destruct (get_property_fills_buffer toy_heap "Impl Type"
              [Byte.x01; Byte.x00; Byte.x00; Byte.x00] (replicate 6 Byte.xff) 6 0 0)
    as [Hprov _]; [by left|by vm_compute|].
  destruct (Hprov 100 Provider_ctor) as (out & Hcall & Htake & Hdrop & _);
    [reflexivity|reflexivity|].
  rewrite Hcall. rewrite <- (take_drop 4 out).
  change 4%nat with (length [Byte.x01; Byte.x00; Byte.x00; Byte.x00]).
  rewrite Htake, Hdrop. reflexivity.
Defined.

Lemma sign_hash_delegates_to_sign_digest_witness :
  SignHash toy_heap 100 200 None (Some toy_digest) 32
    (Some (replicate 66 Byte.xff)) 65 (Some 0) NCRYPT_SILENT_FLAG
  = (OkStatus, Some (replicate 64 Byte.x00 ++ [Byte.xff; Byte.xff]), Some 64).
Proof.
  rewrite (sign_hash_delegates_to_sign_digest toy_heap 100 200 toy_object 64 toy_digest
             32 (replicate 66 Byte.xff) 65 0 NCRYPT_SILENT_FLAG);
    [|reflexivity|reflexivity|reflexivity|by vm_compute|by right|by vm_compute].
  vm_compute. reflexivity.
Defined.

Lemma sign_hash_rejects_pointers_first_witness :
  ∃ e, SignHash toy_heap 100 200 (Some tt) None 0 (Some [Byte.xff]) 1 None 12345
         = (Err e, Some [Byte.xff], None) ∧
       code e = kInvalidArgument ∧ rv e = NTE_INVALID_PARAMETER.
Proof.
  apply (sign_hash_rejects_pointers_first toy_heap 100 200 toy_object);
    [reflexivity|left; by eexists].
Defined.

Lemma set_property_check_order_witness :
  ∃ e, SetProviderProperty toy_heap 100 (Some "Channel Credentials") None 0 0
         = (Err e, toy_heap) ∧
       code e = kInvalidArgument ∧ rv e = NTE_INVALID_PARAMETER.
Proof.
  destruct (set_property_check_order toy_heap 100 Provider_ctor
              (Some "Channel Credentials") None 0 0) as (e & Hcall & Hcode & Hrv);
    [reflexivity|right; by left|].
  exists e. split; [exact Hcall|]. split; [exact Hcode|exact Hrv].
Defined.

End BridgeMore.
